(** * Soundscapy batch processing engine

    A shallow embedding of [soundscapy/audio/processing_engine.py]
    ([PsychoacousticProcessor] and [ProcessingEngine]) together with the
    properties of its failure isolation, resumability and progress
    accounting.

    Python exceptions caught by [except Exception] are values [Raise msg],
    where [msg] is what [str(e)] yields.  Mutable objects are threaded
    explicitly.  The results of a metric are values; the assignment
    [result.channel = channel_name] to the object that [calculate] returned
    is read a second time on a store of result objects ([ByReference]), and
    the two readings agree when [calculate] returns a new object at every
    call ([process_by_reference]).  The collaborators the engine only calls (the signal
    loader, the metric registry, the state manager, [os.listdir]) are
    interfaces, given as type classes; their calls are functions of their
    arguments.

    The thread pool of [process_directory] is a scheduler: a run is a
    sequence of moves, each either a worker running one submitted task or
    [as_completed] yielding one finished future, and [process_directory]
    takes the sequence as an argument.  A task reads the state manager once,
    when it starts, and shares nothing else, so running it in one move loses
    no interleaving; the order in which workers take tasks is left free.
    Properties are stated for every sequence of moves. *)

From Stdlib Require Import ZArith QArith Qcanon.
From stdpp Require Import numbers gmap strings list pretty.

Close Scope Qc_scope.
Close Scope Q_scope.

Open Scope string_scope.
Open Scope list_scope.

(** ** Exceptions *)

Inductive Exc (A : Type) : Type :=
  | Ok (a : A)
  | Raise (msg : string).
Arguments Ok {A} a.
Arguments Raise {A} msg.

Global Instance Exc_ret : MRet Exc := fun A a => Ok a.
Global Instance Exc_bind : MBind Exc := fun A B f m =>
  match m with
  | Ok a => f a
  | Raise msg => Raise msg
  end.

Definition raises {A} (m : Exc A) : bool :=
  match m with Ok _ => false | Raise _ => true end.

(** ** Python dictionaries with insertion order

    [d[k] = v] replaces the value of an existing key in place and appends
    a new key at the end. *)

Section OrderedDict.
Context {V : Type}.

Fixpoint dict_get (k : string) (d : list (string * V)) : option V :=
  match d with
  | [] => None
  | (k', v) :: d' => if String.eqb k k' then Some v else dict_get k d'
  end.

Fixpoint dict_set (k : string) (v : V) (d : list (string * V))
    : list (string * V) :=
  match d with
  | [] => [(k, v)]
  | (k', v') :: d' =>
      if String.eqb k k' then (k, v) :: d' else (k', v') :: dict_set k v d'
  end.

Definition dict_keys (d : list (string * V)) : list string := d.*1.
End OrderedDict.

(** ** Result model *)

(** Modelled from the spec: the class of what [Metric.calculate] returns is
    missing.  An opaque value plus the channel identifier it was computed
    for, which [_process_channel] assigns. *)
Record MetricResult (P : Type) : Type := {
  payload : P;
  channel : option string }.
Arguments payload {P} _.
Arguments channel {P} _.

(** [result.channel = channel_name]: the object after the assignment.  It
    is the same object as before; see [ByReference]. *)
Definition set_channel {P} (result : MetricResult P) (channel_name : string)
    : MetricResult P :=
  {| payload := payload result; channel := Some channel_name |}.

(** Modelled from the spec: [MultiChannelResult] of
    [soundscapy/audio/result_storage.py] is missing.  A mapping from channel
    identifier to the metric's output for that channel, in insertion
    order. *)
Record MultiChannelResult (P : Type) : Type := {
  channel_results : list (string * MetricResult P) }.
Arguments channel_results {P} _.

Definition new_MultiChannelResult {P} : MultiChannelResult P :=
  {| channel_results := [] |}.

Definition add_channel_result {P} (channel_name : string)
    (result : MetricResult P) (m : MultiChannelResult P)
    : MultiChannelResult P :=
  {| channel_results := dict_set channel_name result (channel_results m) |}.

(** Modelled from the spec: [FileAnalysisResults] of
    [soundscapy/audio/result_storage.py] is missing.  The source file, a
    mapping from metric name to [MultiChannelResult], and the errors of the
    file in the order they were added. *)
Record FileAnalysisResults (P : Type) : Type := {
  file_path : string;
  metric_results : list (string * MultiChannelResult P);
  errors : list string }.
Arguments file_path {P} _.
Arguments metric_results {P} _.
Arguments errors {P} _.

Definition new_FileAnalysisResults {P} (path : string)
    : FileAnalysisResults P :=
  {| file_path := path; metric_results := []; errors := [] |}.

Definition add_metric_result {P} (metric_name : string)
    (result : MultiChannelResult P) (r : FileAnalysisResults P)
    : FileAnalysisResults P :=
  {| file_path := file_path r;
     metric_results := dict_set metric_name result (metric_results r);
     errors := errors r |}.

Definition add_error {P} (error : string) (r : FileAnalysisResults P)
    : FileAnalysisResults P :=
  {| file_path := file_path r;
     metric_results := metric_results r;
     errors := errors r ++ [error] |}.

(** Modelled from the spec: [DirectoryAnalysisResults] of
    [soundscapy/audio/result_storage.py] is missing.  The source directory
    and a mapping from file identifier to [FileAnalysisResults]; adding a
    result for a file that has one replaces it. *)
Record DirectoryAnalysisResults (P : Type) : Type := {
  directory_path : string;
  file_results : gmap string (FileAnalysisResults P) }.
Arguments directory_path {P} _.
Arguments file_results {P} _.

Definition new_DirectoryAnalysisResults {P} (path : string)
    : DirectoryAnalysisResults P :=
  {| directory_path := path; file_results := ∅ |}.

Definition add_file_result {P} (path : string) (r : FileAnalysisResults P)
    (d : DirectoryAnalysisResults P) : DirectoryAnalysisResults P :=
  {| directory_path := directory_path d;
     file_results := <[path := r]> (file_results d) |}.

(** ** Progress tracker *)

(** Modelled from the spec: [ProgressTracker] of
    [soundscapy/audio/progress_tracking.py] is missing.  A total, a
    completed count and a label; [update] advances the count by one. *)
Record ProgressTracker : Type := {
  total : nat;
  completed : nat;
  description : string }.

Definition new_ProgressTracker (n : nat) (label : string) : ProgressTracker :=
  {| total := n; completed := 0; description := label |}.

Definition update (p : ProgressTracker) : ProgressTracker :=
  {| total := total p; completed := S (completed p);
     description := description p |}.

(** ** Configuration

    The processor's [config] dictionary; an absent key is [None]. *)

Record MetricConfig : Type := {
  enabled : option bool;
  options : list (string * Z) }.

Record Config : Type := {
  cfg_segment_length : option Z;
  cfg_overlap : option Z;
  cfg_result_detail : option string;
  cfg_force_reprocess : option bool;
  cfg_metrics : option (list (string * MetricConfig)) }.

(** ** Collaborators *)

(** [BinauralSignal]: a loaded recording; indexing it and its [left] and
    [right] attributes give signals again. *)
Class SignalLib : Type := {
  BinauralSignal : Type;
  sig_file_path : BinauralSignal → string;
  channels : BinauralSignal → nat;
  sig_left : BinauralSignal → BinauralSignal;
  sig_right : BinauralSignal → BinauralSignal;
  getitem : BinauralSignal → nat → BinauralSignal;
  from_wav : string → Exc BinauralSignal }.

(** [metric_registry.get_metric] and the [Metric] interface.  [configure]
    mutates the metric: it returns the configured one. *)
Class MetricLib `{SignalLib} : Type := {
  Metric : Type;
  Payload : Type;
  get_metric : string → Exc Metric;
  configure : Metric → MetricConfig → Exc Metric;
  calculate : Metric → BinauralSignal → Exc (MetricResult Payload) }.

(** [StateManager].  [mark_processed] mutates the store, also when it
    raises. *)
Class StateStore : Type := {
  StateManager : Type;
  is_processed : StateManager → string → Exc bool;
  mark_processed : StateManager → string → StateManager * Exc unit }.

(** [os.listdir]. *)
Class FileSystem : Type := {
  listdir : string → Exc (list string) }.

Abbreviation Result := (MetricResult Payload).
Abbreviation Channels := (MultiChannelResult Payload).
Abbreviation FileResults := (FileAnalysisResults Payload).
Abbreviation DirResults := (DirectoryAnalysisResults Payload).

(** ** PsychoacousticProcessor *)

Record PsychoacousticProcessor : Type := {
  config : Config;
  segment_length : option Z;
  overlap : Z;
  result_detail : string;
  force_reprocess : bool }.

Definition PsychoacousticProcessor_init (config : Config)
    : PsychoacousticProcessor :=
  {| config := config;
     segment_length := cfg_segment_length config;
     overlap := default 0%Z (cfg_overlap config);
     result_detail := default "all" (cfg_result_detail config);
     force_reprocess := default false (cfg_force_reprocess config) |}.

Section Processor.
Context `{MetricLib}.

Definition segment_signal (self : PsychoacousticProcessor)
    (audio_data : BinauralSignal) : list BinauralSignal :=
  [audio_data].

Definition analyze_segment (self : PsychoacousticProcessor)
    (segment : BinauralSignal) (metric : Metric) : Exc Result :=
  calculate metric segment.

(** The loop of [_process_channel] over the segments. *)
Fixpoint analyze_segments (self : PsychoacousticProcessor) (metric : Metric)
    (segments : list BinauralSignal) (results : list Result)
    : Exc (list Result) :=
  match segments with
  | [] => Ok results
  | segment :: rest =>
      result ← analyze_segment self segment metric;
      analyze_segments self metric rest (results ++ [result])
  end.

(** The body of [_process_channel] from its loop on, for the [segments]
    that [self.segment_signal] returned. *)
Definition reduce_segments (self : PsychoacousticProcessor)
    (metric : Metric) (segments : list BinauralSignal)
    (channel_name : string) : Exc Result :=
  results ← analyze_segments self metric segments [];
  match results !! 0%nat with
  | Some result => Ok (set_channel result channel_name)
  | None => Raise "list index out of range"
  end.

Definition _process_channel (self : PsychoacousticProcessor)
    (metric : Metric) (channel_data : BinauralSignal)
    (channel_name : string) : Exc Result :=
  let segments := segment_signal self channel_data in
  reduce_segments self metric segments channel_name.

Definition channel_label (i : nat) : string := "channel_" +:+ pretty (i + 1).

(** The two futures of the stereo pool: both channels are computed, the
    left result is awaited and recorded first. *)
Definition process_stereo (self : PsychoacousticProcessor) (metric : Metric)
    (audio_data : BinauralSignal) (m : Channels) : Exc Channels :=
  let future_left :=
    _process_channel self metric (sig_left audio_data) "left" in
  let future_right :=
    _process_channel self metric (sig_right audio_data) "right" in
  l ← future_left;
  let m := add_channel_result "left" l m in
  r ← future_right;
  Ok (add_channel_result "right" r m).

(** [for i in range(audio_data.channels)] *)
Fixpoint process_sequential (self : PsychoacousticProcessor)
    (metric : Metric) (audio_data : BinauralSignal) (indices : list nat)
    (m : Channels) : Exc Channels :=
  match indices with
  | [] => Ok m
  | i :: rest =>
      let channel_name := channel_label i in
      channel_result ←
        _process_channel self metric (getitem audio_data i) channel_name;
      process_sequential self metric audio_data rest
        (add_channel_result channel_name channel_result m)
  end.

(** The body of the metric loop for one enabled metric, up to the
    [MultiChannelResult] it records. *)
Definition process_metric (self : PsychoacousticProcessor)
    (audio_data : BinauralSignal) (parallel : bool)
    (metric_name : string) (metric_config : MetricConfig) : Exc Channels :=
  metric ← get_metric metric_name;
  metric ← configure metric metric_config;
  let multi_channel_result := new_MultiChannelResult in
  if parallel && (channels audio_data =? 2)%nat
  then process_stereo self metric audio_data multi_channel_result
  else process_sequential self metric audio_data
         (seq 0 (channels audio_data)) multi_channel_result.

(** The [try] block of [process]: [file_results] is mutated as the loop
    goes, and is what it is when an exception leaves the loop. *)
Fixpoint process_metrics (self : PsychoacousticProcessor)
    (audio_data : BinauralSignal) (parallel : bool)
    (items : list (string * MetricConfig)) (file_results : FileResults)
    : FileResults * Exc unit :=
  match items with
  | [] => (file_results, Ok ())
  | (metric_name, metric_config) :: rest =>
      if default true (enabled metric_config) then
        match process_metric self audio_data parallel
                metric_name metric_config with
        | Ok multi_channel_result =>
            process_metrics self audio_data parallel rest
              (add_metric_result metric_name multi_channel_result
                 file_results)
        | Raise e => (file_results, Raise e)
        end
      else process_metrics self audio_data parallel rest file_results
  end.

(** Both the normal exit and the handler [return file_results]; the
    handler only logs the exception. *)
Definition process (self : PsychoacousticProcessor)
    (audio_data : BinauralSignal) (parallel : bool) : Exc FileResults :=
  let file_results := new_FileAnalysisResults (sig_file_path audio_data) in
  match process_metrics self audio_data parallel
          (default [] (cfg_metrics (config self))) file_results with
  | (file_results, Ok _) => Ok file_results
  | (file_results, Raise e) => Ok file_results
  end.
End Processor.

(** ** Result objects

    [result.channel = channel_name] in [_process_channel] assigns to the
    object that [metric.calculate] returned; it builds no object.  Above, a
    result is a value and the assignment is [set_channel]: this is what the
    code does when every call of [calculate] returns a new object
    ([process_by_reference] below).  Here the result objects live in a
    store, [calculate] returns a reference into it, and the processor is
    read again with the assignment as an update of the store, which covers
    a metric that returns an object it has returned before. *)

(** Code that changes a store and returns or raises; what it changed stays
    changed when it raises. *)
Definition StateExc (S A : Type) : Type := S → S * Exc A.

Global Instance StateExc_ret {S} : MRet (StateExc S) :=
  fun A a h => (h, Ok a).
Global Instance StateExc_bind {S} : MBind (StateExc S) := fun A B f m h =>
  match m h with
  | (h, Ok a) => f a h
  | (h, Raise msg) => (h, Raise msg)
  end.

Definition throw {S A} (msg : string) : StateExc S A :=
  fun h => (h, Raise msg).

(** A call that does not touch the store. *)
Definition pure_call {S A} (m : Exc A) : StateExc S A := fun h => (h, m).

Module ByReference.

(** The identity of a result object, and the result objects that exist,
    by identity. *)
Abbreviation Ref := nat.
Abbreviation Store := (gmap Ref Result).

(** Modelled from the spec: [MultiChannelResult] as above, holding the
    result objects by reference. *)
Record MultiChannelResult : Type := {
  channel_results : list (string * Ref) }.

Definition new_MultiChannelResult : MultiChannelResult :=
  {| channel_results := [] |}.

Definition add_channel_result (channel_name : string) (result : Ref)
    (m : MultiChannelResult) : MultiChannelResult :=
  {| channel_results := dict_set channel_name result (channel_results m) |}.

(** Modelled from the spec: [FileAnalysisResults] as above, over these
    [MultiChannelResult]. *)
Record FileAnalysisResults : Type := {
  file_path : string;
  metric_results : list (string * MultiChannelResult);
  errors : list string }.

Definition new_FileAnalysisResults (path : string) : FileAnalysisResults :=
  {| file_path := path; metric_results := []; errors := [] |}.

Definition add_metric_result (metric_name : string)
    (result : MultiChannelResult) (r : FileAnalysisResults)
    : FileAnalysisResults :=
  {| file_path := file_path r;
     metric_results := dict_set metric_name result (metric_results r);
     errors := errors r |}.

(** A worker of the pool of two on its call of [_process_channel]: it has
    yet to run the loop over the segments, or it has the [results] of the
    loop and has yet to take the first and assign its [channel], or it has
    returned. *)
Inductive Worker `{SignalLib} : Type :=
  | Submitted (channel_data : BinauralSignal) (channel_name : string)
  | Computed (results : list Ref) (channel_name : string)
  | Returned (future : Exc Ref).

Section Processor.
Context `{MetricLib}.

(** [metric.calculate(segment)] on the store: the reference of the object
    it returns.  A call is one step of the thread that makes it. *)
Variable calculate_obj : Metric → BinauralSignal → StateExc Store Ref.

Definition analyze_segment (self : PsychoacousticProcessor)
    (segment : BinauralSignal) (metric : Metric) : StateExc Store Ref :=
  calculate_obj metric segment.

Fixpoint analyze_segments (self : PsychoacousticProcessor) (metric : Metric)
    (segments : list BinauralSignal) (results : list Ref)
    : StateExc Store (list Ref) :=
  match segments with
  | [] => mret results
  | segment :: rest =>
      result ← analyze_segment self segment metric;
      analyze_segments self metric rest (results ++ [result])
  end.

(** [result.channel = channel_name].  A reference that is not of the store
    is of no result object; it is read as [None], which takes no
    attribute. *)
Definition setattr_channel (result : Ref) (channel_name : string)
    : StateExc Store unit :=
  fun h =>
    match h !! result with
    | Some obj => (<[result := set_channel obj channel_name]> h, Ok ())
    | None => (h, Raise "'NoneType' object has no attribute 'channel'")
    end.

(** [result = results[0]; result.channel = channel_name; return result] *)
Definition first_result (results : list Ref) (channel_name : string)
    : StateExc Store Ref :=
  match results !! 0%nat with
  | Some result => _ ← setattr_channel result channel_name; mret result
  | None => throw "list index out of range"
  end.

Definition reduce_segments (self : PsychoacousticProcessor)
    (metric : Metric) (segments : list BinauralSignal)
    (channel_name : string) : StateExc Store Ref :=
  results ← analyze_segments self metric segments [];
  first_result results channel_name.

Definition _process_channel (self : PsychoacousticProcessor)
    (metric : Metric) (channel_data : BinauralSignal)
    (channel_name : string) : StateExc Store Ref :=
  let segments := segment_signal self channel_data in
  reduce_segments self metric segments channel_name.

(** One step of a worker: the loop over the segments, which is one call of
    [calculate] for the one segment that [segment_signal] gives, or the
    assignment. *)
Definition work (self : PsychoacousticProcessor) (metric : Metric)
    (w : Worker) (h : Store) : Store * Worker :=
  match w with
  | Submitted channel_data channel_name =>
      let segments := segment_signal self channel_data in
      match analyze_segments self metric segments [] h with
      | (h, Ok results) => (h, Computed results channel_name)
      | (h, Raise e) => (h, Returned (Raise e))
      end
  | Computed results channel_name =>
      let '(h, future) := first_result results channel_name h in
      (h, Returned future)
  | Returned future => (h, w)
  end.

(** What is left of a worker's call. *)
Definition finish (self : PsychoacousticProcessor) (metric : Metric)
    (w : Worker) : StateExc Store Ref :=
  match w with
  | Submitted channel_data channel_name =>
      _process_channel self metric channel_data channel_name
  | Computed results channel_name => first_result results channel_name
  | Returned future => pure_call future
  end.

(** The two workers take turns as the scheduler decides: [true] is a step
    of the worker on the left channel. *)
Fixpoint run_pool (self : PsychoacousticProcessor) (metric : Metric)
    (turns : list bool) (worker_left worker_right : Worker) (h : Store)
    : Store * (Worker * Worker) :=
  match turns with
  | [] => (h, (worker_left, worker_right))
  | true :: turns =>
      let '(h, worker_left) := work self metric worker_left h in
      run_pool self metric turns worker_left worker_right h
  | false :: turns =>
      let '(h, worker_right) := work self metric worker_right h in
      run_pool self metric turns worker_left worker_right h
  end.

(** The pool of two: both calls are submitted and run as the scheduler
    decides; leaving the [with] block waits for both, also when
    [future_left.result()] raises; the left result is recorded first. *)
Definition process_stereo (self : PsychoacousticProcessor) (metric : Metric)
    (audio_data : BinauralSignal) (turns : list bool)
    (m : MultiChannelResult) : StateExc Store MultiChannelResult :=
  fun h =>
    let '(h, (worker_left, worker_right)) :=
      run_pool self metric turns
        (Submitted (sig_left audio_data) "left")
        (Submitted (sig_right audio_data) "right") h in
    let '(h, future_left) := finish self metric worker_left h in
    let '(h, future_right) := finish self metric worker_right h in
    (h,
     l ← future_left;
     let m := add_channel_result "left" l m in
     r ← future_right;
     Ok (add_channel_result "right" r m)).

Fixpoint process_sequential (self : PsychoacousticProcessor)
    (metric : Metric) (audio_data : BinauralSignal) (indices : list nat)
    (m : MultiChannelResult) : StateExc Store MultiChannelResult :=
  match indices with
  | [] => mret m
  | i :: rest =>
      let channel_name := channel_label i in
      channel_result ←
        _process_channel self metric (getitem audio_data i) channel_name;
      process_sequential self metric audio_data rest
        (add_channel_result channel_name channel_result m)
  end.

Definition process_metric (self : PsychoacousticProcessor)
    (audio_data : BinauralSignal) (parallel : bool) (turns : list bool)
    (metric_name : string) (metric_config : MetricConfig)
    : StateExc Store MultiChannelResult :=
  metric ← pure_call (get_metric metric_name);
  metric ← pure_call (configure metric metric_config);
  let multi_channel_result := new_MultiChannelResult in
  if parallel && (channels audio_data =? 2)%nat
  then process_stereo self metric audio_data turns multi_channel_result
  else process_sequential self metric audio_data
         (seq 0 (channels audio_data)) multi_channel_result.

(** The [try] block of [process]; [turns] gives the turns of the pool of
    each metric. *)
Fixpoint process_metrics (self : PsychoacousticProcessor)
    (audio_data : BinauralSignal) (parallel : bool)
    (turns : string → list bool) (items : list (string * MetricConfig))
    (file_results : FileAnalysisResults) (h : Store)
    : Store * (FileAnalysisResults * Exc unit) :=
  match items with
  | [] => (h, (file_results, Ok ()))
  | (metric_name, metric_config) :: rest =>
      if default true (enabled metric_config) then
        match process_metric self audio_data parallel (turns metric_name)
                metric_name metric_config h with
        | (h, Ok multi_channel_result) =>
            process_metrics self audio_data parallel turns rest
              (add_metric_result metric_name multi_channel_result
                 file_results) h
        | (h, Raise e) => (h, (file_results, Raise e))
        end
      else process_metrics self audio_data parallel turns rest file_results h
  end.

Definition process (self : PsychoacousticProcessor)
    (audio_data : BinauralSignal) (parallel : bool)
    (turns : string → list bool) : StateExc Store FileAnalysisResults :=
  fun h =>
    let file_results := new_FileAnalysisResults (sig_file_path audio_data) in
    match process_metrics self audio_data parallel turns
            (default [] (cfg_metrics (config self))) file_results h with
    | (h, (file_results, Ok _)) => (h, Ok file_results)
    | (h, (file_results, Raise e)) => (h, Ok file_results)
    end.

(** Vocabulary of the statements.  [computed metric segments h results h']:
    from the store [h], [calculate] is called once on each of [segments],
    in order, every call returns, [results] are the references returned,
    in order, and [h'] is the store after the last call. *)
Inductive computed (metric : Metric)
    : list BinauralSignal → Store → list Ref → Store → Prop :=
  | computed_nil h : computed metric [] h [] h
  | computed_cons segment segments h result h1 results h2 :
      calculate_obj metric segment h = (h1, Ok result) →
      computed metric segments h1 results h2 →
      computed metric (segment :: segments) h (result :: results) h2.

(** Every call of [calculate] builds a new object, and which one depends on
    the metric and the signal only: it adds to the store the result that
    [calculate] of the metric library gives, under a reference that was
    not in use, and changes nothing else. *)
Definition returns_new_objects : Prop :=
  ∀ metric segment h,
    match calculate metric segment with
    | Ok result =>
        ∃ r, h !! r = None ∧
             calculate_obj metric segment h = (<[r := result]> h, Ok r)
    | Raise e => calculate_obj metric segment h = (h, Raise e)
    end.
End Processor.

End ByReference.

(** Vocabulary of the statements.  Two dictionaries with the same keys in
    the same order and related values. *)
Definition dict_rel {A B} (P : A → B → Prop)
    (d1 : list (string * A)) (d2 : list (string * B)) : Prop :=
  Forall2 (fun x y => x.1 = y.1 ∧ P x.2 y.2) d1 d2.

(** A result holding references denotes, in a store, a result holding
    values. *)
Definition denotes_channels `{MetricLib} (h : ByReference.Store)
    (m : ByReference.MultiChannelResult) (mv : Channels) : Prop :=
  dict_rel (fun r v => h !! r = Some v)
    (ByReference.channel_results m) (channel_results mv).

Definition denotes_results `{MetricLib} (h : ByReference.Store)
    (fr : ByReference.FileAnalysisResults) (frv : FileResults) : Prop :=
  ByReference.file_path fr = file_path frv ∧
  ByReference.errors fr = errors frv ∧
  dict_rel (denotes_channels h)
    (ByReference.metric_results fr) (metric_results frv).

(** A call on the store that returns the reference of an object that was
    not there and is [v] when the call on values returns [v], raises what
    the call on values raises, and changes no object that was there. *)
Definition returns_new `{MetricLib} (mv : Exc Result)
    (m : StateExc ByReference.Store ByReference.Ref) : Prop :=
  ∀ h, ∃ h', h ⊆ h' ∧
    match mv with
    | Ok v => ∃ r, m h = (h', Ok r) ∧ h' !! r = Some v ∧ h !! r = None
    | Raise e => m h = (h', Raise e)
    end.

(** What is known of a worker of the pool of two on [channel_data] and
    [channel_name], in a store that extends [h0]: the object it holds is
    new and is what [calculate] gives, tagged once the worker returned. *)
Definition worker_inv `{MetricLib} (metric : Metric)
    (h0 h : ByReference.Store) (channel_data : BinauralSignal)
    (channel_name : string) (w : ByReference.Worker) : Prop :=
  match w with
  | ByReference.Submitted d n => d = channel_data ∧ n = channel_name
  | ByReference.Computed results n =>
      n = channel_name ∧
      ∃ r raw, results = [r] ∧ calculate metric channel_data = Ok raw ∧
               h !! r = Some raw ∧ h0 !! r = None
  | ByReference.Returned (Ok r) =>
      ∃ raw, calculate metric channel_data = Ok raw ∧
             h !! r = Some (set_channel raw channel_name) ∧ h0 !! r = None
  | ByReference.Returned (Raise e) => calculate metric channel_data = Raise e
  end.

Definition worker_ref `{SignalLib} (w : ByReference.Worker)
    : option ByReference.Ref :=
  match w with
  | ByReference.Submitted _ _ => None
  | ByReference.Computed results _ => head results
  | ByReference.Returned (Ok r) => Some r
  | ByReference.Returned (Raise _) => None
  end.

(** ** ProcessingEngine *)

Record ProcessingEngine : Type := {
  processor : PsychoacousticProcessor;
  max_workers : Z }.

(** [str.endswith] and [os.path.join] for a name without a slash. *)
Definition endswith (s suffix : string) : bool :=
  let n := String.length s in
  let m := String.length suffix in
  (m <=? n)%nat && String.eqb (String.substring (n - m) m s) suffix.

Definition path_join (directory f : string) : string :=
  if String.eqb directory "" then f
  else if endswith directory "/" then directory +:+ f
  else directory +:+ "/" +:+ f.

(** What the scheduler decides during the [with ThreadPoolExecutor] block:
    a worker takes the task at position [k] of the queue and runs it, or
    [as_completed] yields the finished future at position [k].  A position
    that does not exist changes nothing. *)
Inductive Event : Type :=
  | Start (k : nat)
  | Yield (k : nat).

Section Engine.
Context `{MetricLib} `{!StateStore} `{!FileSystem}.

Definition _process_file (file_path : string)
    (processor : PsychoacousticProcessor) (state_manager : StateManager)
    (parallel_channels : bool) : Exc FileResults :=
  already ← is_processed state_manager file_path;
  if already && negb (force_reprocess processor) then
    Ok (new_FileAnalysisResults file_path)
  else
    match audio_data ← from_wav file_path;
          process processor audio_data parallel_channels with
    | Ok result => Ok result
    | Raise e => Ok (add_error e (new_FileAnalysisResults file_path))
    end.

(** The state of a run inside the [with] block: the tasks submitted and not
    yet run, the futures finished and not yet yielded, and the three
    objects the loop mutates. *)
Record Run : Type := {
  queued : list string;
  finished : list (string * Exc FileResults);
  results : DirResults;
  store : StateManager;
  tracker : ProgressTracker }.

(** Every file is submitted to the pool before the loop starts. *)
Definition submit_all (file_paths : list string)
    (directory_results : DirResults) (state_manager : StateManager)
    (progress_tracker : ProgressTracker) : Run :=
  {| queued := file_paths; finished := [];
     results := directory_results;
     store := state_manager;
     tracker := progress_tracker |}.

(** A worker runs one task.  The task reads the state manager once, at its
    start, and touches nothing shared afterwards. *)
Definition start_task (self : ProcessingEngine) (k : nat) (r : Run) : Run :=
  match queued r !! k with
  | None => r
  | Some file_path =>
      {| queued := delete k (queued r);
         finished := finished r ++
           [(file_path,
             _process_file file_path (processor self) (store r) false)];
         results := results r;
         store := store r;
         tracker := tracker r |}
  end.

(** The body of [for future in as_completed(future_to_file)]. *)
Definition handle_future (file_path : string) (future : Exc FileResults)
    (d : DirResults) (s : StateManager) (p : ProgressTracker)
    : DirResults * StateManager * ProgressTracker :=
  let '(d, s) :=
    match future with
    | Ok result =>
        let d := add_file_result file_path result d in
        match mark_processed s file_path with
        | (s, Ok _) => (d, s)
        | (s, Raise e) =>
            let error_result :=
              add_error e (new_FileAnalysisResults file_path) in
            (add_file_result file_path error_result d, s)
        end
    | Raise e =>
        let error_result := add_error e (new_FileAnalysisResults file_path) in
        (add_file_result file_path error_result d, s)
    end in
  (d, s, update p).

Definition yield_future (k : nat) (r : Run) : Run :=
  match finished r !! k with
  | None => r
  | Some (file_path, future) =>
      let '(d, s, p) :=
        handle_future file_path future (results r) (store r) (tracker r) in
      {| queued := queued r;
         finished := delete k (finished r);
         results := d;
         store := s;
         tracker := p |}
  end.

Definition step (self : ProcessingEngine) (e : Event) (r : Run) : Run :=
  match e with
  | Start k => start_task self k r
  | Yield k => yield_future k r
  end.

Definition steps (self : ProcessingEngine) (schedule : list Event) (r : Run)
    : Run :=
  foldl (fun r e => step self e r) r schedule.

(** Leaving the [with] block joins the pool: what the schedule left over is
    run and collected. *)
Definition join (self : ProcessingEngine) (r : Run) : Run :=
  let r := Nat.iter (length (queued r)) (start_task self 0) r in
  Nat.iter (length (finished r)) (yield_future 0) r.

(** What a call leaves behind: the value returned or the exception raised,
    the state manager, and the progress tracker if one was created. *)
Record Outcome : Type := {
  returned : Exc DirResults;
  state_after : StateManager;
  progress_after : option ProgressTracker }.

Definition eligible_files (directory_path : string) : Exc (list string) :=
  names ← listdir directory_path;
  Ok (map (path_join directory_path)
        (filter (fun f => Is_true (endswith f ".wav")) (names : list string))).

(** [ThreadPoolExecutor] refuses a pool without workers. *)
Definition process_directory (schedule : list Event)
    (self : ProcessingEngine) (directory_path : string)
    (state_manager : StateManager) : Outcome :=
  match eligible_files directory_path with
  | Raise e =>
      {| returned := Raise e; state_after := state_manager;
         progress_after := None |}
  | Ok file_paths =>
      let progress_tracker :=
        new_ProgressTracker (length file_paths) "Processing files" in
      let directory_results := new_DirectoryAnalysisResults directory_path in
      if (max_workers self <=? 0)%Z then
        {| returned := Raise "max_workers must be greater than 0";
           state_after := state_manager;
           progress_after := Some progress_tracker |}
      else
        let r :=
          join self (steps self schedule
            (submit_all file_paths directory_results state_manager
               progress_tracker)) in
        {| returned := Ok (results r);
           state_after := store r;
           progress_after := Some (tracker r) |}
  end.
End Engine.

(** ** The state manager as a set of completed files *)

(** Modelled from the spec: [StateManager] of
    [soundscapy/audio/state_manager.py] is missing.  The store is the set of
    file identifiers marked complete; [is_processed] is membership,
    [mark_processed] adds the identifier, and neither raises. *)
Definition SetStore : StateStore := {|
  StateManager := gset string;
  is_processed := fun s f => Ok (bool_decide (f ∈ s));
  mark_processed := fun s f => ({[f]} ∪ s, Ok ()) |}.

(** ** Vocabulary of the statements *)

(** The signals a metric is computed on for one file, in the order the
    channels are recorded, and the labels they are recorded under. *)
Definition channel_inputs `{SignalLib} (parallel : bool)
    (audio_data : BinauralSignal) : list BinauralSignal :=
  if parallel && (channels audio_data =? 2)%nat
  then [sig_left audio_data; sig_right audio_data]
  else getitem audio_data <$> seq 0 (channels audio_data).

Definition channel_labels `{SignalLib} (parallel : bool)
    (audio_data : BinauralSignal) : list string :=
  if parallel && (channels audio_data =? 2)%nat
  then ["left"; "right"]
  else channel_label <$> seq 0 (channels audio_data).

(** An enabled metric that resolves, configures and computes on every
    channel of the file. *)
Definition metric_succeeds `{MetricLib} (parallel : bool)
    (audio_data : BinauralSignal) (item : string * MetricConfig) : Prop :=
  ∃ metric metric',
    get_metric item.1 = Ok metric ∧
    configure metric item.2 = Ok metric' ∧
    ∀ s, s ∈ channel_inputs parallel audio_data →
      ∃ r, calculate metric' s = Ok r.

Definition is_enabled (item : string * MetricConfig) : bool :=
  default true (enabled item.2).

(** The channels of one file as [process] goes through them: the key a
    channel is recorded under and the signal the metric is computed on. *)
Definition channel_plan `{SignalLib} (parallel : bool)
    (audio_data : BinauralSignal) : list (string * BinauralSignal) :=
  if parallel && (channels audio_data =? 2)%nat
  then [("left", sig_left audio_data); ("right", sig_right audio_data)]
  else (fun i => (channel_label i, getitem audio_data i)) <$>
       seq 0 (channels audio_data).

Section EngineVocabulary.
Context `{MetricLib} `{!StateStore} `{!FileSystem}.

(** What a task that is not skipped returns. *)
Definition dispatch_result (processor : PsychoacousticProcessor) (f : string)
    : FileResults :=
  match from_wav f with
  | Ok audio_data =>
      match process processor audio_data false with
      | Ok result => result
      | Raise e => add_error e (new_FileAnalysisResults f)
      end
  | Raise e => add_error e (new_FileAnalysisResults f)
  end.


(** The tracker counts the futures yielded: what is queued, finished or
    counted adds up to the number of files. *)
Definition progress_inv (n : nat) (r : Run) : Prop :=
  total (tracker r) = n ∧
  completed (tracker r) + length (finished r) + length (queued r) = n.


(** What the run knows of one file [f0]: [J] holds of the state manager,
    the futures of [f0] come from tasks started under [J], and [f0] is
    still to be run, or still to be yielded, or [G] is established. *)
Definition outcome_inv (self : ProcessingEngine) (f0 : string)
    (J : StateManager → Prop) (G : DirResults → StateManager → Prop)
    (r : Run) : Prop :=
  J (store r) ∧
  (∀ future, (f0, future) ∈ finished r →
     ∃ s, J s ∧ future = _process_file f0 (processor self) s false) ∧
  (f0 ∈ queued r ∨ f0 ∈ (finished r).*1 ∨ G (results r) (store r)).

(** Every submitted file is still to be run, or still to be yielded, or has
    its entry, and nothing else has one. *)
Definition entries_inv (files : list string) (r : Run) : Prop :=
  ∀ f, f ∈ files ↔
    (f ∈ queued r ∨ f ∈ (finished r).*1 ∨
     is_Some (file_results (results r) !! f)).

End EngineVocabulary.

Section SetStoreVocabulary.
Context `{MetricLib} `{!FileSystem}.
Local Existing Instance SetStore.

(** A batch in which no file is skipped: nothing of it is marked complete
    at the start, or [force_reprocess] is set. *)
Definition batch_inv self (files : list string) (s0 : StateManager) r : Prop :=
  NoDup (queued r ++ (finished r).*1) ∧
  (∀ f, f ∈ store r →
     f ∈ s0 ∨ ((f ∉ queued r) ∧ (f ∉ (finished r).*1))) ∧
  (∀ f future, (f, future) ∈ finished r →
     future = Ok (dispatch_result (processor self) f)) ∧
  (∀ f fr, file_results (results r) !! f = Some fr →
     fr = dispatch_result (processor self) f) ∧
  (∀ f, f ∈ files ↔
     (f ∈ queued r ∨ f ∈ (finished r).*1 ∨
      is_Some (file_results (results r) !! f))).

(** A batch of distinct files on the set of completed files [s0]: no file
    is in flight twice, a file with an entry is no longer in flight, the
    files marked are those of [s0] and those with an entry, and every future
    and entry is what the file's task returns on [s0]. *)
Definition snapshot_inv self (files : list string) (s0 : StateManager) r
    : Prop :=
  NoDup (queued r ++ (finished r).*1) ∧
  (∀ f, is_Some (file_results (results r) !! f) →
     (f ∉ queued r) ∧ (f ∉ (finished r).*1)) ∧
  (∀ f, f ∈ store r ↔
     (f ∈ s0 ∨ is_Some (file_results (results r) !! f))) ∧
  (∀ f future, (f, future) ∈ finished r →
     future = _process_file f (processor self) s0 false) ∧
  (∀ f fr, file_results (results r) !! f = Some fr →
     _process_file f (processor self) s0 false = Ok fr) ∧
  entries_inv files r.

End SetStoreVocabulary.

(** * A concrete world

    Collaborators to run the engine on: a directory [rec] of recordings, a
    loader that fails on [rec/bad.wav], and a registry of three metrics, of
    which [faulty] fails on the second channel of a recording. *)

Module Demo.

Record Wave : Type := {
  wave_path : string;
  wave_channels : nat;
  wave_index : nat }.

Definition wave_channel (w : Wave) (i : nat) : Wave :=
  {| wave_path := wave_path w; wave_channels := 1; wave_index := S i |}.

Definition load (path : string) : Exc Wave :=
  if String.eqb path "rec/a.wav" then
    Ok {| wave_path := path; wave_channels := 2; wave_index := 0 |}
  else if String.eqb path "rec/b.wav" then
    Ok {| wave_path := path; wave_channels := 1; wave_index := 0 |}
  else if String.eqb path "rec/bad.wav" then Raise "not a WAVE file"
  else Raise "No such file".

Definition signals : SignalLib := {|
  BinauralSignal := Wave;
  sig_file_path := wave_path;
  channels := wave_channels;
  sig_left := fun w => wave_channel w 0;
  sig_right := fun w => wave_channel w 1;
  getitem := wave_channel;
  from_wav := load |}.

Record Gauge : Type := {
  gauge_name : string;
  gauge_gain : Z }.

Definition lookup_metric (name : string) : Exc Gauge :=
  if String.eqb name "level" || String.eqb name "sharpness"
     || String.eqb name "faulty"
  then Ok {| gauge_name := name; gauge_gain := 1 |}
  else Raise ("Unknown metric: " +:+ name).

Definition set_options (g : Gauge) (c : MetricConfig) : Exc Gauge :=
  Ok {| gauge_name := gauge_name g;
        gauge_gain := default 1%Z (dict_get "gain" (options c)) |}.

Definition measure (g : Gauge) (w : Wave) : Exc (MetricResult Z) :=
  if String.eqb (gauge_name g) "faulty" && (wave_index w =? 2)%nat
  then Raise "faulty: computation failed"
  else Ok {| payload := (gauge_gain g * Z.of_nat (wave_index w))%Z;
             channel := None |}.

Definition metrics : @MetricLib signals :=
  @Build_MetricLib signals Gauge Z lookup_metric set_options measure.

Definition files : FileSystem := {|
  listdir := fun d =>
    if String.eqb d "rec"
    then Ok ["a.wav"; "notes.txt"; "bad.wav"; "b.wav"]
    else Raise "No such file or directory" |}.

(** A state manager whose file cannot be read: [is_processed] raises. *)
Definition UnreadableStore : StateStore := {|
  StateManager := unit;
  is_processed := fun _ _ => Raise "state file unreadable";
  mark_processed := fun s _ => (s, Ok ()) |}.

(** A state manager whose file cannot be written: [mark_processed]
    raises. *)
Definition ReadOnlyStore : StateStore := {|
  StateManager := unit;
  is_processed := fun _ _ => Ok false;
  mark_processed := fun s _ => (s, Raise "state file read-only") |}.

Definition metric_on : MetricConfig := {| enabled := None; options := [] |}.
Definition metric_off : MetricConfig :=
  {| enabled := Some false; options := [] |}.

Definition config_of (metrics : list (string * MetricConfig)) : Config :=
  {| cfg_segment_length := None; cfg_overlap := None;
     cfg_result_detail := None; cfg_force_reprocess := None;
     cfg_metrics := Some metrics |}.

Definition engine_of (metrics : list (string * MetricConfig))
    : ProcessingEngine :=
  {| processor := PsychoacousticProcessor_init (config_of metrics);
     max_workers := 4 |}.

Definition stereo : @BinauralSignal signals :=
  {| wave_path := "rec/a.wav"; wave_channels := 2; wave_index := 0 |}.

Definition faulty : @Metric signals metrics :=
  {| gauge_name := "faulty"; gauge_gain := 1 |}.

Definition level_only : list (string * MetricResult Z) :=
  [("channel_1", {| payload := 1%Z; channel := Some "channel_1" |});
   ("channel_2", {| payload := 2%Z; channel := Some "channel_2" |})].

Definition level_engine : ProcessingEngine := engine_of [("level", metric_on)].

Definition rec_files : list string := ["rec/a.wav"; "rec/bad.wav"; "rec/b.wav"].

Definition bad_entry : FileAnalysisResults Z :=
  {| file_path := "rec/bad.wav"; metric_results := [];
     errors := ["not a WAVE file"] |}.

End Demo.

(** * Survey data quality

    [likert_data_quality] of [soundscapy/surveys/processing.py], for a frame
    of float64 columns and bounds of [val_range] in the range of int64.  A
    value of the frame is a finite float64, which is a rational number, or
    [NaN] ([None]); a row is the values of its PAQ columns; the frame is its
    rows with their index labels, in order. *)

(** How numpy reads an integer where it computes in float64: the float64
    nearest to it, ties to the even mantissa of 53 bits.  For an integer
    of the range of int64 this is an integer again. *)
Definition float64 (n : Z) : Z :=
  let a := Z.abs n in
  let e := (Z.log2 a - 52)%Z in
  if (e <=? 0)%Z then n
  else
    let q := Z.shiftr a e in
    let r := Z.land a (Z.ones e) in
    let half := Z.shiftl 1 (e - 1) in
    let q' := if (r <? half)%Z then q
              else if (half <? r)%Z then (q + 1)%Z
              else if Z.even q then q else (q + 1)%Z in
    (Z.sgn n * Z.shiftl q' e)%Z.

Section Survey.
(** [return_paqs(df, incl_ids=False)] of [survey_utils], which is missing,
    is a parameter: from a data frame, the frame of its PAQ columns. *)
Context {DataFrame : Type}.
Variable return_paqs : DataFrame → Exc (list (Z * list (option Qc))).

(** [row.isna().any()] and [row.notna().all()] *)
Definition isna_any (row : list (option Qc)) : bool :=
  existsb (fun v => bool_decide (v = None)) row.

Definition notna_all (row : list (option Qc)) : bool :=
  forallb (fun v => bool_decide (v ≠ None)) row.

(** The values of a row that are not [NaN]. *)
Definition dropna (row : list (option Qc)) : list Qc := omap id row.

(** [row.min()] and [row.max()]: [NaN] ([None]) for a row without values. *)
Definition row_min (row : list (option Qc)) : option Qc :=
  foldr (fun v acc => Some match acc with
                           | None => v
                           | Some m => if decide (v ≤ m)%Qc then v else m
                           end) None (dropna row).

Definition row_max (row : list (option Qc)) : option Qc :=
  foldr (fun v acc => Some match acc with
                           | None => v
                           | Some m => if decide (m ≤ v)%Qc then v else m
                           end) None (dropna row).

(** Comparisons with [NaN] are false. *)
Definition nan_lt (x : option Qc) (y : Qc) : bool :=
  match x with Some x => bool_decide (x < y)%Qc | None => false end.

Definition nan_gt (x : option Qc) (y : Qc) : bool :=
  match x with Some x => bool_decide (y < x)%Qc | None => false end.

(** [row.nunique()] *)
Definition nunique (row : list (option Qc)) : nat :=
  length (remove_dups (dropna row)).

(** [np.mean(val_range)]: the two integers are read as float64, added in
    float64, and the sum is halved, which is exact. *)
Definition mean_range (val_range : Z * Z) : Qc :=
  (Qc_of_Z (float64 (float64 val_range.1 + float64 val_range.2))
   / Qc_of_Z 2)%Qc.

(** The body of the loop over the rows: whether the row's index is
    appended to [invalid_indices].  The comparison of a float64 of the row
    with [min(val_range)] or [max(val_range)] reads the integer as
    float64. *)
Definition row_invalid (allow_na : bool) (val_range : Z * Z)
    (row : list (option Qc)) : bool :=
  if negb allow_na && isna_any row then true
  else if notna_all row then
    if nan_lt (row_min row)
         (Qc_of_Z (float64 (Z.min val_range.1 val_range.2)))
       || nan_gt (row_max row)
            (Qc_of_Z (float64 (Z.max val_range.1 val_range.2)))
    then true
    else (nunique row =? 1)%nat
         && negb (bool_decide (head row = Some (Some (mean_range val_range))))
  else false.

Fixpoint flag_rows (allow_na : bool) (val_range : Z * Z)
    (paqs : list (Z * list (option Qc))) (invalid_indices : list Z)
    : list Z :=
  match paqs with
  | [] => invalid_indices
  | (i, row) :: rest =>
      flag_rows allow_na val_range rest
        (if row_invalid allow_na val_range row
         then invalid_indices ++ [i] else invalid_indices)
  end.

Definition likert_data_quality (df : DataFrame) (allow_na : bool)
    (val_range : Z * Z) : Exc (option (list Z)) :=
  paqs ← return_paqs df;
  let invalid_indices := flag_rows allow_na val_range paqs [] in
  match invalid_indices with
  | [] => Ok None
  | _ => Ok (Some invalid_indices)
  end.
End Survey.

(** * The process pool of [parallel_processing.py]

    [load_analyse_binaural] and [parallel_process] of
    [soundscapy/audio/parallel_processing.py].  The tasks of the pool run in
    processes of their own and share nothing, so a run is the order in which
    [as_completed] yields the futures: a list of positions among the futures
    not yet yielded, given as an argument; what it leaves is yielded in
    order. *)

(** What the two functions call: [Binaural.from_wav], its [recording]
    attribute and [calibrate_to], [process_all_metrics] and [add_results] of
    [soundscapy.audio.metrics], and [repr] of a key, which is the message of
    a [KeyError]. *)
Class AnalysisLib : Type := {
  Binaural : Type;
  Frame : Type;
  AnalysisSettings : Type;
  Level : Type;
  binaural_from_wav : string → Exc Binaural;
  recording : Binaural → string;
  calibrate_to : Binaural → Level * Level → Exc Binaural;
  process_all_metrics :
    Binaural → AnalysisSettings → bool → bool → Exc Frame;
  add_results : Frame → Frame → Exc Frame;
  repr : string → string }.

Section Pool.
Context `{AnalysisLib}.

(** [d[key]] *)
Definition getitem_dict {V} (d : gmap string V) (key : string) : Exc V :=
  match d !! key with
  | Some v => Ok v
  | None => Raise (repr key)
  end.

(** The handler logs the exception and raises it again. *)
Definition load_analyse_binaural (wav_file : string)
    (levels : gmap string (gmap string Level))
    (analysis_settings : AnalysisSettings) (verbose : bool)
    (parallel_mosqito : bool) : Exc Frame :=
  match
    b ← binaural_from_wav wav_file;
    left ← (of_recording ← getitem_dict levels (recording b);
            getitem_dict of_recording "Left");
    right ← (of_recording ← getitem_dict levels (recording b);
             getitem_dict of_recording "Right");
    b ← calibrate_to b (left, right);
    process_all_metrics b analysis_settings parallel_mosqito verbose
  with
  | Ok results => Ok results
  | Raise e => Raise e
  end.

(** The [try] of the loop over the futures: [results_df] after it. *)
Definition absorb (results_df : Frame) (future : Exc Frame) : Frame :=
  match future with
  | Ok result =>
      match add_results results_df result with
      | Ok results_df' => results_df'
      | Raise e => results_df
      end
  | Raise e => results_df
  end.

(** [for future in as_completed(futures)], with the count of the progress
    bar. *)
Fixpoint collect (order : list nat) (futures : list (Exc Frame))
    (results_df : Frame) (pbar : nat) : Frame * nat :=
  match order with
  | [] => (foldl absorb results_df futures, pbar + length futures)
  | k :: order =>
      match futures !! k with
      | None => collect order futures results_df pbar
      | Some future =>
          collect order (delete k futures) (absorb results_df future)
            (S pbar)
      end
  end.

(** What a call of [parallel_process] leaves: what it returned or raised,
    and the number of calls of [pbar.update(1)] if it made a progress
    bar. *)
Record PoolOutcome : Type := {
  pool_returned : Exc Frame;
  pbar_count : option nat }.

(** [ProcessPoolExecutor] takes [None] for a default number of workers and
    refuses a number that is not positive. *)
Definition parallel_process (order : list nat) (wav_files : list string)
    (results_df : Frame) (levels : gmap string (gmap string Level))
    (analysis_settings : AnalysisSettings) (verbose : bool)
    (max_workers : option Z) (parallel_mosqito : bool) : PoolOutcome :=
  if from_option (fun w => bool_decide (w ≤ 0)%Z) false max_workers then
    {| pool_returned := Raise "max_workers must be greater than 0";
       pbar_count := None |}
  else
    let futures :=
      (fun wav_file =>
         load_analyse_binaural wav_file levels analysis_settings verbose
           parallel_mosqito) <$> wav_files in
    let '(results_df, pbar) := collect order futures results_df 0 in
    {| pool_returned := Ok results_df; pbar_count := Some pbar |}.

(** Vocabulary of the statements: the frames of the files that were
    analysed, in the order of [wav_files], and [add_results] where an
    exception keeps the frame. *)
Definition analysed (wav_files : list string)
    (levels : gmap string (gmap string Level))
    (analysis_settings : AnalysisSettings) (verbose : bool)
    (parallel_mosqito : bool) : list Frame :=
  omap (fun wav_file =>
          match load_analyse_binaural wav_file levels analysis_settings
                  verbose parallel_mosqito with
          | Ok result => Some result
          | Raise _ => None
          end) wav_files.

Definition add_or_keep (results_df result : Frame) : Frame :=
  absorb results_df (Ok result).

(** The two levels that [load_analyse_binaural] reads for a recording. *)
Definition decibel (levels : gmap string (gmap string Level))
    (name : string) : option (Level * Level) :=
  of_recording ← levels !! name;
  l ← of_recording !! "Left";
  r ← of_recording !! "Right";
  Some (l, r).
End Pool.

(** More of the concrete world: a directory without recordings and an
    engine that reprocesses. *)

Module Fixtures.

Definition docs : FileSystem := {|
  listdir := fun d =>
    if String.eqb d "docs"
    then Ok ["readme.md"; "take.WAV"; "wav"]
    else Raise "No such file or directory" |}.

Definition forced_engine : ProcessingEngine :=
  {| processor :=
       PsychoacousticProcessor_init
         {| cfg_segment_length := None; cfg_overlap := None;
            cfg_result_detail := None; cfg_force_reprocess := Some true;
            cfg_metrics := Some [("level", Demo.metric_on)] |};
     max_workers := 2 |}.

(** The frame of the example in the docstring of [likert_data_quality]. *)
Definition z (n : Z) : option Qc := Some (Qc_of_Z n).

Definition likert_example : list (Z * list (option Qc)) :=
  [(0%Z, [None; z 3; z 2; z 1; z 5; z 3; z 4; z 2]);
   (1%Z, [z 2; z 2; z 2; z 2; z 2; z 2; z 2; z 2]);
   (2%Z, [z 3; z 6; z 3; z 3; z 3; z 3; z 3; z 3]);
   (3%Z, [z 3; z 3; z 3; z 3; z 3; z 3; z 3; z 3])].

(** A studio for [parallel_process]: a recording is its file name, the
    frame of a recording is the set of its name, [add_results] is the
    union, and [mute.wav] cannot be read. *)
Definition studio : AnalysisLib := {|
  Binaural := string;
  Frame := gset string;
  AnalysisSettings := unit;
  Level := Z;
  binaural_from_wav := fun wav_file =>
    if String.eqb wav_file "mute.wav" then Raise "not a WAV file"
    else Ok wav_file;
  recording := fun b => b;
  calibrate_to := fun b _ => Ok b;
  process_all_metrics := fun b _ _ _ => Ok {[ b ]};
  add_results := fun results_df result => Ok (results_df ∪ result);
  repr := fun key => "'" +:+ key +:+ "'" |}.

Definition studio_files : list string :=
  ["a.wav"; "mute.wav"; "b.wav"; "c.wav"].

(** No level for the right channel of [b.wav], none at all for
    [c.wav]. *)
Definition studio_levels : gmap string (gmap string Z) :=
  {[ "a.wav" := {[ "Left" := 60%Z; "Right" := 62%Z ]};
     "b.wav" := {[ "Left" := 70%Z ]};
     "mute.wav" := {[ "Left" := 50%Z; "Right" := 50%Z ]} ]}.

Definition studio_levels_full : gmap string (gmap string Z) :=
  {[ "a.wav" := {[ "Left" := 60%Z; "Right" := 62%Z ]};
     "b.wav" := {[ "Left" := 70%Z; "Right" := 71%Z ]};
     "c.wav" := {[ "Left" := 55%Z; "Right" := 54%Z ]} ]}.

(** Other levels with the same two levels for every recording that has
    both. *)
Definition studio_levels_other : gmap string (gmap string Z) :=
  {[ "a.wav" := {[ "Left" := 60%Z; "Right" := 62%Z; "Centre" := 1%Z ]};
     "b.wav" := ∅;
     "c.wav" := {[ "Right" := 54%Z ]} ]}.

(** The metrics of [Demo] on the store.  [new_object] builds a new result
    object at every call; [one_object] keeps one result object, which it
    fills and returns at every call. *)
Definition new_object (metric : @Metric Demo.signals Demo.metrics)
    (segment : @BinauralSignal Demo.signals)
    : StateExc (gmap nat (MetricResult Z)) nat :=
  fun h =>
    match Demo.measure metric segment with
    | Ok result => let r := fresh (dom h) in (<[r := result]> h, Ok r)
    | Raise e => (h, Raise e)
    end.

Definition one_object (metric : @Metric Demo.signals Demo.metrics)
    (segment : @BinauralSignal Demo.signals)
    : StateExc (gmap nat (MetricResult Z)) nat :=
  fun h =>
    match Demo.measure metric segment with
    | Ok result => (<[0%nat := result]> h, Ok 0%nat)
    | Raise e => (h, Raise e)
    end.

Definition level : @Metric Demo.signals Demo.metrics :=
  {| Demo.gauge_name := "level"; Demo.gauge_gain := 1 |}.

End Fixtures.

(** * Properties *)

(** ** Dictionaries *)

Section DictFacts.
Context {V : Type}.
Implicit Types (d : list (string * V)) (k : string) (v : V).

Lemma dict_get_set_eq k v d : dict_get k (dict_set k v d) = Some v.
Proof.
  induction d as [|[k' v'] d IH]; simpl.
  - by rewrite String.eqb_refl.
  - destruct (String.eqb k k') eqn:E; simpl.
    + by rewrite String.eqb_refl.
    + by rewrite E.
Qed.

Lemma dict_get_set_ne k k' v d :
  k ≠ k' → dict_get k' (dict_set k v d) = dict_get k' d.
Proof.
  intros Hne. induction d as [|[k0 v0] d IH]; simpl.
  - destruct (String.eqb_spec k' k); congruence.
  - destruct (String.eqb_spec k k0) as [->|Hk]; simpl.
    + destruct (String.eqb_spec k' k0); congruence.
    + destruct (String.eqb_spec k' k0); congruence.
Qed.

Lemma dict_get_Some_keys k v d : dict_get k d = Some v → k ∈@{list string} dict_keys d.
Proof.
  unfold dict_keys. induction d as [|[k' v'] d IH]; simpl; [done|].
  destruct (String.eqb_spec k k') as [->|Hk]; intros Hg.
  - apply list_elem_of_here.
  - apply list_elem_of_further. auto.
Qed.

Lemma dict_keys_get k d : k ∈@{list string} dict_keys d → is_Some (dict_get k d).
Proof.
  unfold dict_keys. induction d as [|[k' v'] d IH]; simpl; intros Hin.
  - by apply elem_of_nil in Hin.
  - destruct (String.eqb_spec k k') as [->|Hk]; [eauto|].
    apply elem_of_cons in Hin as [?|Hin]; [done|auto].
Qed.

Lemma dict_keys_set_fresh k v d :
  k ∉@{list string} dict_keys d →
  dict_keys (dict_set k v d) = dict_keys d ++ [k].
Proof.
  unfold dict_keys. induction d as [|[k' v'] d IH]; simpl; [done|].
  intros Hn. apply not_elem_of_cons in Hn as [Hne Hn].
  destruct (String.eqb_spec k k'); [done|]. simpl. f_equal. by apply IH.
Qed.

Lemma dict_get_set k k' v d :
  dict_get k' (dict_set k v d) = if String.eqb k k' then Some v else dict_get k' d.
Proof.
  destruct (String.eqb_spec k k') as [->|Hne].
  - apply dict_get_set_eq.
  - by apply dict_get_set_ne.
Qed.
End DictFacts.

(** ** Channel labels *)

Lemma channel_label_inj i j : channel_label i = channel_label j → i = j.
Proof.
  unfold channel_label. intros Heq.
  apply (inj (String.append _)), (inj pretty) in Heq. lia.
Qed.



Lemma channel_labels_NoDup (indices : list nat) :
  NoDup indices → NoDup (channel_label <$> indices).
Proof.
  intros Hnd. apply NoDup_fmap_2; [|done].
  intros i j. apply channel_label_inj.
Qed.

(** ** The channel and file processor *)

Section ProcessorFacts.
Context `{MetricLib}.
Implicit Types (self : PsychoacousticProcessor) (metric : Metric).
Implicit Types (audio_data : BinauralSignal) (m : Channels).

Lemma analyze_segments_Ok self metric segments acc results :
  analyze_segments self metric segments acc = Ok results →
  ∃ new, results = acc ++ new ∧
    Forall2 (fun s r => calculate metric s = Ok r) segments new.
Proof.
  revert acc. induction segments as [|s segments IH]; simpl; intros acc Hrun.
  - exists []. split; [|constructor]. rewrite app_nil_r. congruence.
  - unfold analyze_segment in Hrun.
    destruct (calculate metric s) as [r|e] eqn:Hs; simpl in Hrun; [|done].
    destruct (IH _ Hrun) as (new & -> & Hall).
    exists (r :: new). split; [by rewrite <- app_assoc|]. by constructor.
Qed.

Lemma _process_channel_eq self metric channel_data channel_name :
  _process_channel self metric channel_data channel_name =
  match calculate metric channel_data with
  | Ok result => Ok (set_channel result channel_name)
  | Raise e => Raise e
  end.
Proof.
  unfold _process_channel, reduce_segments, segment_signal. simpl.
  unfold analyze_segment.
  by destruct (calculate metric channel_data).
Qed.

Lemma process_sequential_keys self metric audio_data indices m m' :
  process_sequential self metric audio_data indices m = Ok m' →
  NoDup indices →
  (∀ i, i ∈ indices →
     channel_label i ∉@{list string} dict_keys (channel_results m)) →
  dict_keys (channel_results m') =
  dict_keys (channel_results m) ++ (channel_label <$> indices).
Proof.
  revert m. induction indices as [|i indices IH]; simpl; intros m Hrun Hnd Hfresh.
  - rewrite app_nil_r. congruence.
  - destruct (_process_channel _ _ _ _) as [r|e]; simpl in Hrun; [|done].
    apply NoDup_cons in Hnd as [Hi Hnd].
    assert (dict_keys (channel_results (add_channel_result (channel_label i) r m))
            = dict_keys (channel_results m) ++ [channel_label i]) as Hkeys.
    { simpl. apply dict_keys_set_fresh, Hfresh, list_elem_of_here. }
    rewrite (IH _ Hrun Hnd).
    + rewrite Hkeys, <- app_assoc. done.
    + intros j Hj. rewrite Hkeys. intros Hin.
      apply elem_of_app in Hin as [Hin|Hin].
      * by apply (Hfresh j); [apply list_elem_of_further|].
      * apply list_elem_of_singleton, channel_label_inj in Hin. by subst.
Qed.

Lemma process_sequential_Ok self metric audio_data indices m :
  (∀ i, i ∈ indices → ∃ r, calculate metric (getitem audio_data i) = Ok r) →
  ∃ m', process_sequential self metric audio_data indices m = Ok m'.
Proof.
  revert m. induction indices as [|i indices IH]; simpl; intros m Hall; [eauto|].
  rewrite _process_channel_eq.
  destruct (Hall i) as [r ->]; [apply list_elem_of_here|]. simpl.
  apply IH. intros j Hj. apply Hall. by apply list_elem_of_further.
Qed.

Lemma process_sequential_Raise self metric audio_data indices m i e :
  i ∈ indices → calculate metric (getitem audio_data i) = Raise e →
  ∃ e', process_sequential self metric audio_data indices m = Raise e'.
Proof.
  revert m. induction indices as [|j indices IH]; simpl; intros m Hi He.
  - by apply elem_of_nil in Hi.
  - rewrite _process_channel_eq.
    destruct (calculate metric (getitem audio_data j)) as [r|e0] eqn:Hj;
      simpl; [|eauto].
    apply elem_of_cons in Hi as [->|Hi]; [congruence|]. by apply IH.
Qed.

Lemma process_stereo_keys self metric audio_data m' :
  process_stereo self metric audio_data new_MultiChannelResult = Ok m' →
  dict_keys (channel_results m') = ["left"; "right"].
Proof.
  unfold process_stereo. rewrite !_process_channel_eq.
  destruct (calculate metric (sig_left _)); simpl; [|done].
  destruct (calculate metric (sig_right _)); simpl; [|done].
  by intros [= <-].
Qed.

Lemma process_stereo_Ok self metric audio_data m :
  (∃ r, calculate metric (sig_left audio_data) = Ok r) →
  (∃ r, calculate metric (sig_right audio_data) = Ok r) →
  ∃ m', process_stereo self metric audio_data m = Ok m'.
Proof.
  intros [l Hl] [r Hr]. unfold process_stereo.
  rewrite !_process_channel_eq, Hl, Hr. simpl. eauto.
Qed.

Lemma process_stereo_Raise self metric audio_data m s e :
  s ∈ [sig_left audio_data; sig_right audio_data] →
  calculate metric s = Raise e →
  ∃ e', process_stereo self metric audio_data m = Raise e'.
Proof.
  intros Hs He. unfold process_stereo. rewrite !_process_channel_eq.
  destruct (calculate metric (sig_left _)) as [l|el] eqn:Hl; simpl; [|eauto].
  destruct (calculate metric (sig_right _)) as [r|er] eqn:Hr; simpl; [|eauto].
  apply elem_of_cons in Hs as [->|Hs]; [congruence|].
  apply list_elem_of_singleton in Hs as ->. congruence.
Qed.

Lemma process_metric_keys self audio_data parallel metric_name metric_config m :
  process_metric self audio_data parallel metric_name metric_config = Ok m →
  dict_keys (channel_results m) = channel_labels parallel audio_data.
Proof.
  unfold process_metric, channel_labels.
  destruct (get_metric metric_name) as [metric|]; simpl; [|done].
  destruct (configure metric metric_config) as [metric'|]; simpl; [|done].
  destruct (parallel && (channels audio_data =? 2)%nat).
  - apply process_stereo_keys.
  - intros Hrun. apply process_sequential_keys in Hrun.
    + done.
    + apply NoDup_seq.
    + intros i _. simpl. apply not_elem_of_nil.
Qed.

Lemma process_metric_Ok self audio_data parallel item :
  metric_succeeds parallel audio_data item →
  ∃ m, process_metric self audio_data parallel item.1 item.2 = Ok m.
Proof.
  intros (metric & metric' & Hget & Hconf & Hcalc).
  unfold process_metric. rewrite Hget. simpl. rewrite Hconf. simpl.
  unfold channel_inputs in Hcalc.
  destruct (parallel && (channels audio_data =? 2)%nat).
  - apply process_stereo_Ok; apply Hcalc; set_solver.
  - apply process_sequential_Ok. intros i Hi. apply Hcalc.
    by apply list_elem_of_fmap_2.
Qed.

Lemma process_metric_Raise self audio_data parallel metric_name metric_config
    metric metric' s e :
  get_metric metric_name = Ok metric →
  configure metric metric_config = Ok metric' →
  s ∈ channel_inputs parallel audio_data →
  calculate metric' s = Raise e →
  ∃ e', process_metric self audio_data parallel metric_name metric_config
        = Raise e'.
Proof.
  intros Hget Hconf Hs He.
  unfold process_metric. rewrite Hget. simpl. rewrite Hconf. simpl.
  unfold channel_inputs in Hs.
  destruct (parallel && (channels audio_data =? 2)%nat).
  - by eapply process_stereo_Raise.
  - apply list_elem_of_fmap in Hs as (i & -> & Hi).
    by eapply process_sequential_Raise.
Qed.
End ProcessorFacts.

Section MetricLoopFacts.
Context `{MetricLib}.
Implicit Types (self : PsychoacousticProcessor).
Implicit Types (audio_data : BinauralSignal) (r : FileResults).
Implicit Types (items : list (string * MetricConfig)).

Lemma process_metrics_app self audio_data parallel items1 items2 r :
  process_metrics self audio_data parallel (items1 ++ items2) r =
  match process_metrics self audio_data parallel items1 r with
  | (r', Ok _) => process_metrics self audio_data parallel items2 r'
  | (r', Raise e) => (r', Raise e)
  end.
Proof.
  revert r. induction items1 as [|[name cfg] items1 IH]; simpl; intros r; [done|].
  destruct (default true (enabled cfg)); [|apply IH].
  destruct (process_metric _ _ _ _ _); [apply IH|done].
Qed.

Lemma process_metrics_errors self audio_data parallel items r :
  errors (process_metrics self audio_data parallel items r).1 = errors r ∧
  file_path (process_metrics self audio_data parallel items r).1 = file_path r.
Proof.
  revert r. induction items as [|[name cfg] items IH]; simpl; intros r; [done|].
  destruct (default true (enabled cfg)); [|apply IH].
  destruct (process_metric _ _ _ _ _) as [m|]; [|done].
  by destruct (IH (add_metric_result name m r)) as [-> ->].
Qed.

(** Whatever holds of the result of every metric holds of every entry the
    loop leaves in the file's results. *)
Lemma process_metrics_entries self audio_data parallel
    (P : Channels → Prop) items r :
  (∀ name cfg m,
     process_metric self audio_data parallel name cfg = Ok m → P m) →
  (∀ name m, dict_get name (metric_results r) = Some m → P m) →
  ∀ name m,
    dict_get name
      (metric_results (process_metrics self audio_data parallel items r).1)
    = Some m → P m.
Proof.
  intros Hmetric. revert r.
  induction items as [|[n cfg] items IH]; simpl; intros r Hr; [done|].
  destruct (default true (enabled cfg)); [|by apply IH].
  destruct (process_metric _ _ _ _ _) as [m0|] eqn:Hm0; [|done].
  apply IH. intros name m. simpl. rewrite dict_get_set.
  destruct (String.eqb n name); [|apply Hr].
  intros [= <-]. eauto.
Qed.

(** Only the metrics of the configuration get an entry. *)
Lemma process_metrics_names self audio_data parallel items r name :
  name ∈@{list string}
    dict_keys (metric_results
      (process_metrics self audio_data parallel items r).1) →
  name ∈@{list string} dict_keys (metric_results r) ∨ name ∈ items.*1.
Proof.
  revert r. induction items as [|[n cfg] items IH]; simpl; intros r Hin; [by left|].
  destruct (default true (enabled cfg)).
  - destruct (process_metric _ _ _ _ _) as [m0|] eqn:Hm0; [|by left].
    apply IH in Hin as [Hin|Hin].
    + simpl in Hin. destruct (decide (name = n)) as [->|Hne].
      * right. apply list_elem_of_here.
      * left. apply dict_keys_get in Hin as [m Hm].
        rewrite dict_get_set_ne in Hm by done.
        by apply dict_get_Some_keys in Hm.
    + right. by apply list_elem_of_further.
  - apply IH in Hin as [Hin|Hin]; [by left|]. right. by apply list_elem_of_further.
Qed.

(** When every enabled metric succeeds the loop ends normally and every
    enabled metric has its entry. *)
Lemma process_metrics_Ok self audio_data parallel items r :
  (∀ item, item ∈ items → is_enabled item = true →
     metric_succeeds parallel audio_data item) →
  (process_metrics self audio_data parallel items r).2 = Ok () ∧
  ∀ item, item ∈ items → is_enabled item = true →
    is_Some (dict_get item.1
      (metric_results (process_metrics self audio_data parallel items r).1)).
Proof.
  revert r. induction items as [|[n cfg] items IH] using rev_ind; intros r Hall.
  - split; [done|]. intros item Hitem. by apply elem_of_nil in Hitem.
  - rewrite process_metrics_app.
    destruct (IH r) as [Hok Hentries].
    { intros item Hitem. apply Hall, elem_of_app. by left. }
    destruct (process_metrics self audio_data parallel items r) as [r' res].
    simpl in Hok, Hentries. subst res. simpl.
    destruct (default true (enabled cfg)) eqn:Hen.
    + destruct (process_metric_Ok self audio_data parallel (n, cfg)) as [m Hm].
      { apply Hall; [|done]. apply elem_of_app. right. apply list_elem_of_here. }
      simpl in Hm. rewrite Hm. simpl. split; [done|].
      intros item Hitem Hitem_en. rewrite dict_get_set.
      destruct (String.eqb_spec n item.1) as [|Hne]; [eauto|].
      apply elem_of_app in Hitem as [Hitem|Hitem]; [by apply Hentries|].
      apply list_elem_of_singleton in Hitem as ->. done.
    + simpl. split; [done|].
      intros item Hitem Hitem_en.
      apply elem_of_app in Hitem as [Hitem|Hitem]; [by apply Hentries|].
      apply list_elem_of_singleton in Hitem as ->.
      unfold is_enabled in Hitem_en. simpl in Hitem_en. congruence.
Qed.

Lemma process_returns self audio_data parallel :
  process self audio_data parallel =
  Ok (process_metrics self audio_data parallel
        (default [] (cfg_metrics (config self)))
        (new_FileAnalysisResults (sig_file_path audio_data))).1.
Proof.
  unfold process.
  by destruct (process_metrics _ _ _ _ _) as [r [[]|e]].
Qed.

(** [process] never adds to the error list of the results it returns. *)
Lemma process_errors self audio_data parallel file_results :
  process self audio_data parallel = Ok file_results →
  errors file_results = [] ∧ file_path file_results = sig_file_path audio_data.
Proof.
  rewrite process_returns. intros [= <-]. apply process_metrics_errors.
Qed.
End MetricLoopFacts.

(** ** Result objects *)

Section DictRelation.
Context {A B : Type} (P : A → B → Prop).

Lemma dict_rel_set k a b d1 d2 :
  dict_rel P d1 d2 → P a b → dict_rel P (dict_set k a d1) (dict_set k b d2).
Proof.
  intros Hrel Hab.
  induction Hrel as [|[k1 a1] [k2 b2] d1 d2 [Hk HP] Htail IH]; simpl in *.
  - constructor; [done|constructor].
  - subst k2. destruct (String.eqb k k1); constructor; done.
Qed.

Lemma dict_rel_get_l k a d1 d2 :
  dict_rel P d1 d2 → dict_get k d1 = Some a →
  ∃ b, dict_get k d2 = Some b ∧ P a b.
Proof.
  intros Hrel. induction Hrel as [|[k1 a1] [k2 b2] d1 d2 [Hk HP] _ IH];
    simpl in *; [done|].
  subst k2. destruct (String.eqb k k1); [|done].
  intros [= ->]. eauto.
Qed.

Lemma dict_rel_get_r k b d1 d2 :
  dict_rel P d1 d2 → dict_get k d2 = Some b →
  ∃ a, dict_get k d1 = Some a ∧ P a b.
Proof.
  intros Hrel. induction Hrel as [|[k1 a1] [k2 b2] d1 d2 [Hk HP] _ IH];
    simpl in *; [done|].
  subst k2. destruct (String.eqb k k1); [|done].
  intros [= ->]. eauto.
Qed.

Lemma dict_rel_keys d1 d2 : dict_rel P d1 d2 → dict_keys d1 = dict_keys d2.
Proof.
  unfold dict_keys.
  induction 1 as [|[k1 a1] [k2 b2] d1 d2 [Hk HP] _ IH]; [done|].
  rewrite !fmap_cons. simpl in *. by rewrite Hk, IH.
Qed.
End DictRelation.

Section ByReferenceFacts.
Context `{MetricLib}.
Variable calculate_obj :
  Metric → BinauralSignal → StateExc ByReference.Store ByReference.Ref.
Implicit Types (self : PsychoacousticProcessor) (metric : Metric).
Implicit Types (h : ByReference.Store) (r : ByReference.Ref).

Lemma StateExc_bind_eq {S A B} (m : StateExc S A) (k : A → StateExc S B)
    (h : S) :
  (m ≫= k) h =
  match m h with
  | (h, Ok a) => k a h
  | (h, Raise msg) => (h, Raise msg)
  end.
Proof. done. Qed.

Lemma by_ref_analyze_segments_computed self metric segments h results h1 :
  ByReference.computed calculate_obj metric segments h results h1 →
  ∀ acc,
    ByReference.analyze_segments calculate_obj self metric segments acc h =
    (h1, Ok (acc ++ results)).
Proof.
  induction 1 as [h|s segments h r h1 results h2 Hcall _ IH]; intros acc;
    simpl.
  - by rewrite app_nil_r.
  - rewrite StateExc_bind_eq. unfold ByReference.analyze_segment.
    rewrite Hcall, IH. by rewrite <- app_assoc.
Qed.

Lemma by_ref_analyze_segments_raise
    self metric before segment after h results h1 h2 e :
  ByReference.computed calculate_obj metric before h results h1 →
  calculate_obj metric segment h1 = (h2, Raise e) →
  ∀ acc,
    ByReference.analyze_segments calculate_obj self metric
      (before ++ segment :: after) acc h = (h2, Raise e).
Proof.
  induction 1 as [h|s segments h r h1 results h3 Hcall _ IH];
    intros Hraise acc; simpl; rewrite StateExc_bind_eq;
    unfold ByReference.analyze_segment.
  - by rewrite Hraise.
  - rewrite Hcall. by apply IH.
Qed.

Lemma by_ref_first_result results channel_name h result obj :
  head results = Some result →
  h !! result = Some obj →
  ByReference.first_result results channel_name h =
  (<[result := {| payload := payload obj; channel := Some channel_name |}]> h,
   Ok result).
Proof.
  intros Hhead Hobj. unfold ByReference.first_result.
  rewrite <- head_lookup, Hhead, StateExc_bind_eq.
  unfold ByReference.setattr_channel. by rewrite Hobj.
Qed.

(** When every call of [calculate] returns a new object. *)

Lemma denotes_channels_weaken h h' m mv :
  h ⊆ h' → denotes_channels h m mv → denotes_channels h' m mv.
Proof.
  intros Hsub Hrel. eapply Forall2_impl; [exact Hrel|].
  intros [k r] [k' v] [Hk Hr]. split; [done|]. by eapply lookup_weaken.
Qed.

Lemma denotes_results_weaken h h' fr frv :
  h ⊆ h' → denotes_results h fr frv → denotes_results h' fr frv.
Proof.
  intros Hsub (Hpath & Herr & Hrel). split; [done|]. split; [done|].
  eapply Forall2_impl; [exact Hrel|]. intros [k m] [k' mv] [Hk Hm].
  split; [done|]. by eapply denotes_channels_weaken.
Qed.

Hypothesis Hnew : ByReference.returns_new_objects calculate_obj.

Lemma by_ref_analyze_segments_new self metric segments :
  ∀ acc accv h,
    ∃ h', h ⊆ h' ∧
      match analyze_segments self metric segments accv with
      | Ok resultsv =>
          ∃ new newv,
            resultsv = accv ++ newv ∧
            ByReference.analyze_segments calculate_obj self metric segments
              acc h = (h', Ok (acc ++ new)) ∧
            Forall2 (fun r v => h' !! r = Some v) new newv ∧
            Forall (fun r => h !! r = None) new
      | Raise e =>
          ByReference.analyze_segments calculate_obj self metric segments
            acc h = (h', Raise e)
      end.
Proof.
  induction segments as [|s segments IH]; intros acc accv h; simpl.
  - exists h. split; [done|]. exists [], [].
    by rewrite !app_nil_r.
  - rewrite StateExc_bind_eq.
    unfold analyze_segment, ByReference.analyze_segment.
    pose proof (Hnew metric s h) as Hcall.
    destruct (calculate metric s) as [v|e]; simpl.
    + destruct Hcall as (r & Hr & ->).
      destruct (IH (acc ++ [r]) (accv ++ [v]) (<[r := v]> h))
        as (h' & Hsub & Hrest).
      assert (h ⊆ <[r := v]> h) as Hsub1 by by apply insert_subseteq.
      exists h'. split; [by trans (<[r := v]> h)|].
      destruct (analyze_segments self metric segments (accv ++ [v]))
        as [resultsv|e]; [|done].
      destruct Hrest as (new & newv & -> & -> & Hall & Hfresh).
      exists (r :: new), (v :: newv).
      rewrite <- !app_assoc. split; [done|]. split; [done|]. split.
      * constructor; [|done]. eapply lookup_weaken; [|done].
        apply lookup_insert_eq.
      * constructor; [done|]. eapply Forall_impl; [done|].
        intros r' Hr'. simpl in Hr'.
        by apply (lookup_weaken_None h (<[r := v]> h)).
    + exists h. by rewrite Hcall.
Qed.

Lemma by_ref_reduce_segments_new self metric segments channel_name :
  returns_new (reduce_segments self metric segments channel_name)
    (ByReference.reduce_segments calculate_obj self metric segments
       channel_name).
Proof.
  intros h. unfold reduce_segments, ByReference.reduce_segments.
  rewrite StateExc_bind_eq.
  destruct (by_ref_analyze_segments_new self metric segments [] [] h)
    as (h1 & Hsub & Hrun).
  destruct (analyze_segments self metric segments []) as [resultsv|e];
    simpl; [|exists h1; by rewrite Hrun].
  destruct Hrun as (new & newv & -> & -> & Hall & Hfresh). simpl.
  destruct Hall as [|r v new newv Hr Hall]; simpl.
  - by exists h1.
  - apply Forall_cons in Hfresh as [Hr0 _].
    exists (<[r := set_channel v channel_name]> h1).
    split; [by apply insert_subseteq_r|].
    exists r. split; [|split; [apply lookup_insert_eq|done]].
    by rewrite (by_ref_first_result _ _ _ r v).
Qed.

Lemma by_ref_process_channel_new self metric channel_data channel_name :
  returns_new (_process_channel self metric channel_data channel_name)
    (ByReference._process_channel calculate_obj self metric channel_data
       channel_name).
Proof. apply by_ref_reduce_segments_new. Qed.

Lemma by_ref_process_sequential_new self metric audio_data indices :
  ∀ m mv h,
    denotes_channels h m mv →
    ∃ h', h ⊆ h' ∧
      match process_sequential self metric audio_data indices mv with
      | Ok mv' =>
          ∃ m',
            ByReference.process_sequential calculate_obj self metric
              audio_data indices m h = (h', Ok m') ∧
            denotes_channels h' m' mv'
      | Raise e =>
          ByReference.process_sequential calculate_obj self metric
            audio_data indices m h = (h', Raise e)
      end.
Proof.
  induction indices as [|i indices IH]; intros m mv h Hm; simpl.
  - exists h. split; [done|]. by exists m.
  - rewrite StateExc_bind_eq.
    destruct (by_ref_process_channel_new self metric (getitem audio_data i)
                (channel_label i) h) as (h1 & Hsub1 & Hcall).
    destruct (_process_channel self metric (getitem audio_data i)
                (channel_label i)) as [v|e]; simpl.
    + destruct Hcall as (r & -> & Hr & _).
      destruct (IH (ByReference.add_channel_result (channel_label i) r m)
                  (add_channel_result (channel_label i) v mv) h1)
        as (h' & Hsub & Hrest).
      { apply dict_rel_set; [|done]. by eapply denotes_channels_weaken. }
      exists h'. split; [by trans h1|done].
    + exists h1. by rewrite Hcall.
Qed.

(** The pool of two. *)
Lemma worker_ref_in metric h0 h channel_data channel_name w r :
  worker_inv metric h0 h channel_data channel_name w →
  worker_ref w = Some r → is_Some (h !! r).
Proof.
  destruct w as [d n|results n|[r'|e]]; simpl; [done| |..|done].
  - intros (_ & r' & raw & -> & _ & Hr & _) [= <-]. eauto.
  - intros (raw & _ & Hr & _) [= <-]. eauto.
Qed.

Lemma worker_inv_frame metric h0 h h' channel_data channel_name w :
  worker_inv metric h0 h channel_data channel_name w →
  (∀ r, worker_ref w = Some r → h' !! r = h !! r) →
  worker_inv metric h0 h' channel_data channel_name w.
Proof.
  destruct w as [d n|results n|[r'|e]]; simpl; [done| |..|done].
  - intros (Hn & r' & raw & -> & Hraw & Hr & Hr0) Hsame.
    split; [done|]. exists r', raw. by rewrite Hsame.
  - intros (raw & Hraw & Hr & Hr0) Hsame. exists raw. by rewrite Hsame.
Qed.

(** A step of a worker, with the other worker [w2] looking on. *)
Lemma work_inv self metric h0 h d n w d2 n2 w2 :
  h0 ⊆ h →
  worker_inv metric h0 h d n w →
  worker_inv metric h0 h d2 n2 w2 →
  (∀ r, worker_ref w = Some r → worker_ref w2 = Some r → False) →
  ∃ h' w',
    ByReference.work calculate_obj self metric w h = (h', w') ∧
    h0 ⊆ h' ∧
    worker_inv metric h0 h' d n w' ∧
    worker_inv metric h0 h' d2 n2 w2 ∧
    (∀ r, worker_ref w' = Some r → worker_ref w2 = Some r → False).
Proof.
  intros Hsub Hw Hw2 Hne.
  destruct w as [d' n'|results n'|future]; simpl in Hw.
  - destruct Hw as [-> ->]. simpl. rewrite StateExc_bind_eq.
    unfold ByReference.analyze_segment.
    pose proof (Hnew metric d h) as Hcall.
    destruct (calculate metric d) as [raw|e] eqn:Hraw.
    + destruct Hcall as (r & Hr & ->). simpl.
      eexists _, _. split; [done|].
      assert (h ⊆ <[r := raw]> h) as Hsub1 by by apply insert_subseteq.
      assert (∀ r2, worker_ref w2 = Some r2 → r ≠ r2) as Hfresh.
      { intros r2 Hr2 <-.
        destruct (worker_ref_in _ _ _ _ _ _ _ Hw2 Hr2) as [? ?].
        congruence. }
      split; [by trans h|]. split; [|split].
      * simpl. split; [done|]. exists r, raw.
        split; [done|]. split; [done|].
        split; [apply lookup_insert_eq|].
        by apply (lookup_weaken_None h0 h).
      * apply (worker_inv_frame _ _ h); [done|].
        intros r2 Hr2. apply lookup_insert_ne. by apply Hfresh.
      * simpl. intros r' [= <-] Hr2. by apply (Hfresh r).
    + rewrite Hcall. simpl. eexists _, _. split; [done|].
      split; [done|]. split; [done|]. split; [done|]. done.
  - destruct Hw as (-> & r & raw & -> & Hraw & Hr & Hr0). simpl.
    rewrite (by_ref_first_result _ _ _ r raw) by done.
    eexists _, _. split; [done|].
    split; [by apply insert_subseteq_r|]. split; [|split].
    + simpl. exists raw. split; [done|].
      split; [apply lookup_insert_eq|done].
    + apply (worker_inv_frame _ _ h); [done|].
      intros r2 Hr2. apply lookup_insert_ne. intros <-.
      by apply (Hne r).
    + simpl. intros r' [= <-]. by apply Hne.
  - simpl. exists h, (ByReference.Returned future). done.
Qed.

Lemma by_ref_finish_work self metric w h :
  ByReference.finish calculate_obj self metric w h =
  let '(h1, w1) := ByReference.work calculate_obj self metric w h in
  ByReference.finish calculate_obj self metric w1 h1.
Proof.
  destruct w as [d n|results n|future].
  - unfold ByReference.finish at 1. unfold ByReference.work.
    unfold ByReference._process_channel, ByReference.reduce_segments.
    rewrite StateExc_bind_eq.
    by destruct (ByReference.analyze_segments _ _ _ _ _ _)
      as [h1 [results|e]].
  - simpl. by destruct (ByReference.first_result results n h) as [h1 future].
  - done.
Qed.

(** Waiting for a worker. *)
Lemma finish_inv self metric h0 h d n w d2 n2 w2 :
  h0 ⊆ h →
  worker_inv metric h0 h d n w →
  worker_inv metric h0 h d2 n2 w2 →
  (∀ r, worker_ref w = Some r → worker_ref w2 = Some r → False) →
  ∃ h' future,
    ByReference.finish calculate_obj self metric w h = (h', future) ∧
    h0 ⊆ h' ∧
    worker_inv metric h0 h' d n (ByReference.Returned future) ∧
    worker_inv metric h0 h' d2 n2 w2 ∧
    (∀ r, worker_ref (ByReference.Returned future) = Some r →
          worker_ref w2 = Some r → False).
Proof.
  intros Hsub Hw Hw2 Hne.
  assert (∀ h w,
            h0 ⊆ h → worker_inv metric h0 h d n w →
            worker_inv metric h0 h d2 n2 w2 →
            (∀ r, worker_ref w = Some r → worker_ref w2 = Some r → False) →
            (∃ results n', w = ByReference.Computed results n') ∨
            (∃ future, w = ByReference.Returned future) →
            ∃ h' future,
              ByReference.finish calculate_obj self metric w h
                = (h', future) ∧
              h0 ⊆ h' ∧
              worker_inv metric h0 h' d n (ByReference.Returned future) ∧
              worker_inv metric h0 h' d2 n2 w2 ∧
              (∀ r, worker_ref (ByReference.Returned future) = Some r →
                    worker_ref w2 = Some r → False)) as Hlate.
  { clear h w Hsub Hw Hw2 Hne. intros h w Hsub Hw Hw2 Hne Hcase.
    destruct Hcase as [(results & n' & ->)|(future & ->)].
    - destruct (work_inv self metric h0 h d n _ d2 n2 w2 Hsub Hw Hw2 Hne)
        as (h' & w' & Hstep & Hsub' & Hw' & Hw2' & Hne').
      simpl in Hstep. simpl.
      destruct (ByReference.first_result results n' h) as [h1 future].
      injection Hstep as <- <-. by exists h1, future.
    - by exists h, future. }
  destruct w as [d' n'|results n'|future]; [|apply Hlate; eauto..].
  rewrite by_ref_finish_work.
  destruct (work_inv self metric h0 h d n _ d2 n2 w2 Hsub Hw Hw2 Hne)
    as (h' & w' & Hstep & Hsub' & Hw' & Hw2' & Hne').
  rewrite Hstep. apply Hlate; [done..|].
  simpl in Hstep. rewrite StateExc_bind_eq in Hstep.
  destruct (ByReference.analyze_segment _ _ _ _ _) as [h1 [r|e]];
    simpl in Hstep; injection Hstep as <- <-; eauto.
Qed.

Lemma run_pool_inv self metric h0 dl nl dr nr turns :
  ∀ h wl wr,
    h0 ⊆ h →
    worker_inv metric h0 h dl nl wl →
    worker_inv metric h0 h dr nr wr →
    (∀ r, worker_ref wl = Some r → worker_ref wr = Some r → False) →
    ∃ h' wl' wr',
      ByReference.run_pool calculate_obj self metric turns wl wr h
        = (h', (wl', wr')) ∧
      h0 ⊆ h' ∧
      worker_inv metric h0 h' dl nl wl' ∧
      worker_inv metric h0 h' dr nr wr' ∧
      (∀ r, worker_ref wl' = Some r → worker_ref wr' = Some r → False).
Proof.
  induction turns as [|[] turns IH]; intros h wl wr Hsub Hl Hr Hne; simpl.
  - by exists h, wl, wr.
  - destruct (work_inv self metric h0 h dl nl wl dr nr wr Hsub Hl Hr Hne)
      as (h' & wl' & -> & Hsub' & Hl' & Hr' & Hne').
    by apply IH.
  - destruct (work_inv self metric h0 h dr nr wr dl nl wl Hsub Hr Hl)
      as (h' & wr' & -> & Hsub' & Hr' & Hl' & Hne').
    { intros r ? ?. by apply (Hne r). }
    apply IH; [done..|]. intros r ? ?. by apply (Hne' r).
Qed.

Lemma by_ref_process_stereo_new self metric audio_data turns m mv h :
  denotes_channels h m mv →
  ∃ h', h ⊆ h' ∧
    match process_stereo self metric audio_data mv with
    | Ok mv' =>
        ∃ m',
          ByReference.process_stereo calculate_obj self metric audio_data
            turns m h = (h', Ok m') ∧
          denotes_channels h' m' mv'
    | Raise e =>
        ByReference.process_stereo calculate_obj self metric audio_data
          turns m h = (h', Raise e)
    end.
Proof.
  intros Hm. unfold ByReference.process_stereo, process_stereo.
  destruct (run_pool_inv self metric h (sig_left audio_data) "left"
              (sig_right audio_data) "right" turns h
              (ByReference.Submitted (sig_left audio_data) "left")
              (ByReference.Submitted (sig_right audio_data) "right"))
    as (h1 & wl & wr & -> & Hsub1 & Hl & Hr & Hne); [done..|].
  destruct (finish_inv self metric h h1 _ _ wl _ _ wr Hsub1 Hl Hr Hne)
    as (h2 & fl & -> & Hsub2 & Hl2 & Hr2 & Hne2).
  destruct (finish_inv self metric h h2 _ _ wr _ _ _ Hsub2 Hr2 Hl2)
    as (h3 & fr & -> & Hsub3 & Hr3 & Hl3 & Hne3).
  { intros r ? ?. by apply (Hne2 r). }
  exists h3. split; [done|].
  rewrite !_process_channel_eq.
  destruct fl as [l|el]; simpl in Hl3.
  - destruct Hl3 as (rawl & -> & Hrl & _). simpl.
    destruct fr as [r|er]; simpl in Hr3.
    + destruct Hr3 as (rawr & -> & Hrr & _). simpl.
      eexists. split; [done|].
      apply dict_rel_set; [|done]. apply dict_rel_set; [|done].
      by apply (denotes_channels_weaken h).
    + by rewrite Hr3.
  - by rewrite Hl3.
Qed.

Lemma by_ref_process_metric_new self audio_data parallel turns name cfg h :
  ∃ h', h ⊆ h' ∧
    match process_metric self audio_data parallel name cfg with
    | Ok mv =>
        ∃ m,
          ByReference.process_metric calculate_obj self audio_data parallel
            turns name cfg h = (h', Ok m) ∧
          denotes_channels h' m mv
    | Raise e =>
        ByReference.process_metric calculate_obj self audio_data parallel
          turns name cfg h = (h', Raise e)
    end.
Proof.
  unfold ByReference.process_metric, process_metric.
  rewrite !StateExc_bind_eq. unfold pure_call.
  destruct (get_metric name) as [metric|e]; simpl; [|by exists h].
  rewrite !StateExc_bind_eq.
  destruct (configure metric cfg) as [metric'|e]; simpl; [|by exists h].
  destruct (parallel && (channels audio_data =? 2)%nat).
  - apply by_ref_process_stereo_new. constructor.
  - apply by_ref_process_sequential_new. constructor.
Qed.

Lemma by_ref_process_metrics_new self audio_data parallel turns items :
  ∀ fr frv h,
    denotes_results h fr frv →
    ∃ h' fr',
      h ⊆ h' ∧
      ByReference.process_metrics calculate_obj self audio_data parallel
        turns items fr h =
      (h', (fr', (process_metrics self audio_data parallel items frv).2)) ∧
      denotes_results h' fr'
        (process_metrics self audio_data parallel items frv).1.
Proof.
  induction items as [|[name cfg] items IH]; intros fr frv h Hfr; simpl.
  - by exists h, fr.
  - destruct (default true (enabled cfg)); [|by apply IH].
    destruct (by_ref_process_metric_new self audio_data parallel
                (turns name) name cfg h) as (h1 & Hsub1 & Hrun).
    destruct (process_metric self audio_data parallel name cfg)
      as [mv|e].
    + destruct Hrun as (m & -> & Hm).
      destruct (IH (ByReference.add_metric_result name m fr)
                  (add_metric_result name mv frv) h1)
        as (h' & fr' & Hsub & -> & Hfr').
      { destruct (denotes_results_weaken h h1 fr frv Hsub1 Hfr)
          as (Hpath & Herr & Hrel).
        split; [done|]. split; [done|]. simpl. by apply dict_rel_set. }
      exists h', fr'. split; [by trans h1|done].
    + rewrite Hrun. exists h1, fr. split; [done|]. split; [done|].
      by apply (denotes_results_weaken h).
Qed.

(** With new objects, a result of the processor on the store denotes the
    result of the processor on values. *)
Lemma process_by_reference self audio_data parallel turns h :
  ∃ h' fr frv,
    ByReference.process calculate_obj self audio_data parallel turns h
      = (h', Ok fr) ∧
    process self audio_data parallel = Ok frv ∧
    denotes_results h' fr frv ∧
    h ⊆ h'.
Proof.
  unfold ByReference.process.
  destruct (by_ref_process_metrics_new self audio_data parallel turns
              (default [] (cfg_metrics (config self)))
              (ByReference.new_FileAnalysisResults (sig_file_path audio_data))
              (new_FileAnalysisResults (sig_file_path audio_data)) h)
    as (h' & fr & Hsub & -> & Hfr).
  { split; [done|]. split; [done|]. constructor. }
  rewrite process_returns.
  exists h', fr. eexists. split; [|done].
  by destruct (process_metrics self audio_data parallel _ _).2.
Qed.
End ByReferenceFacts.

(** ** The batch engine *)

Section EngineFacts.
Context `{MetricLib} `{!StateStore} `{!FileSystem}.
Implicit Types (self : ProcessingEngine) (r : Run) (schedule : list Event).

Lemma start_task_queued self k r f :
  queued r !! k = Some f →
  start_task self k r =
  {| queued := delete k (queued r);
     finished := finished r ++
       [(f, _process_file f (processor self) (store r) false)];
     results := results r; store := store r; tracker := tracker r |}.
Proof. unfold start_task. by intros ->. Qed.

Lemma start_task_idle self k r : queued r !! k = None → start_task self k r = r.
Proof. unfold start_task. by intros ->. Qed.

Lemma yield_future_finished k r f future :
  finished r !! k = Some (f, future) →
  yield_future k r =
  let '(d, s, p) :=
    handle_future f future (results r) (store r) (tracker r) in
  {| queued := queued r; finished := delete k (finished r);
     results := d; store := s; tracker := p |}.
Proof. unfold yield_future. by intros ->. Qed.

Lemma yield_future_idle k r : finished r !! k = None → yield_future k r = r.
Proof. unfold yield_future. by intros ->. Qed.

Lemma handle_future_tracker f future d s p :
  (handle_future f future d s p).2 = update p.
Proof.
  unfold handle_future.
  destruct future; [destruct (mark_processed s f) as [? []]|]; done.
Qed.

(** An invariant of the two moves of the scheduler holds after the whole
    [with] block. *)
Lemma steps_invariant self (I : Run → Prop) schedule r :
  (∀ k r, I r → I (start_task self k r)) →
  (∀ k r, I r → I (yield_future k r)) →
  I r → I (steps self schedule r).
Proof.
  intros Hstart Hyield. unfold steps. revert r.
  induction schedule as [|[k|k] schedule IH]; simpl; intros r Hr; auto.
Qed.

Lemma iter_invariant (I : Run → Prop) (f : Run → Run) n r :
  (∀ r, I r → I (f r)) → I r → I (Nat.iter n f r).
Proof. intros Hf Hr. induction n; simpl; auto. Qed.

Lemma join_invariant self (I : Run → Prop) r :
  (∀ k r, I r → I (start_task self k r)) →
  (∀ k r, I r → I (yield_future k r)) →
  I r → I (join self r).
Proof.
  intros Hstart Hyield Hr. unfold join.
  apply iter_invariant; [auto|]. apply iter_invariant; auto.
Qed.

Lemma run_invariant self (I : Run → Prop) schedule r :
  (∀ k r, I r → I (start_task self k r)) →
  (∀ k r, I r → I (yield_future k r)) →
  I r → I (join self (steps self schedule r)).
Proof. intros. by apply join_invariant, steps_invariant. Qed.

(** The join leaves no task and no future behind. *)
Lemma start_all_queued self n r :
  length (queued r) = n → queued (Nat.iter n (start_task self 0) r) = [].
Proof.
  revert r. induction n as [|n IH]; intros r Hlen.
  - simpl. by apply nil_length_inv.
  - rewrite Nat.iter_succ_r. apply IH.
    destruct (queued r) as [|f q] eqn:Hq; [done|].
    rewrite (start_task_queued _ _ _ f) by (by rewrite Hq).
    simpl. rewrite Hq. simpl in *. lia.
Qed.

Lemma yield_future_queued k r : queued (yield_future k r) = queued r.
Proof.
  unfold yield_future. destruct (finished r !! k) as [[f future]|]; [|done].
  by destruct (handle_future _ _ _ _ _) as [[d s] p].
Qed.

Lemma yield_all_finished n r :
  length (finished r) = n → finished (Nat.iter n (yield_future 0) r) = [].
Proof.
  revert r. induction n as [|n IH]; intros r Hlen.
  - simpl. by apply nil_length_inv.
  - rewrite Nat.iter_succ_r. apply IH.
    destruct (finished r) as [|[f future] q] eqn:Hq; [done|].
    rewrite (yield_future_finished _ _ f future) by (by rewrite Hq).
    destruct (handle_future _ _ _ _ _) as [[d s] p].
    simpl. rewrite Hq. simpl in *. lia.
Qed.

Lemma join_drained self r :
  queued (join self r) = [] ∧ finished (join self r) = [].
Proof.
  unfold join. split.
  - apply (iter_invariant (fun r => queued r = [])).
    + intros r' Hr'. by rewrite yield_future_queued.
    + by apply start_all_queued.
  - by apply yield_all_finished.
Qed.

(** The join is itself a schedule: the tasks left are started, then the
    futures left are yielded. *)
Lemma steps_app self schedule1 schedule2 r :
  steps self (schedule1 ++ schedule2) r =
  steps self schedule2 (steps self schedule1 r).
Proof. unfold steps. apply foldl_app. Qed.

Lemma steps_replicate self n e r :
  steps self (replicate n e) r = Nat.iter n (step self e) r.
Proof.
  revert r. induction n as [|n IH]; intros r; [done|].
  rewrite Nat.iter_succ_r. simpl. apply IH.
Qed.

Lemma join_as_steps self r :
  ∃ rest, join self r = steps self rest r.
Proof.
  exists (replicate (length (queued r)) (Start 0) ++
          replicate
            (length (finished
               (Nat.iter (length (queued r)) (start_task self 0) r)))
            (Yield 0)).
  by rewrite steps_app, !steps_replicate.
Qed.

Lemma process_directory_Ok schedule self directory_path state_manager files :
  eligible_files directory_path = Ok files →
  (0 < max_workers self)%Z →
  process_directory schedule self directory_path state_manager =
  let r :=
    join self (steps self schedule
      (submit_all files (new_DirectoryAnalysisResults directory_path)
         state_manager
         (new_ProgressTracker (length files) "Processing files"))) in
  {| returned := Ok (results r); state_after := store r;
     progress_after := Some (tracker r) |}.
Proof.
  intros Hfiles Hw. unfold process_directory. rewrite Hfiles.
  destruct (Z.leb_spec (max_workers self) 0); [lia|done].
Qed.
Lemma handle_future_lookup_ne g future d s p f :
  f ≠ g →
  file_results (handle_future g future d s p).1.1 !! f = file_results d !! f.
Proof.
  intros Hne. unfold handle_future.
  destruct future as [result|e]; [destruct (mark_processed s g) as [s' [[]|e]]|];
    simpl; by rewrite ?lookup_insert_ne.
Qed.

Lemma handle_future_lookup_eq g future d s p :
  file_results (handle_future g future d s p).1.1 !! g =
  Some match future with
       | Ok result =>
           match (mark_processed s g).2 with
           | Ok _ => result
           | Raise e => add_error e (new_FileAnalysisResults g)
           end
       | Raise e => add_error e (new_FileAnalysisResults g)
       end.
Proof.
  unfold handle_future.
  destruct future as [result|e]; [destruct (mark_processed s g) as [s' [[]|e]]|];
    simpl; by rewrite !lookup_insert_eq.
Qed.

Lemma handle_future_store g future d s p :
  (handle_future g future d s p).1.2 =
  match future with
  | Ok _ => (mark_processed s g).1
  | Raise _ => s
  end.
Proof.
  unfold handle_future.
  destruct future as [result|e]; [destruct (mark_processed s g) as [s' [[]|e]]|];
    done.
Qed.

(** A task raises only when [is_processed] does. *)
Lemma _process_file_Raise f processor s parallel_channels e :
  _process_file f processor s parallel_channels = Raise e →
  is_processed s f = Raise e.
Proof.
  unfold _process_file. destruct (is_processed s f) as [b|e']; simpl.
  - destruct (b && negb (force_reprocess processor)); [done|].
    by destruct (from_wav f ≫= _).
  - congruence.
Qed.

Lemma _process_file_cases f processor s :
  _process_file f processor s false =
  match is_processed s f with
  | Ok already =>
      if already && negb (force_reprocess processor)
      then Ok (new_FileAnalysisResults f)
      else Ok (dispatch_result processor f)
  | Raise e => Raise e
  end.
Proof.
  unfold _process_file, dispatch_result.
  destruct (is_processed s f) as [b|e]; simpl; [|done].
  destruct (b && negb (force_reprocess processor)); [done|].
  destruct (from_wav f) as [a|e]; simpl; [|done].
  by destruct (process processor a false).
Qed.


End EngineFacts.

(** Case analysis on a move of the scheduler: the position names a task (a
    finished future), or the move changes nothing and the goal is closed. *)
Ltac task_at k r f Hk :=
  destruct (queued r !! k) as [f|] eqn:Hk;
  [rewrite (start_task_queued _ k r f Hk)|by rewrite start_task_idle].

Ltac future_at k r f future Hk :=
  destruct (finished r !! k) as [[f future]|] eqn:Hk;
  [rewrite (yield_future_finished k r f future Hk)
  |by rewrite yield_future_idle].

Lemma elem_of_delete_cases {A} (l : list A) k x y :
  l !! k = Some y → x ∈ l → x = y ∨ x ∈ delete k l.
Proof.
  intros Hk Hx. rewrite (delete_Permutation l k y Hk) in Hx.
  by apply elem_of_cons in Hx.
Qed.

Section FileOutcome.
Context `{MetricLib} `{!StateStore} `{!FileSystem}.
Variable self : ProcessingEngine.
Variable f0 : string.
(** What is known of the state manager throughout the run. *)
Variable J : StateManager → Prop.
(** What the loop establishes for [f0] when it handles its future. *)
Variable G : DirResults → StateManager → Prop.

Hypothesis J_handle : ∀ g future d s p,
  J s → J (handle_future g future d s p).1.2.
Hypothesis G_own : ∀ s s' d p,
  J s → J s' →
  let out := handle_future f0
               (_process_file f0 (processor self) s false) d s' p in
  G out.1.1 out.1.2.
Hypothesis G_other : ∀ g future d s p,
  g ≠ f0 → J s → G d s →
  let out := handle_future g future d s p in G out.1.1 out.1.2.

Lemma outcome_inv_start k r :
  outcome_inv self f0 J G r → outcome_inv self f0 J G (start_task self k r).
Proof.
  intros (HJ & HA & HB).
  task_at k r f Hk. repeat split; simpl.
  - done.
  - intros future Hin. apply elem_of_app in Hin as [Hin|Hin]; [auto|].
    apply list_elem_of_singleton in Hin as [= <- ->]. eauto.
  - destruct HB as [Hq|[Hf|HG]].
    + destruct (elem_of_delete_cases _ _ _ _ Hk Hq) as [->|Hq']; [|by left].
      right; left. rewrite fmap_app. apply elem_of_app. right.
      apply list_elem_of_here.
    + right; left. rewrite fmap_app. apply elem_of_app. by left.
    + by right; right.
Qed.

Lemma outcome_inv_yield k r :
  outcome_inv self f0 J G r → outcome_inv self f0 J G (yield_future k r).
Proof.
  intros (HJ & HA & HB).
  future_at k r g future Hk.
  assert (g = f0 → G (handle_future g future (results r) (store r) (tracker r)).1.1
                     (handle_future g future (results r) (store r) (tracker r)).1.2)
    as Hown.
  { intros ->. destruct (HA future) as (s & Hs & ->).
    - by eapply list_elem_of_lookup_2.
    - by apply G_own. }
  pose proof (G_other g future (results r) (store r) (tracker r)) as Hother.
  pose proof (J_handle g future (results r) (store r) (tracker r) HJ) as HJ2.
  destruct (handle_future g future (results r) (store r) (tracker r))
    as [[d s] p]. simpl in *.
  repeat split; simpl.
  - done.
  - intros future' Hin. apply HA. by eapply list_elem_of_delete_inv.
  - destruct HB as [Hq|[Hf|HG]].
    + by left.
    + apply list_elem_of_fmap in Hf as ([f1 future1] & Hf1 & Hin).
      simpl in Hf1. subst f1.
      destruct (elem_of_delete_cases _ _ _ _ Hk Hin) as [[= <- <-]|Hin'].
      * right; right. by apply Hown.
      * right; left. apply list_elem_of_fmap. by exists (f0, future1).
    + right; right. destruct (decide (g = f0)); [by apply Hown|by apply Hother].
Qed.

(** Whatever order the pool and the loop take, a submitted file ends with
    what handling its own future establishes. *)
Lemma file_outcome schedule r :
  outcome_inv self f0 J G r →
  let r' := join self (steps self schedule r) in
  G (results r') (store r').
Proof.
  intros Hr. simpl.
  pose proof (run_invariant self (outcome_inv self f0 J G) schedule r
                outcome_inv_start outcome_inv_yield Hr) as (_ & _ & HB).
  destruct (join_drained self (steps self schedule r)) as [Hq Hf].
  rewrite Hq, Hf in HB.
  destruct HB as [HB|[HB|HB]]; [by apply elem_of_nil in HB..|done].
Qed.
End FileOutcome.

(** ** The files of a directory *)

Lemma path_join_inj directory : Inj (=) (=) (path_join directory).
Proof.
  intros f g. unfold path_join.
  destruct (String.eqb directory ""); [done|].
  destruct (endswith directory "/"); intros Heq.
  - by apply (inj (String.append _)) in Heq.
  - by apply (inj (String.append _)), (inj (String.append _)) in Heq.
Qed.

(** [os.listdir] gives every name once, so no file is submitted twice. *)
Lemma eligible_files_NoDup `{!FileSystem} directory_path names files :
  listdir directory_path = Ok names →
  NoDup names →
  eligible_files directory_path = Ok files →
  NoDup files.
Proof.
  unfold eligible_files. intros -> Hnd [= <-].
  apply (NoDup_fmap_2 (path_join directory_path) (Inj0:=path_join_inj _)).
  by apply NoDup_filter.
Qed.

(** * The claims *)

(** ** The channel processor and the file processor *)

Section ProcessorClaims.
Context `{MetricLib}.
Implicit Types (self : PsychoacousticProcessor) (metric : Metric).
Implicit Types (audio_data : BinauralSignal).

(** C10: [_process_channel] calls the metric's [calculate] once on each
    segment of the channel's signal, in order, and returns the object that
    the call on the first segment returned, after setting its [channel] to
    the channel's name; nothing else of that object changes, and no other
    object is changed by the assignment.  By default the segments are the
    one segment that is the whole signal: one call, on [channel_data].  An
    exception of a call leaves [_process_channel] as it is, and the later
    segments are not computed.  Stated on the store of result objects, for
    any [calculate]. *)
Theorem C10_process_channel_first_segment
    (calculate_obj :
       Metric → BinauralSignal → StateExc ByReference.Store ByReference.Ref)
    self metric channel_name :
  (∀ channel_data h,
     ByReference._process_channel calculate_obj self metric channel_data
       channel_name h =
     match calculate_obj metric channel_data h with
     | (h1, Ok result) =>
         match h1 !! result with
         | Some obj =>
             (<[result := {| payload := payload obj;
                             channel := Some channel_name |}]> h1,
              Ok result)
         | None =>
             (h1, Raise "'NoneType' object has no attribute 'channel'")
         end
     | (h1, Raise e) => (h1, Raise e)
     end) ∧
  (∀ segments h results h1 result obj,
     ByReference.computed calculate_obj metric segments h results h1 →
     head results = Some result →
     h1 !! result = Some obj →
     ByReference.reduce_segments calculate_obj self metric segments
       channel_name h =
     (<[result := {| payload := payload obj;
                     channel := Some channel_name |}]> h1,
      Ok result)) ∧
  (∀ before segment after h results h1 h2 e,
     ByReference.computed calculate_obj metric before h results h1 →
     calculate_obj metric segment h1 = (h2, Raise e) →
     ByReference.reduce_segments calculate_obj self metric
       (before ++ segment :: after) channel_name h = (h2, Raise e)).
Proof.
  split; [|split].
  - intros channel_data h.
    unfold ByReference._process_channel, ByReference.reduce_segments,
      segment_signal.
    rewrite StateExc_bind_eq. simpl. rewrite StateExc_bind_eq.
    unfold ByReference.analyze_segment.
    destruct (calculate_obj metric channel_data h) as [h1 [result|e]];
      [|done].
    simpl. unfold ByReference.first_result. simpl.
    rewrite StateExc_bind_eq. unfold ByReference.setattr_channel.
    by destruct (h1 !! result).
  - intros segments h results h1 result obj Hrun Hhead Hobj.
    unfold ByReference.reduce_segments. rewrite StateExc_bind_eq.
    rewrite (by_ref_analyze_segments_computed calculate_obj self metric
               segments h results h1 Hrun []).
    simpl. unfold ByReference.first_result.
    rewrite <- head_lookup, Hhead, StateExc_bind_eq.
    unfold ByReference.setattr_channel. by rewrite Hobj.
  - intros before segment after h results h1 h2 e Hrun Hraise.
    unfold ByReference.reduce_segments. rewrite StateExc_bind_eq.
    by rewrite (by_ref_analyze_segments_raise calculate_obj self metric
                  before segment after h results h1 h2 e Hrun Hraise []).
Qed.

(** C7: [process] always returns a [FileAnalysisResults]; every
    [MultiChannelResult] in it has the keys [left], [right], in this order,
    when [parallel] is set and the signal has two channels, and otherwise
    the keys [channel_1] to [channel_k] for a signal of [k] channels, in
    this order: the key at position [i], counted from 0, is [channel_]
    followed by the decimal digits of [i + 1].  When every enabled metric
    resolves, configures and computes, every enabled metric has its
    [MultiChannelResult]. *)
Theorem C7_channel_keys self audio_data parallel :
  ∃ file_results,
    process self audio_data parallel = Ok file_results ∧
    (∀ name m,
       dict_get name (metric_results file_results) = Some m →
       dict_keys (channel_results m) =
         if parallel && (channels audio_data =? 2)%nat
         then ["left"; "right"]
         else (fun i => "channel_" +:+ pretty (i + 1)) <$>
              seq 0 (channels audio_data)) ∧
    ((∀ item, item ∈ default [] (cfg_metrics (config self)) →
        is_enabled item = true → metric_succeeds parallel audio_data item) →
     ∀ item, item ∈ default [] (cfg_metrics (config self)) →
       is_enabled item = true →
       is_Some (dict_get item.1 (metric_results file_results))).
Proof.
  eexists. split; [apply process_returns|]. split.
  - apply process_metrics_entries; [|done].
    intros name cfg m Hm. by apply process_metric_keys in Hm.
  - intros Hall. by apply process_metrics_Ok.
Qed.

(** C6, as the code has it: an exception of a metric's computation on one
    channel, on the sequential path as on the stereo pool, ends the loop
    over the metrics.  [process] returns what the metrics before it left:
    neither this metric nor a later one is recorded. *)
Theorem C6_channel_failure_aborts_file self audio_data parallel
    before name cfg after metric metric' s e :
  cfg_metrics (config self) = Some (before ++ (name, cfg) :: after) →
  default true (enabled cfg) = true →
  get_metric name = Ok metric →
  configure metric cfg = Ok metric' →
  s ∈ channel_inputs parallel audio_data →
  calculate metric' s = Raise e →
  ∃ file_results,
    process self audio_data parallel = Ok file_results ∧
    file_results =
      (process_metrics self audio_data parallel before
         (new_FileAnalysisResults (sig_file_path audio_data))).1 ∧
    ∀ n, n ∈@{list string} dict_keys (metric_results file_results) →
      n ∈ before.*1.
Proof.
  intros Hcfg Hen Hget Hconf Hs He.
  eexists. split; [apply process_returns|].
  rewrite Hcfg. simpl. rewrite process_metrics_app.
  set (r0 := new_FileAnalysisResults (sig_file_path audio_data)).
  assert (∀ n, n ∈@{list string} dict_keys (metric_results
                 (process_metrics self audio_data parallel before r0).1) →
               n ∈ before.*1) as Hnames.
  { intros n Hn.
    destruct (process_metrics_names self audio_data parallel before r0 n Hn)
      as [Hnil|]; [by apply elem_of_nil in Hnil|done]. }
  destruct (process_metrics self audio_data parallel before r0)
    as [r [[]|e0]]; [|done].
  simpl. rewrite Hen.
  by destruct (process_metric_Raise self audio_data parallel name cfg
                 metric metric' s e Hget Hconf Hs He) as [e' ->].
Qed.
End ProcessorClaims.

Section ProcessorRuns.
Import Demo.
Local Existing Instance Demo.signals.
Local Existing Instance Demo.metrics.

(** C3: with the metrics [level], [loudness], [sharpness] configured in this
    order and no [loudness] in the registry, resolving the second metric
    raises.  [process] returns, with the result of [level] and without one
    for [sharpness], but the error list of what it returns is empty: the
    handler of [process] logs the exception and does not call
    [add_error]. *)
Theorem C3_unknown_metric_leaves_no_error :
  get_metric "loudness" = Raise "Unknown metric: loudness" ∧
  process
    (PsychoacousticProcessor_init
       (config_of [("level", metric_on); ("loudness", metric_on);
                   ("sharpness", metric_on)]))
    stereo false =
  Ok {| file_path := "rec/a.wav";
        metric_results := [("level", {| channel_results := level_only |})];
        errors := [] |}.
Proof. split; reflexivity. Qed.

(** C6 fails: on the sequential path, with [faulty] raising on the second
    channel of a stereo recording and [level] configured after it, nothing is
    recorded for [faulty], not even its first channel, and [level] is not
    computed. *)
Lemma C6_sequential_failure_not_isolated :
  calculate faulty (getitem stereo 1)
    = Raise "faulty: computation failed" ∧
  process
    (PsychoacousticProcessor_init
       (config_of [("faulty", metric_on); ("level", metric_on)]))
    stereo false =
  Ok {| file_path := "rec/a.wav"; metric_results := []; errors := [] |}.
Proof. split; reflexivity. Qed.

Lemma C6_witness :
  ∃ file_results,
    process
      (PsychoacousticProcessor_init
         (config_of [("level", metric_on); ("faulty", metric_on);
                     ("sharpness", metric_on)]))
      stereo false = Ok file_results ∧
    file_results =
      (process_metrics
         (PsychoacousticProcessor_init
            (config_of [("level", metric_on); ("faulty", metric_on);
                        ("sharpness", metric_on)]))
         stereo false [("level", metric_on)]
         (new_FileAnalysisResults "rec/a.wav")).1 ∧
    ∀ n, n ∈@{list string} dict_keys (metric_results file_results) →
      n ∈ [("level", metric_on)].*1.
Proof.
  apply (C6_channel_failure_aborts_file
           (PsychoacousticProcessor_init
              (config_of [("level", metric_on); ("faulty", metric_on);
                          ("sharpness", metric_on)]))
           stereo false [("level", metric_on)] "faulty" metric_on
           [("sharpness", metric_on)]
           faulty faulty
           (getitem stereo 1) "faulty: computation failed");
    try reflexivity.
  apply list_elem_of_further, list_elem_of_here.
Defined.

(** A stereo recording on the pool and on the sequential path. *)
Example process_stereo_pool :
  process (PsychoacousticProcessor_init (config_of [("level", metric_on)]))
    stereo true =
  Ok {| file_path := "rec/a.wav";
        metric_results :=
          [("level",
            {| channel_results :=
                 [("left", {| payload := 1%Z; channel := Some "left" |});
                  ("right", {| payload := 2%Z; channel := Some "right" |})] |})];
        errors := [] |}.
Proof. reflexivity. Qed.
(** A disabled metric is not resolved: no [loudness] is registered, and the
    loop goes on to [level]. *)
Example disabled_metric_is_skipped :
  process
    (PsychoacousticProcessor_init
       (config_of [("loudness", metric_off); ("level", metric_on)]))
    stereo false =
  Ok {| file_path := "rec/a.wav";
        metric_results := [("level", {| channel_results := level_only |})];
        errors := [] |}.
Proof. reflexivity. Qed.
End ProcessorRuns.

(** ** The batch engine, for any state manager *)

Section EngineClaims.
Context `{MetricLib} `{!StateStore} `{!FileSystem}.
Implicit Types (self : ProcessingEngine) (r : Run) (schedule : list Event).

Lemma progress_inv_start self n k r :
  progress_inv n r → progress_inv n (start_task self k r).
Proof.
  intros [Ht Hc]. task_at k r f Hk. split; simpl; [done|].
  rewrite length_app, length_delete by eauto. simpl.
  apply lookup_lt_Some in Hk. lia.
Qed.

Lemma progress_inv_yield n k r :
  progress_inv n r → progress_inv n (yield_future k r).
Proof.
  intros [Ht Hc]. future_at k r f future Hk.
  pose proof (handle_future_tracker f future (results r) (store r) (tracker r))
    as Hp.
  destruct (handle_future _ _ _ _ _) as [[d s] p]. simpl in *. subst p.
  split; simpl; [done|].
  rewrite length_delete by eauto. apply lookup_lt_Some in Hk. lia.
Qed.

Lemma step_tracker self e r :
  tracker (step self e r) = tracker r ∨
  tracker (step self e r) = update (tracker r).
Proof.
  destruct e as [k|k]; simpl.
  - left. unfold start_task. by destruct (queued r !! k).
  - destruct (finished r !! k) as [[f future]|] eqn:Hk;
      [|left; by rewrite yield_future_idle].
    right. rewrite (yield_future_finished _ _ f future Hk).
    pose proof (handle_future_tracker f future (results r) (store r)
                  (tracker r)) as Hp.
    by destruct (handle_future _ _ _ _ _) as [[d s] p].
Qed.

(** C8: the tracker is created with the number of eligible files as its
    total and a count of 0.  Yielding a future advances the count by one
    whatever the future holds (a skipped file, a result, an error); starting
    a task leaves it.  The whole run, join included, is a sequence of such
    moves; at every point of every such sequence the count is at most the
    total and a move leaves it or adds one to it; and when
    [process_directory] returns the count is the total. *)
Theorem C8_progress_counts_every_file
    schedule self directory_path state_manager files :
  eligible_files directory_path = Ok files →
  (0 < max_workers self)%Z →
  progress_after
    (process_directory schedule self directory_path state_manager) =
    Some {| total := length files; completed := length files;
            description := "Processing files" |} ∧
  completed (new_ProgressTracker (length files) "Processing files") = 0 ∧
  (∀ k r f future,
     finished r !! k = Some (f, future) →
     tracker (yield_future k r) = update (tracker r)) ∧
  (∀ k r, tracker (start_task self k r) = tracker r) ∧
  (∃ rest,
     progress_after
       (process_directory schedule self directory_path state_manager) =
     Some (tracker (steps self (schedule ++ rest)
             (submit_all files
                (new_DirectoryAnalysisResults directory_path)
                state_manager
                (new_ProgressTracker (length files) "Processing files"))))) ∧
  (∀ events e,
     let r := steps self events
                (submit_all files
                   (new_DirectoryAnalysisResults directory_path)
                   state_manager
                   (new_ProgressTracker (length files) "Processing files")) in
     total (tracker r) = length files ∧
     (completed (tracker r) ≤ length files)%nat ∧
     (completed (tracker (step self e r)) = completed (tracker r) ∨
      completed (tracker (step self e r)) = S (completed (tracker r)))).
Proof.
  intros Hfiles Hw.
  set (r0 := submit_all files (new_DirectoryAnalysisResults directory_path)
               state_manager
               (new_ProgressTracker (length files) "Processing files")).
  assert (progress_inv (length files) r0) as Hinit.
  { split; simpl; [done|lia]. }
  split; [|split; [done|split; [|split; [|split]]]].
  - rewrite (process_directory_Ok _ _ _ _ files) by done. fold r0. simpl.
    pose proof (run_invariant self (progress_inv (length files)) schedule r0
                  (progress_inv_start self _) (progress_inv_yield _) Hinit)
      as [Ht Hc].
    destruct (join_drained self (steps self schedule r0)) as [Hq Hf].
    rewrite Hq, Hf in Hc. simpl in Hc.
    assert (description (tracker (join self (steps self schedule r0)))
            = "Processing files") as Hd.
    { apply (run_invariant self
               (fun r => description (tracker r) = "Processing files")); [..|done].
      - intros k r Hr. unfold start_task. by destruct (queued r !! k).
      - intros k r Hr. destruct (step_tracker self (Yield k) r) as [Hs|Hs];
          simpl in Hs; by rewrite Hs. }
    destruct (tracker (join self (steps self schedule r0))) as [t c d].
    simpl in *. f_equal. f_equal; [done|lia|done].
  - intros k r f future Hk. rewrite (yield_future_finished _ _ f future Hk).
    pose proof (handle_future_tracker f future (results r) (store r)
                  (tracker r)) as Hp.
    by destruct (handle_future _ _ _ _ _) as [[d s] p].
  - intros k r. unfold start_task. by destruct (queued r !! k).
  - rewrite (process_directory_Ok _ _ _ _ files) by done. fold r0. simpl.
    destruct (join_as_steps self (steps self schedule r0)) as [rest Hrest].
    exists rest. by rewrite steps_app, Hrest.
  - intros events e r.
    pose proof (steps_invariant self (progress_inv (length files)) events r0
                  (progress_inv_start self _) (progress_inv_yield _) Hinit)
      as [Ht Hc].
    fold r0 in r. fold r in Ht, Hc.
    split; [done|]. split; [lia|].
    destruct (step_tracker self e r) as [->| ->]; [by left|by right].
Qed.





(** C4, as the code has it: an exception of the state manager for a file
    does not leave [process_directory].  When [is_processed] raises for the
    file, or [is_processed] answers and [mark_processed] raises for it, the
    call returns, and the file's entry in what it returns is a
    [FileAnalysisResults] with no metric result and the message of the
    exception as its only error. *)
Theorem C4_state_manager_errors_absorbed
    schedule self directory_path state_manager files f e :
  eligible_files directory_path = Ok files →
  (0 < max_workers self)%Z →
  f ∈ files →
  (∀ s, is_processed s f = Raise e) ∨
  ((∀ s, raises (is_processed s f) = false) ∧
   (∀ s, (mark_processed s f).2 = Raise e)) →
  ∃ d,
    returned (process_directory schedule self directory_path state_manager)
      = Ok d ∧
    file_results d !! f = Some (add_error e (new_FileAnalysisResults f)).
Proof.
  intros Hfiles Hw Hf Hraise.
  rewrite (process_directory_Ok _ _ _ _ files) by done. simpl.
  eexists. split; [done|].
  apply (file_outcome self f (fun _ => True)
           (fun d _ => file_results d !! f
                       = Some (add_error e (new_FileAnalysisResults f)))).
  - done.
  - intros s s' d p _ _. simpl. rewrite handle_future_lookup_eq. f_equal.
    destruct Hraise as [Hread|[Hread Hwrite]].
    + by rewrite _process_file_cases, Hread.
    + rewrite _process_file_cases. specialize (Hread s).
      destruct (is_processed s f) as [b|]; [|done].
      rewrite Hwrite. by destruct (b && negb (force_reprocess (processor self))).
  - intros g future d s p Hne _ Hd. simpl.
    by rewrite handle_future_lookup_ne.
  - split; [done|]. split; [intros ? Hin; by apply elem_of_nil in Hin|].
    by left.
Qed.
End EngineClaims.

(** ** The batch engine with the set of completed files as state manager *)

Section SetStoreClaims.
Context `{MetricLib} `{!FileSystem}.
Local Existing Instance SetStore.
Implicit Types (self : ProcessingEngine) (r : Run) (schedule : list Event).
Implicit Types (s : StateManager).

Lemma set_store_handle g future (d : DirResults) s p :
  (handle_future g future d s p).1.2 =
  match future with Ok _ => {[g]} ∪ s | Raise _ => s end.
Proof. rewrite handle_future_store. by destruct future. Qed.

Lemma set_store_task_Ok f processor s :
  _process_file f processor s false =
  if bool_decide (f ∈ s) && negb (force_reprocess processor)
  then Ok (new_FileAnalysisResults f)
  else Ok (dispatch_result processor f).
Proof. by rewrite _process_file_cases. Qed.

(** Every enumerated file is marked complete, whatever its task returned. *)
Lemma every_file_marked schedule self directory_path s files f :
  eligible_files directory_path = Ok files →
  (0 < max_workers self)%Z →
  f ∈ files →
  f ∈ state_after (process_directory schedule self directory_path s).
Proof.
  intros Hfiles Hw Hf.
  rewrite (process_directory_Ok _ _ _ _ files) by done. simpl.
  apply (file_outcome self f (fun _ => True) (fun _ s' => f ∈ s')).
  - done.
  - intros s1 s2 d p _ _. simpl. rewrite set_store_handle, set_store_task_Ok.
    destruct (_ && _); set_solver.
  - intros g future d s' p _ _ Hin. simpl. rewrite set_store_handle.
    destruct future; set_solver.
  - split; [done|]. split; [intros ? Hin; by apply elem_of_nil in Hin|].
    by left.
Qed.

(** C2, as the code has it: a file already marked complete, with
    [force_reprocess] false, is not loaded and no metric is computed for it,
    but it does get an entry in what [process_directory] returns: the empty
    [FileAnalysisResults] of the skip.  The file is still marked complete
    after the run, and no file marked complete before the run is unmarked. *)
Theorem C2_completed_file_gets_empty_entry
    schedule self directory_path s files f :
  eligible_files directory_path = Ok files →
  (0 < max_workers self)%Z →
  f ∈ files →
  f ∈ s →
  force_reprocess (processor self) = false →
  ∃ d,
    returned (process_directory schedule self directory_path s) = Ok d ∧
    file_results d !! f = Some (new_FileAnalysisResults f) ∧
    is_processed
      (state_after (process_directory schedule self directory_path s)) f
      = Ok true ∧
    s ⊆ state_after (process_directory schedule self directory_path s).
Proof.
  intros Hfiles Hw Hf Hs Hforce.
  rewrite (process_directory_Ok _ _ _ _ files) by done. simpl.
  eexists. split; [done|].
  cut (file_results (results (join self (steps self schedule
         (submit_all files (new_DirectoryAnalysisResults directory_path) s
            (new_ProgressTracker (length files) "Processing files")))))
         !! f = Some (new_FileAnalysisResults f) ∧
       s ⊆ store (join self (steps self schedule
         (submit_all files (new_DirectoryAnalysisResults directory_path) s
            (new_ProgressTracker (length files) "Processing files"))))).
  { intros [Hentry Hsub]. repeat split; [done| |done].
    f_equal. apply bool_decide_eq_true. set_solver. }
  apply (file_outcome self f (fun s' => s ⊆ s')
           (fun d s' => file_results d !! f = Some (new_FileAnalysisResults f)
                        ∧ s ⊆ s')).
  - intros g future d s' p Hsub. rewrite set_store_handle.
    destruct future; set_solver.
  - intros s1 s2 d p Hs1 Hs2. cbv beta zeta.
    rewrite handle_future_lookup_eq, set_store_handle, set_store_task_Ok.
    rewrite Hforce, bool_decide_eq_true_2 by set_solver. simpl.
    split; [done|set_solver].
  - intros g future d s' p Hne Hsub [Hentry _]. cbv beta zeta.
    rewrite handle_future_lookup_ne, set_store_handle by done.
    split; [done|]. destruct future; set_solver.
  - split; [done|]. split; [intros ? Hin; by apply elem_of_nil in Hin|].
    by left.
Qed.

Lemma batch_inv_start self files s0 k r :
  force_reprocess (processor self) = true ∨ (∀ f, f ∈ files → f ∉ s0) →
  batch_inv self files s0 r → batch_inv self files s0 (start_task self k r).
Proof.
  intros Hfresh (Hnd & Hst & Hfin & Hres & Hall).
  task_at k r g Hk.
  pose proof (delete_Permutation _ _ _ Hk) as Hperm.
  assert (∀ f, f ∈ queued r ↔ f = g ∨ f ∈ delete k (queued r)) as Hq.
  { intros f. by rewrite Hperm at 1; rewrite elem_of_cons. }
  rewrite Hperm in Hnd. simpl in Hnd. apply NoDup_cons in Hnd as [Hg Hnd].
  repeat split; simpl.
  - rewrite fmap_app, app_assoc. simpl.
    apply NoDup_app. split; [done|]. split; [|apply NoDup_singleton].
    intros f Hf ->%list_elem_of_singleton. done.
  - intros f Hf. destruct (Hst f Hf) as [?|[Hnq Hnf]]; [by left|right].
    rewrite Hq in Hnq. rewrite fmap_app, elem_of_app. simpl.
    rewrite list_elem_of_singleton. tauto.
  - intros f future Hin. apply elem_of_app in Hin as [Hin|Hin]; [auto|].
    apply list_elem_of_singleton in Hin as [= -> ->].
    rewrite set_store_task_Ok.
    destruct (negb (force_reprocess (processor self))) eqn:Hforce;
      [|by rewrite andb_false_r].
    rewrite bool_decide_eq_false_2; [done|]. intros Hin.
    destruct Hfresh as [Hfresh|Hfresh]; [by rewrite Hfresh in Hforce|].
    destruct (Hst g Hin) as [Hs0|[Hnq _]].
    + apply (Hfresh g); [|done]. apply Hall. left. apply Hq. by left.
    + apply Hnq, Hq. by left.
  - done.
  - intros Hf. apply Hall in Hf as [Hf|[Hf|Hf]].
    + apply Hq in Hf as [->|Hf]; [|by left].
      right; left. rewrite fmap_app, elem_of_app. right. apply list_elem_of_here.
    + right; left. rewrite fmap_app, elem_of_app. by left.
    + tauto.
  - intros [Hf|[Hf|Hf]]; apply Hall.
    + left. apply Hq. by right.
    + rewrite fmap_app, elem_of_app in Hf. destruct Hf as [Hf|Hf]; [tauto|].
      apply list_elem_of_singleton in Hf as ->. left. apply Hq. by left.
    + tauto.
Qed.

Lemma batch_inv_yield self files s0 k r :
  batch_inv self files s0 r → batch_inv self files s0 (yield_future k r).
Proof.
  intros (Hnd & Hst & Hfin & Hres & Hall).
  destruct (finished r !! k) as [[g future]|] eqn:Hk;
    [|by rewrite yield_future_idle].
  assert (future = Ok (dispatch_result (processor self) g)) as ->.
  { apply Hfin. by eapply list_elem_of_lookup_2. }
  rewrite (yield_future_finished _ _ g _ Hk).
  pose proof (handle_future_lookup_eq g
                (Ok (dispatch_result (processor self) g)) (results r)
                (store r) (tracker r)) as Heq.
  pose proof (fun f => handle_future_lookup_ne g
                         (Ok (dispatch_result (processor self) g))
                         (results r) (store r) (tracker r) f) as Hne.
  pose proof (set_store_handle g (Ok (dispatch_result (processor self) g))
                (results r) (store r) (tracker r)) as Hstore.
  destruct (handle_future _ _ _ _ _) as [[d s] p].
  cbn [fst snd] in Heq, Hne, Hstore. subst s.
  pose proof (delete_Permutation _ _ _ Hk) as Hperm.
  assert (∀ f, f ∈ (finished r).*1 ↔ f = g ∨ f ∈ (delete k (finished r)).*1)
    as Hf1.
  { intros f. by rewrite Hperm at 1; rewrite fmap_cons, elem_of_cons. }
  rewrite Hperm, fmap_cons in Hnd. simpl in Hnd.
  rewrite <- Permutation_middle in Hnd. apply NoDup_cons in Hnd as [Hg Hnd].
  rewrite elem_of_app in Hg.
  repeat split; cbn [queued finished results store tracker].
  - done.
  - intros f Hf. apply elem_of_union in Hf as [->%elem_of_singleton|Hf].
    + right. tauto.
    + destruct (Hst f Hf) as [?|[Hnq Hnf]]; [by left|right].
      rewrite Hf1 in Hnf. tauto.
  - intros f future' Hin. apply Hfin. by eapply list_elem_of_delete_inv.
  - intros f fr Hf. destruct (decide (f = g)) as [->|Hfg].
    + rewrite Heq in Hf. by injection Hf as <-.
    + rewrite Hne in Hf by done. auto.
  - intros Hf. apply Hall in Hf as [Hf|[Hf|Hf]]; [tauto| |].
    + apply Hf1 in Hf as [->|Hf]; [|tauto]. right; right. by rewrite Heq.
    + right; right. destruct (decide (f = g)) as [->|Hfg]; [by rewrite Heq|].
      by rewrite Hne.
  - intros [Hf|[Hf|Hf]]; apply Hall; [tauto| |].
    + right; left. apply Hf1. tauto.
    + destruct (decide (f = g)) as [->|Hfg].
      * right; left. apply Hf1. tauto.
      * rewrite Hne in Hf by done. tauto.
Qed.

(** In a batch of distinct files of which none is skipped, every file ends
    with the entry its task computed. *)
Lemma fresh_batch_entries schedule self directory_path (s : StateManager) files :
  eligible_files directory_path = Ok files →
  NoDup files →
  (0 < max_workers self)%Z →
  force_reprocess (processor self) = true ∨ (∀ f, f ∈ files → f ∉ s) →
  ∃ d,
    returned (process_directory schedule self directory_path s) = Ok d ∧
    size (file_results d) = length files ∧
    ∀ f, f ∈ files →
      file_results d !! f = Some (dispatch_result (processor self) f).
Proof.
  intros Hfiles Hnd Hw Hfresh.
  rewrite (process_directory_Ok _ _ _ _ files) by done. cbv zeta.
  set (r0 := submit_all files (new_DirectoryAnalysisResults directory_path) s
               (new_ProgressTracker (length files) "Processing files")).
  assert (batch_inv self files s r0) as Hinit.
  { repeat split; simpl.
    - by rewrite app_nil_r.
    - intros f Hf. by left.
    - intros f future Hin. by apply elem_of_nil in Hin.
    - intros f fr Hin. by rewrite lookup_empty in Hin.
    - intros Hf. by left.
    - intros [Hf|[Hf|Hf]]; [done|by apply elem_of_nil in Hf|].
      rewrite lookup_empty in Hf. by destruct Hf. }
  pose proof (run_invariant self (batch_inv self files s) schedule r0
                (fun k r => batch_inv_start self files s k r Hfresh)
                (batch_inv_yield self files s) Hinit)
    as (_ & _ & _ & Hres & Hall).
  destruct (join_drained self (steps self schedule r0)) as [Hq Hf].
  rewrite Hq, Hf in Hall.
  set (d := results (join self (steps self schedule r0))) in *.
  exists d. split; [done|]. split.
  - rewrite <- (size_dom (D:=gset string)).
    assert (dom (file_results d) =@{gset string} list_to_set files) as ->.
    { apply set_eq. intros f. rewrite elem_of_dom, elem_of_list_to_set, Hall.
      split; [tauto|]. intros [Hin|[Hin|Hin]]; [by apply elem_of_nil in Hin..|done]. }
    by apply size_list_to_set.
  - intros f Hin. apply Hall in Hin as [Hin|[Hin|[fr Hfr]]];
      [by apply elem_of_nil in Hin..|].
    by rewrite Hfr, (Hres f fr Hfr).
Qed.

(** C5: a batch of N distinct files, none of them skipped, in which the load
    of exactly one file fails and, for every other file, the load and every
    enabled metric succeed.  [process_directory] returns (it does not
    raise) results with exactly N entries.  The entry of the file whose load
    failed has no metric result and the load's error as its only error; the
    entry of every other file is what [process] returned for its recording,
    with no error and a result for every enabled metric. *)
Theorem C5_one_failed_load_is_isolated
    schedule self directory_path (s : StateManager) files bad e :
  eligible_files directory_path = Ok files →
  NoDup files →
  (0 < max_workers self)%Z →
  force_reprocess (processor self) = true ∨ (∀ f, f ∈ files → f ∉ s) →
  bad ∈ files →
  from_wav bad = Raise e →
  (∀ f, f ∈ files → f ≠ bad →
     ∃ audio_data,
       from_wav f = Ok audio_data ∧
       ∀ item, item ∈ default [] (cfg_metrics (config (processor self))) →
         is_enabled item = true → metric_succeeds false audio_data item) →
  ∃ d,
    returned (process_directory schedule self directory_path s) = Ok d ∧
    size (file_results d) = length files ∧
    file_results d !! bad = Some (add_error e (new_FileAnalysisResults bad)) ∧
    ∀ f, f ∈ files → f ≠ bad →
      ∃ audio_data fr,
        from_wav f = Ok audio_data ∧
        file_results d !! f = Some fr ∧
        process (processor self) audio_data false = Ok fr ∧
        errors fr = [] ∧
        ∀ item, item ∈ default [] (cfg_metrics (config (processor self))) →
          is_enabled item = true →
          is_Some (dict_get item.1 (metric_results fr)).
Proof.
  intros Hfiles Hnd Hw Hfresh Hbad Hload Hothers.
  destruct (fresh_batch_entries schedule self directory_path s files)
    as (d & Hd & Hsize & Hentry); [done..|].
  exists d. split; [done|]. split; [done|]. split.
  - rewrite (Hentry bad Hbad). unfold dispatch_result. by rewrite Hload.
  - intros f Hin Hne. destruct (Hothers f Hin Hne) as (a & Ha & Hmetrics).
    pose proof (process_returns (processor self) a false) as Hfr.
    eexists a, _. split; [done|]. split.
    { rewrite (Hentry f Hin). unfold dispatch_result. by rewrite Ha, Hfr. }
    split; [done|]. split; [by apply process_errors in Hfr as [? _]|].
    by apply process_metrics_Ok.
Qed.
End SetStoreClaims.

(** ** Runs on the concrete world *)

Section BatchRuns.
Import Demo.
Local Existing Instance Demo.signals.
Local Existing Instance Demo.metrics.
Local Existing Instance Demo.files.

(** C1: the load of [rec/bad.wav] fails.  Under every schedule, on a state
    manager with nothing marked, the entry of the file in what
    [process_directory] returns holds the load's error and nothing else, and
    the file is marked complete after the run: [_process_file] turns the
    exception into a result, and the loop marks every file whose future
    holds a result. *)
Theorem C1_failed_load_is_marked_complete schedule :
  from_wav "rec/bad.wav" = Raise "not a WAVE file" ∧
  (∃ d,
     returned (@process_directory _ _ SetStore _ schedule level_engine "rec" ∅)
       = Ok d ∧
     file_results d !! "rec/bad.wav" = Some bad_entry) ∧
  is_processed
    (state_after
       (@process_directory _ _ SetStore _ schedule level_engine "rec" ∅))
    "rec/bad.wav" = Ok true.
Proof.
  split; [reflexivity|]. split.
  - destruct (@fresh_batch_entries _ _ _ schedule level_engine "rec" ∅ rec_files)
      as (d & Hd & _ & Hentry).
    + reflexivity.
    + by compute_done.
    + done.
    + right. intros f _. apply not_elem_of_empty.
    + exists d. split; [done|]. apply (Hentry "rec/bad.wav").
      by compute_done.
  - pose proof (@every_file_marked _ _ _ schedule level_engine "rec" ∅
                  rec_files "rec/bad.wav") as Hin.
    change (Ok (bool_decide
                  ("rec/bad.wav" ∈
                   state_after (@process_directory _ _ SetStore _ schedule
                                  level_engine "rec" ∅))) = Ok true).
    rewrite bool_decide_eq_true_2; [done|].
    apply Hin; [reflexivity|done|by compute_done].
Qed.

(** C2 fails: [rec/a.wav] is marked complete and [force_reprocess] is false,
    and what [process_directory] returns has an entry for it. *)
Lemma C2_skipped_file_has_entry :
  is_processed (StateStore := SetStore) {["rec/a.wav"]} "rec/a.wav" = Ok true ∧
  force_reprocess (processor level_engine) = false ∧
  ∃ d,
    returned (@process_directory _ _ SetStore _ [] level_engine "rec"
                {["rec/a.wav"]}) = Ok d ∧
    file_results d !! "rec/a.wav" = Some (new_FileAnalysisResults "rec/a.wav").
Proof.
  split; [by vm_compute|]. split; [reflexivity|].
  eexists. split; [reflexivity|]. by vm_compute.
Qed.

Lemma C2_witness :
  ∃ d,
    returned (@process_directory _ _ SetStore _ [Start 1; Yield 0; Start 0]
                level_engine "rec" {["rec/a.wav"]}) = Ok d ∧
    file_results d !! "rec/a.wav" = Some (new_FileAnalysisResults "rec/a.wav") ∧
    is_processed (StateStore := SetStore)
      (state_after (@process_directory _ _ SetStore _
                      [Start 1; Yield 0; Start 0] level_engine "rec"
                      {["rec/a.wav"]}))
      "rec/a.wav" = Ok true ∧
    {["rec/a.wav"]} ⊆
      state_after (@process_directory _ _ SetStore _
                     [Start 1; Yield 0; Start 0] level_engine "rec"
                     {["rec/a.wav"]}).
Proof.
  apply (@C2_completed_file_gets_empty_entry _ _ _ [Start 1; Yield 0; Start 0]
           level_engine "rec" {["rec/a.wav"]} rec_files "rec/a.wav").
  - reflexivity.
  - reflexivity.
  - apply list_elem_of_here.
  - by apply elem_of_singleton.
  - reflexivity.
Defined.

(** C4 fails: with a state manager whose [is_processed] raises,
    [process_directory] returns instead of raising, and the exception is in
    the result tree, as the only error of the file's entry. *)
Lemma C4_unreadable_store_does_not_raise :
  is_processed (StateStore := UnreadableStore) () "rec/a.wav"
    = Raise "state file unreadable" ∧
  raises (returned (@process_directory _ _ UnreadableStore _ [] level_engine
                      "rec" ())) = false ∧
  ∃ d,
    returned (@process_directory _ _ UnreadableStore _ [] level_engine
                "rec" ()) = Ok d ∧
    file_results d !! "rec/a.wav" =
      Some {| file_path := "rec/a.wav"; metric_results := [];
              errors := ["state file unreadable"] |}.
Proof.
  split; [reflexivity|]. split; [reflexivity|].
  eexists. split; [reflexivity|]. by vm_compute.
Qed.

Lemma C4_witness :
  ∃ d,
    returned (@process_directory _ _ ReadOnlyStore _ [Start 0; Start 0]
                level_engine "rec" ()) = Ok d ∧
    file_results d !! "rec/b.wav" =
      Some (add_error "state file read-only"
              (new_FileAnalysisResults "rec/b.wav")).
Proof.
  apply (@C4_state_manager_errors_absorbed _ _ ReadOnlyStore _
           [Start 0; Start 0] level_engine "rec" () rec_files "rec/b.wav"
           "state file read-only").
  - reflexivity.
  - reflexivity.
  - apply list_elem_of_further, list_elem_of_further, list_elem_of_here.
  - right. split; intros s; reflexivity.
Defined.

Lemma level_succeeds audio_data :
  metric_succeeds false audio_data ("level", metric_on).
Proof.
  exists {| gauge_name := "level"; gauge_gain := 1 |},
         {| gauge_name := "level"; gauge_gain := 1 |}.
  split; [reflexivity|]. split; [reflexivity|].
  intros s _. eexists. reflexivity.
Defined.

Lemma C5_witness :
  ∃ d,
    returned (@process_directory _ _ SetStore _ [Start 2; Yield 0; Start 1]
                level_engine "rec" ∅) = Ok d ∧
    size (file_results d) = length rec_files ∧
    file_results d !! "rec/bad.wav" =
      Some (add_error "not a WAVE file"
              (new_FileAnalysisResults "rec/bad.wav")) ∧
    ∀ f, f ∈ rec_files → f ≠ "rec/bad.wav" →
      ∃ audio_data fr,
        from_wav f = Ok audio_data ∧
        file_results d !! f = Some fr ∧
        process (processor level_engine) audio_data false = Ok fr ∧
        errors fr = [] ∧
        ∀ item,
          item ∈ default [] (cfg_metrics (config (processor level_engine))) →
          is_enabled item = true →
          is_Some (dict_get item.1 (metric_results fr)).
Proof.
  apply (@C5_one_failed_load_is_isolated _ _ _ [Start 2; Yield 0; Start 1]
           level_engine "rec" ∅ rec_files "rec/bad.wav" "not a WAVE file").
  - reflexivity.
  - by compute_done.
  - reflexivity.
  - right. intros f _. apply not_elem_of_empty.
  - apply list_elem_of_further, list_elem_of_here.
  - reflexivity.
  - intros f Hf Hne.
    assert (∃ audio_data, from_wav f = Ok audio_data) as [a Ha].
    { apply elem_of_cons in Hf as [->|Hf]; [by eexists|].
      apply elem_of_cons in Hf as [->|Hf]; [done|].
      apply list_elem_of_singleton in Hf as ->. by eexists. }
    exists a. split; [done|]. intros item Hitem _.
    apply list_elem_of_singleton in Hitem as ->. apply level_succeeds.
Defined.

Lemma C8_witness :
  progress_after (@process_directory _ _ SetStore _ [Start 0; Yield 0; Yield 3]
                    level_engine "rec" ∅) =
  Some {| total := 3; completed := 3; description := "Processing files" |}.
Proof.
  apply (@C8_progress_counts_every_file _ _ SetStore _
           [Start 0; Yield 0; Yield 3] level_engine "rec" ∅ rec_files).
  - reflexivity.
  - reflexivity.
Defined.


(** The stereo recording of the batch is labelled by channel index. *)
Example batch_labels_stereo_by_index :
  ∃ d,
    returned (@process_directory _ _ SetStore _ [] level_engine "rec" ∅)
      = Ok d ∧
    metric_results <$> file_results d !! "rec/a.wav" =
      Some [("level", {| channel_results := level_only |})].
Proof. eexists. split; [reflexivity|]. by vm_compute. Qed.
(** A file whose processing fails (no [loudness] is registered) is marked
    complete as well, and its entry shows no error. *)
Example failed_processing_is_marked_complete :
  ∃ d,
    returned (@process_directory _ _ SetStore _ []
                (engine_of [("loudness", metric_on)]) "rec" ∅) = Ok d ∧
    file_results d !! "rec/a.wav" =
      Some {| file_path := "rec/a.wav"; metric_results := []; errors := [] |} ∧
    is_processed (StateStore := SetStore)
      (state_after (@process_directory _ _ SetStore _ []
                      (engine_of [("loudness", metric_on)]) "rec" ∅))
      "rec/a.wav" = Ok true.
Proof. eexists. split; [reflexivity|]. split; by vm_compute. Qed.
End BatchRuns.

(** * Further properties *)

(** ** The file processor *)

Section ProcessorExtras.
Context `{MetricLib}.
Implicit Types (self : PsychoacousticProcessor) (metric : Metric).
Implicit Types (audio_data : BinauralSignal) (m : Channels) (r : FileResults).
Implicit Types (items : list (string * MetricConfig)).

Lemma process_sequential_get_other self metric audio_data indices m m' k :
  process_sequential self metric audio_data indices m = Ok m' →
  (∀ i, i ∈ indices → channel_label i ≠ k) →
  dict_get k (channel_results m') = dict_get k (channel_results m).
Proof.
  revert m. induction indices as [|i indices IH]; simpl; intros m Hrun Hk.
  - congruence.
  - destruct (_process_channel _ _ _ _) as [c|e]; simpl in Hrun; [|done].
    rewrite (IH _ Hrun) by (intros j Hj; apply Hk; by apply list_elem_of_further).
    simpl. apply dict_get_set_ne, Hk, list_elem_of_here.
Qed.

Lemma process_sequential_get self metric audio_data indices m m' i :
  process_sequential self metric audio_data indices m = Ok m' →
  NoDup indices → i ∈ indices →
  ∃ raw,
    calculate metric (getitem audio_data i) = Ok raw ∧
    dict_get (channel_label i) (channel_results m') =
      Some (set_channel raw (channel_label i)).
Proof.
  revert m. induction indices as [|j indices IH]; simpl; intros m Hrun Hnd Hi.
  - by apply elem_of_nil in Hi.
  - rewrite _process_channel_eq in Hrun.
    destruct (calculate metric (getitem audio_data j)) as [raw|e] eqn:Hj;
      simpl in Hrun; [|done].
    apply NoDup_cons in Hnd as [Hj' Hnd].
    apply elem_of_cons in Hi as [->|Hi]; [|by eapply IH].
    exists raw. split; [done|].
    rewrite (process_sequential_get_other _ _ _ _ _ _ _ Hrun).
    + simpl. apply dict_get_set_eq.
    + intros i Hi Heq. apply channel_label_inj in Heq. by subst.
Qed.

(** What one metric records: for every channel of the plan, the result of
    the configured metric on that channel's signal, tagged with the key. *)
Lemma process_metric_plan self audio_data parallel name cfg m :
  process_metric self audio_data parallel name cfg = Ok m →
  ∃ metric metric',
    get_metric name = Ok metric ∧
    configure metric cfg = Ok metric' ∧
    dict_keys (channel_results m) = (channel_plan parallel audio_data).*1 ∧
    ∀ k s, (k, s) ∈ channel_plan parallel audio_data →
      ∃ raw,
        calculate metric' s = Ok raw ∧
        dict_get k (channel_results m) = Some (set_channel raw k).
Proof.
  intros Hrun. pose proof (process_metric_keys _ _ _ _ _ _ Hrun) as Hkeys.
  unfold process_metric in Hrun. unfold channel_plan, channel_labels in *.
  destruct (get_metric name) as [metric|] eqn:Hget; simpl in Hrun; [|done].
  destruct (configure metric cfg) as [metric'|] eqn:Hconf; simpl in Hrun;
    [|done].
  exists metric, metric'. split; [done|]. split; [done|].
  destruct (parallel && (channels audio_data =? 2)%nat).
  - split; [done|]. intros k s Hks.
    unfold process_stereo in Hrun. rewrite !_process_channel_eq in Hrun.
    destruct (calculate metric' (sig_left _)) as [l|] eqn:Hl; simpl in Hrun;
      [|done].
    destruct (calculate metric' (sig_right _)) as [r|] eqn:Hr; simpl in Hrun;
      [|done].
    injection Hrun as <-.
    apply elem_of_cons in Hks as [[= -> ->]|Hks]; [by exists l|].
    apply list_elem_of_singleton in Hks as [= -> ->]. by exists r.
  - split; [by rewrite Hkeys, <- list_fmap_compose|]. intros k s Hks.
    apply list_elem_of_fmap in Hks as (i & [= -> ->] & Hi).
    eapply process_sequential_get; [done|apply NoDup_seq|done].
Qed.

(** Every entry the loop leaves was recorded by an enabled metric of the
    configuration. *)
Lemma process_metrics_origin self audio_data parallel items r name m :
  dict_get name
    (metric_results (process_metrics self audio_data parallel items r).1)
    = Some m →
  dict_get name (metric_results r) = Some m ∨
  ∃ cfg, (name, cfg) ∈ items ∧ is_enabled (name, cfg) = true ∧
         process_metric self audio_data parallel name cfg = Ok m.
Proof.
  revert r. induction items as [|[n cfg] items IH]; simpl; intros r Hm; [by left|].
  destruct (default true (enabled cfg)) eqn:Hen.
  - destruct (process_metric self audio_data parallel n cfg) as [m0|] eqn:Hm0;
      [|by left].
    apply IH in Hm as [Hm|(cfg' & Hin & Hen' & Hrun)].
    + simpl in Hm. rewrite dict_get_set in Hm.
      destruct (String.eqb_spec n name) as [->|Hne]; [|by left].
      injection Hm as <-. right. exists cfg. split; [apply list_elem_of_here|done].
    + right. exists cfg'. split; [by apply list_elem_of_further|done].
  - apply IH in Hm as [Hm|(cfg' & Hin & Hen' & Hrun)]; [by left|].
    right. exists cfg'. split; [by apply list_elem_of_further|done].
Qed.

(** On values: where an entry of what [process] returns comes from. *)
Lemma process_provenance self audio_data parallel file_results name m :
  process self audio_data parallel = Ok file_results →
  dict_get name (metric_results file_results) = Some m →
  ∃ cfg metric metric',
    (name, cfg) ∈ default [] (cfg_metrics (config self)) ∧
    is_enabled (name, cfg) = true ∧
    get_metric name = Ok metric ∧
    configure metric cfg = Ok metric' ∧
    dict_keys (channel_results m) = (channel_plan parallel audio_data).*1 ∧
    ∀ k s, (k, s) ∈ channel_plan parallel audio_data →
      ∃ raw,
        calculate metric' s = Ok raw ∧
        dict_get k (channel_results m) = Some (set_channel raw k).
Proof.
  rewrite process_returns. intros [= <-] Hm.
  apply process_metrics_origin in Hm as [Hm|(cfg & Hin & Hen & Hrun)]; [done|].
  destruct (process_metric_plan _ _ _ _ _ _ Hrun)
    as (metric & metric' & Hget & Hconf & Hkeys & Hplan).
  by exists cfg, metric, metric'.
Qed.

(** X3: for a metric library whose [calculate] returns a new result object
    at every call, every entry of what [process] returns comes from an
    enabled metric of the configuration, resolved from the registry and
    configured with its own options.  The keys of the metric's
    [MultiChannelResult] are [left], [right] on the pool and [channel_1] to
    [channel_k] otherwise, in order, and under each key is an object whose
    [channel] is that key and whose value is what [calculate] of that
    metric gives on that channel's signal ([audio_data.left],
    [audio_data.right]; [audio_data[i]] under [channel_{i+1}]), whatever
    turns the two workers of the pool take. *)
Theorem X3_channel_results_provenance
    (calculate_obj :
       Metric → BinauralSignal → StateExc ByReference.Store ByReference.Ref)
    self audio_data parallel turns h :
  ByReference.returns_new_objects calculate_obj →
  ∃ h' file_results,
    ByReference.process calculate_obj self audio_data parallel turns h
      = (h', Ok file_results) ∧
    ∀ name (m : ByReference.MultiChannelResult),
      dict_get name (ByReference.metric_results file_results) = Some m →
      ∃ cfg metric metric',
        (name, cfg) ∈ default [] (cfg_metrics (config self)) ∧
        default true (enabled cfg) = true ∧
        get_metric name = Ok metric ∧
        configure metric cfg = Ok metric' ∧
        let plan :=
          if parallel && (channels audio_data =? 2)%nat
          then [("left", sig_left audio_data);
                ("right", sig_right audio_data)]
          else (fun i => ("channel_" +:+ pretty (i + 1),
                          getitem audio_data i)) <$>
               seq 0 (channels audio_data) in
        dict_keys (ByReference.channel_results m) = plan.*1 ∧
        ∀ key segment, (key, segment) ∈ plan →
          ∃ (ref : ByReference.Ref) raw,
            calculate metric' segment = Ok raw ∧
            dict_get key (ByReference.channel_results m) = Some ref ∧
            h' !! ref =
              Some {| payload := payload raw; channel := Some key |}.
Proof.
  intros Hnew.
  destruct (process_by_reference calculate_obj Hnew self audio_data parallel
              turns h) as (h' & fr & frv & Hrun & Hval & Hden & _).
  exists h', fr. split; [done|]. intros name m Hm.
  destruct Hden as (_ & _ & Hrel).
  destruct (dict_rel_get_l _ _ _ _ _ Hrel Hm) as (mv & Hmv & Hchannels).
  destruct (process_provenance self audio_data parallel frv name mv Hval Hmv)
    as (cfg & metric & metric' & Hin & Hen & Hget & Hconf & Hkeys & Hplan).
  exists cfg, metric, metric'. repeat (split; [done|]).
  cbv zeta. split.
  - rewrite (dict_rel_keys _ _ _ Hchannels). exact Hkeys.
  - intros key segment Hin'.
    destruct (Hplan key segment Hin') as (raw & Hraw & Hget').
    destruct (dict_rel_get_r _ _ _ _ _ Hchannels Hget')
      as (r & Hr & Hobj).
    by exists r, raw.
Qed.
Lemma process_metric_unresolved self audio_data parallel name cfg e :
  get_metric name = Raise e ∨
  (∃ metric, get_metric name = Ok metric ∧ configure metric cfg = Raise e) →
  process_metric self audio_data parallel name cfg = Raise e.
Proof.
  unfold process_metric. intros [->|(metric & -> & Hconf)]; [done|].
  simpl. by rewrite Hconf.
Qed.

(** The loop stops at the first enabled metric that raises. *)
Lemma process_stops_at self audio_data parallel before name cfg after :
  cfg_metrics (config self) = Some (before ++ (name, cfg) :: after) →
  default true (enabled cfg) = true →
  raises (process_metric self audio_data parallel name cfg) = true →
  process self audio_data parallel =
  Ok (process_metrics self audio_data parallel before
        (new_FileAnalysisResults (sig_file_path audio_data))).1.
Proof.
  intros Hcfg Hen Hraise. rewrite process_returns, Hcfg. simpl.
  rewrite process_metrics_app.
  destruct (process_metrics self audio_data parallel before _)
    as [r [[]|e0]]; [|done].
  simpl. rewrite Hen.
  by destruct (process_metric self audio_data parallel name cfg).
Qed.

(** X1: when resolving an enabled metric from the registry raises, or
    configuring it raises, [process] does not raise: it returns what the
    metrics before it in the configuration left, so the entries of what it
    returns are of those metrics only, and the failing metric's computation
    is not attempted. *)
Theorem X1_unresolved_metric_keeps_earlier_results
    self audio_data parallel before name cfg after e :
  cfg_metrics (config self) = Some (before ++ (name, cfg) :: after) →
  default true (enabled cfg) = true →
  get_metric name = Raise e ∨
  (∃ metric, get_metric name = Ok metric ∧ configure metric cfg = Raise e) →
  ∃ file_results,
    process self audio_data parallel = Ok file_results ∧
    file_results =
      (process_metrics self audio_data parallel before
         (new_FileAnalysisResults (sig_file_path audio_data))).1 ∧
    ∀ n, n ∈@{list string} dict_keys (metric_results file_results) →
      n ∈ before.*1.
Proof.
  intros Hcfg Hen Hfail. eexists. split.
  - apply (process_stops_at _ _ _ before name cfg after); [done..|].
    by rewrite (process_metric_unresolved _ _ _ _ _ e).
  - split; [done|]. intros n Hn.
    destruct (process_metrics_names _ _ _ _ _ _ Hn) as [Hnil|]; [|done].
    by apply elem_of_nil in Hnil.
Qed.

Lemma process_metrics_enabled self audio_data parallel items r :
  process_metrics self audio_data parallel items r =
  process_metrics self audio_data parallel
    (filter (fun item => is_enabled item = true) items) r.
Proof.
  revert r. induction items as [|[n cfg] items IH]; intros r; [done|].
  simpl. destruct (default true (enabled cfg)) eqn:Hen.
  - rewrite filter_cons_True by done. simpl. rewrite Hen.
    destruct (process_metric _ _ _ _ _); [apply IH|done].
  - rewrite filter_cons_False; [apply IH|].
    unfold is_enabled. simpl. by rewrite Hen.
Qed.

(** The loop uses nothing of the processor but its metrics. *)
Lemma process_metric_self self1 self2 audio_data parallel name cfg :
  process_metric self1 audio_data parallel name cfg =
  process_metric self2 audio_data parallel name cfg.
Proof.
  unfold process_metric.
  destruct (get_metric name) as [metric|]; simpl; [|done].
  destruct (configure metric cfg) as [metric'|]; simpl; [|done].
  destruct (parallel && (channels audio_data =? 2)%nat).
  - unfold process_stereo. by rewrite !_process_channel_eq.
  - generalize (seq 0 (channels audio_data)).
    generalize (new_MultiChannelResult (P:=Payload)).
    intros m indices. revert m.
    induction indices as [|i indices IH]; intros m; [done|]. simpl.
    rewrite !_process_channel_eq.
    destruct (calculate metric' (getitem audio_data i)); simpl; [apply IH|done].
Qed.

Lemma process_metrics_self self1 self2 audio_data parallel items r :
  process_metrics self1 audio_data parallel items r =
  process_metrics self2 audio_data parallel items r.
Proof.
  revert r. induction items as [|[n cfg] items IH]; intros r; [done|]. simpl.
  destruct (default true (enabled cfg)); [|apply IH].
  rewrite (process_metric_self self1 self2).
  destruct (process_metric self2 audio_data parallel n cfg); [apply IH|done].
Qed.

(** X2: a disabled metric has no effect on what [process] returns.  Two
    configurations with the same enabled metrics, in the same order, give
    the same results, whatever metrics they disable: a disabled metric is
    not even looked up in the registry. *)
Theorem X2_disabled_metrics_are_ignored self1 self2 audio_data parallel :
  filter (fun item => is_enabled item = true)
    (default [] (cfg_metrics (config self1))) =
  filter (fun item => is_enabled item = true)
    (default [] (cfg_metrics (config self2))) →
  process self1 audio_data parallel = process self2 audio_data parallel.
Proof.
  intros Heq. rewrite !process_returns.
  rewrite (process_metrics_enabled self1), (process_metrics_enabled self2), Heq.
  by rewrite (process_metrics_self self1 self2).
Qed.

(** X5: with no [metrics] key in the configuration, an empty one, or only
    disabled metrics, [process] returns the empty results of the signal's
    file: no metric result and no error. *)
Theorem X5_nothing_enabled_gives_empty_results self audio_data parallel :
  (∀ item, item ∈ default [] (cfg_metrics (config self)) →
     is_enabled item = false) →
  process self audio_data parallel =
  Ok (new_FileAnalysisResults (sig_file_path audio_data)).
Proof.
  intros Hoff. rewrite process_returns, process_metrics_enabled.
  assert (filter (fun item => is_enabled item = true)
            (default [] (cfg_metrics (config self))) = []) as ->; [|done].
  induction (default [] (cfg_metrics (config self))) as [|item items IH];
    [done|].
  rewrite filter_cons_False.
  - apply IH. intros item' Hin. by apply Hoff, list_elem_of_further.
  - rewrite (Hoff item); [done|apply list_elem_of_here].
Qed.

Lemma process_metrics_keys_prefix self audio_data parallel items r :
  NoDup items.*1 →
  (∀ n, n ∈ items.*1 → n ∉@{list string} dict_keys (metric_results r)) →
  ∃ recorded,
    dict_keys (metric_results
      (process_metrics self audio_data parallel items r).1) =
      dict_keys (metric_results r) ++ recorded ∧
    recorded `prefix_of`
      (filter (fun item => is_enabled item = true) items).*1 ∧
    ((process_metrics self audio_data parallel items r).2 = Ok () →
     recorded = (filter (fun item => is_enabled item = true) items).*1).
Proof.
  revert r. induction items as [|[n cfg] items IH]; intros r Hnd Hfresh.
  - exists []. simpl. by rewrite app_nil_r.
  - rewrite fmap_cons in Hnd. apply NoDup_cons in Hnd as [Hn Hnd].
    simpl. destruct (default true (enabled cfg)) eqn:Hen.
    + rewrite !filter_cons_True by done.
      destruct (process_metric self audio_data parallel n cfg) as [m|e].
      * destruct (IH (add_metric_result n m r) Hnd) as (rec & Hkeys & Hpre & Hall).
        { intros n' Hn'. simpl. rewrite dict_keys_set_fresh.
          - intros [Hin| ->%list_elem_of_singleton]%elem_of_app; [|done].
            by apply (Hfresh n'); [apply list_elem_of_further|].
          - apply Hfresh, list_elem_of_here. }
        exists (n :: rec). split; [|split].
        -- rewrite Hkeys. simpl. rewrite dict_keys_set_fresh
             by apply Hfresh, list_elem_of_here.
           by rewrite <- app_assoc.
        -- rewrite fmap_cons. by apply prefix_cons.
        -- intros Hok. rewrite fmap_cons. f_equal. by apply Hall.
      * exists []. simpl. rewrite app_nil_r.
        split; [done|]. split; [apply prefix_nil|done].
    + rewrite !filter_cons_False by (unfold is_enabled; simpl; by rewrite Hen).
      apply IH; [done|].
      intros n' Hn'. by apply Hfresh, list_elem_of_further.
Qed.

(** X4: with distinct metric names in the configuration, the metric names in
    what [process] returns are a prefix of the names of the enabled metrics,
    in configuration order: results are recorded in configuration order, up
    to the first metric that raises.  When every enabled metric succeeds
    they are all of them. *)
Theorem X4_results_follow_configuration_order
    self audio_data parallel file_results :
  NoDup (default [] (cfg_metrics (config self))).*1 →
  process self audio_data parallel = Ok file_results →
  dict_keys (metric_results file_results) `prefix_of`
    (filter (fun item => is_enabled item = true)
       (default [] (cfg_metrics (config self)))).*1 ∧
  ((∀ item, item ∈ default [] (cfg_metrics (config self)) →
      is_enabled item = true → metric_succeeds parallel audio_data item) →
   dict_keys (metric_results file_results) =
     (filter (fun item => is_enabled item = true)
        (default [] (cfg_metrics (config self)))).*1).
Proof.
  intros Hnd. rewrite process_returns. intros [= <-].
  destruct (process_metrics_keys_prefix self audio_data parallel
              (default [] (cfg_metrics (config self)))
              (new_FileAnalysisResults (sig_file_path audio_data)) Hnd)
    as (rec & Hkeys & Hpre & Hall).
  { intros n _. apply not_elem_of_nil. }
  simpl in Hkeys. rewrite Hkeys. split; [done|].
  intros Hsucc. apply Hall. by apply process_metrics_Ok.
Qed.
End ProcessorExtras.

Section ProcessorExtraRuns.
Import Demo.
Local Existing Instance Demo.signals.
Local Existing Instance Demo.metrics.

Lemma X1_witness :
  ∃ file_results,
    process
      (PsychoacousticProcessor_init
         (config_of [("level", metric_on); ("loudness", metric_on);
                     ("sharpness", metric_on)]))
      stereo false = Ok file_results ∧
    file_results =
      (process_metrics
         (PsychoacousticProcessor_init
            (config_of [("level", metric_on); ("loudness", metric_on);
                        ("sharpness", metric_on)]))
         stereo false [("level", metric_on)]
         (new_FileAnalysisResults "rec/a.wav")).1 ∧
    ∀ n, n ∈@{list string} dict_keys (metric_results file_results) →
      n ∈ [("level", metric_on)].*1.
Proof.
  apply (X1_unresolved_metric_keeps_earlier_results
           (PsychoacousticProcessor_init
              (config_of [("level", metric_on); ("loudness", metric_on);
                          ("sharpness", metric_on)]))
           stereo false [("level", metric_on)] "loudness" metric_on
           [("sharpness", metric_on)] "Unknown metric: loudness").
  - reflexivity.
  - reflexivity.
  - left. reflexivity.
Defined.

Lemma X2_witness :
  process
    (PsychoacousticProcessor_init
       (config_of [("loudness", metric_off); ("level", metric_on)]))
    stereo false =
  process (PsychoacousticProcessor_init (config_of [("level", metric_on)]))
    stereo false.
Proof.
  apply (X2_disabled_metrics_are_ignored
           (PsychoacousticProcessor_init
              (config_of [("loudness", metric_off); ("level", metric_on)]))
           (PsychoacousticProcessor_init (config_of [("level", metric_on)]))
           stereo false).
  reflexivity.
Defined.

Lemma new_object_returns_new_objects :
  ByReference.returns_new_objects Fixtures.new_object.
Proof.
  intros metric segment h. unfold Fixtures.new_object. simpl.
  destruct (measure metric segment) as [result|e]; [|done].
  exists (fresh (dom h)). split; [|done].
  apply not_elem_of_dom, is_fresh.
Defined.

(** The stereo recording on the pool, the right worker first. *)
Lemma X3_witness :
  ∃ h' file_results,
    ByReference.process Fixtures.new_object
      (PsychoacousticProcessor_init (config_of [("level", metric_on)]))
      stereo true (fun _ => [false; true; false]) ∅ = (h', Ok file_results) ∧
    ∀ name m,
      dict_get name (ByReference.metric_results file_results) = Some m →
      ∃ cfg metric metric',
        (name, cfg) ∈ [("level", metric_on)] ∧
        default true (enabled cfg) = true ∧
        get_metric name = Ok metric ∧
        configure metric cfg = Ok metric' ∧
        dict_keys (ByReference.channel_results m) = ["left"; "right"] ∧
        ∀ key segment,
          (key, segment) ∈ [("left", sig_left stereo);
                            ("right", sig_right stereo)] →
          ∃ (ref : ByReference.Ref) raw,
            calculate metric' segment = Ok raw ∧
            dict_get key (ByReference.channel_results m) = Some ref ∧
            h' !! ref =
              Some {| payload := payload raw; channel := Some key |}.
Proof.
  apply (@X3_channel_results_provenance signals metrics Fixtures.new_object
           (PsychoacousticProcessor_init (config_of [("level", metric_on)]))
           stereo true (fun _ => [false; true; false]) ∅).
  apply new_object_returns_new_objects.
Defined.

(** The same run: the right worker computes first and holds object 0. *)
Example pool_with_new_objects :
  ByReference.process Fixtures.new_object
    (PsychoacousticProcessor_init (config_of [("level", metric_on)]))
    stereo true (fun _ => [false; true; false]) ∅ =
  ({[ 0 := {| payload := 2%Z; channel := Some "right" |};
      1 := {| payload := 1%Z; channel := Some "left" |} ]},
   Ok {| ByReference.file_path := "rec/a.wav";
         ByReference.metric_results :=
           [("level",
             {| ByReference.channel_results :=
                  [("left", 1); ("right", 0)] |})];
         ByReference.errors := [] |}).
Proof. by vm_compute. Qed.

(** A metric that returns the same object at every call: the two entries
    are one object, whose [channel] is the name assigned last. *)
Example one_object_keeps_the_last_channel :
  ByReference.process Fixtures.one_object
    (PsychoacousticProcessor_init (config_of [("level", metric_on)]))
    stereo false (fun _ => []) ∅ =
  ({[ 0 := {| payload := 2%Z; channel := Some "channel_2" |} ]},
   Ok {| ByReference.file_path := "rec/a.wav";
         ByReference.metric_results :=
           [("level",
             {| ByReference.channel_results :=
                  [("channel_1", 0); ("channel_2", 0)] |})];
         ByReference.errors := [] |}).
Proof. by vm_compute. Qed.

(** Two segments: both are computed, the first result is returned and
    tagged, the second is left as it was. *)
Example first_of_two_segments :
  ByReference.reduce_segments Fixtures.new_object
    (PsychoacousticProcessor_init (config_of []))
    Fixtures.level [getitem stereo 0; getitem stereo 1] "channel_1" ∅ =
  ({[ 0 := {| payload := 1%Z; channel := Some "channel_1" |};
      1 := {| payload := 2%Z; channel := None |} ]},
   Ok 0).
Proof. by vm_compute. Qed.

Lemma X4_witness :
  dict_keys
    [("level", {| channel_results := level_only |});
     ("sharpness", {| channel_results := level_only |})]
    `prefix_of`
    (filter (fun item => is_enabled item = true)
       [("level", metric_on); ("loudness", metric_off);
        ("sharpness", metric_on)]).*1.
Proof.
  apply (@X4_results_follow_configuration_order signals metrics
           (PsychoacousticProcessor_init
              (config_of [("level", metric_on); ("loudness", metric_off);
                          ("sharpness", metric_on)]))
           stereo false
           {| file_path := "rec/a.wav";
              metric_results :=
                [("level", {| channel_results := level_only |});
                 ("sharpness", {| channel_results := level_only |})];
              errors := [] |}).
  - by compute_done.
  - reflexivity.
Defined.

Lemma X5_witness :
  process
    (PsychoacousticProcessor_init
       {| cfg_segment_length := None; cfg_overlap := None;
          cfg_result_detail := None; cfg_force_reprocess := None;
          cfg_metrics := None |})
    stereo true =
  Ok (new_FileAnalysisResults "rec/a.wav").
Proof.
  apply (X5_nothing_enabled_gives_empty_results
           (PsychoacousticProcessor_init
              {| cfg_segment_length := None; cfg_overlap := None;
                 cfg_result_detail := None; cfg_force_reprocess := None;
                 cfg_metrics := None |})
           stereo true).
  intros item Hitem. by apply elem_of_nil in Hitem.
Defined.
End ProcessorExtraRuns.

(** ** The batch engine, for any state manager *)

Section EngineExtras.
Context `{MetricLib} `{!StateStore} `{!FileSystem}.
Implicit Types (self : ProcessingEngine) (r : Run) (schedule : list Event).

Lemma handle_future_is_Some g future d s p f :
  is_Some (file_results (handle_future g future d s p).1.1 !! f) ↔
  f = g ∨ is_Some (file_results d !! f).
Proof.
  destruct (decide (f = g)) as [->|Hne].
  - rewrite handle_future_lookup_eq. split; [by left|eauto].
  - rewrite handle_future_lookup_ne by done. split; [by right|].
    by intros [?|?].
Qed.

Lemma handle_future_directory_path g future d s p :
  directory_path (handle_future g future d s p).1.1 = directory_path d.
Proof.
  unfold handle_future.
  destruct future as [result|e]; [destruct (mark_processed s g) as [s' [[]|e]]|];
    done.
Qed.

Lemma entries_inv_start self files k r :
  entries_inv files r → entries_inv files (start_task self k r).
Proof.
  intros Hall. task_at k r g Hk. intros f. rewrite (Hall f). simpl.
  pose proof (delete_Permutation _ _ _ Hk) as Hperm.
  rewrite Hperm at 1. rewrite elem_of_cons, fmap_app, elem_of_app. simpl.
  rewrite list_elem_of_singleton. tauto.
Qed.

Lemma entries_inv_yield files k r :
  entries_inv files r → entries_inv files (yield_future k r).
Proof.
  intros Hall. future_at k r g future Hk. intros f. rewrite (Hall f).
  pose proof (handle_future_is_Some g future (results r) (store r)
                (tracker r) f) as Hsome.
  destruct (handle_future _ _ _ _ _) as [[d s] p]. simpl in *.
  rewrite Hsome.
  pose proof (delete_Permutation _ _ _ Hk) as Hperm.
  rewrite Hperm at 1. rewrite fmap_cons, elem_of_cons. simpl. tauto.
Qed.

Lemma eligible_files_elem directory_path names files p :
  listdir directory_path = Ok names →
  eligible_files directory_path = Ok files →
  p ∈ files ↔
  ∃ n, n ∈ names ∧ endswith n ".wav" = true ∧ p = path_join directory_path n.
Proof.
  unfold eligible_files. intros -> [= <-].
  rewrite list_elem_of_In, in_map_iff. split.
  - intros (n & <- & Hn). exists n. apply list_elem_of_In, list_elem_of_filter in Hn
      as [Hwav Hn]. by apply Is_true_true in Hwav.
  - intros (n & Hn & Hwav & ->). exists n. split; [done|].
    apply list_elem_of_In, list_elem_of_filter. split; [by apply Is_true_true|done].
Qed.

(** X8: what [process_directory] returns has an entry for a path exactly
    when the path is the directory joined with a name that [os.listdir] gave
    and that ends in [.wav]: every such file gets its entry, whatever
    happened to it and for any state manager, and other files of the
    directory get none. *)
Theorem X8_entries_are_the_wav_files
    schedule self directory state_manager names :
  listdir directory = Ok names →
  (0 < max_workers self)%Z →
  ∃ d,
    returned (process_directory schedule self directory state_manager)
      = Ok d ∧
    directory_path d = directory ∧
    ∀ p, is_Some (file_results d !! p) ↔
      ∃ n, n ∈ names ∧ endswith n ".wav" = true ∧
           p = path_join directory n.
Proof.
  intros Hnames Hw.
  destruct (eligible_files directory) as [files|] eqn:Hfiles;
    [|unfold eligible_files in Hfiles; by rewrite Hnames in Hfiles].
  rewrite (process_directory_Ok _ _ _ _ files) by done. cbv zeta.
  set (r0 := submit_all files (new_DirectoryAnalysisResults directory)
               state_manager
               (new_ProgressTracker (length files) "Processing files")).
  eexists. split; [done|]. split.
  - apply (run_invariant self
             (fun r => directory_path (results r) = directory)); [..|done].
    + intros k r Hr. unfold start_task. by destruct (queued r !! k).
    + intros k r Hr. future_at k r g future Hk.
      pose proof (handle_future_directory_path g future (results r) (store r)
                    (tracker r)) as Hd.
      destruct (handle_future _ _ _ _ _) as [[d s] p]. simpl in *. congruence.
  - intros p.
    rewrite <- (eligible_files_elem directory names files p Hnames Hfiles).
    pose proof (run_invariant self (entries_inv files) schedule r0
                  (entries_inv_start self files) (entries_inv_yield files))
      as Hall.
    destruct (join_drained self (steps self schedule r0)) as [Hq Hf].
    rewrite (Hall ltac:(by (intros f; simpl; rewrite lookup_empty;
                            split; [by left|intros [?|[?%elem_of_nil|[? ?]]]])) p).
    rewrite Hq, Hf. split; [by right; right|].
    by intros [?%elem_of_nil|[?%elem_of_nil|?]].
Qed.
Lemma idle_steps self schedule r :
  queued r = [] → finished r = [] → steps self schedule r = r.
Proof.
  intros Hq Hf. unfold steps.
  induction schedule as [|[k|k] schedule IH]; simpl; [done|..].
  - by rewrite start_task_idle by (by rewrite Hq).
  - by rewrite yield_future_idle by (by rewrite Hf).
Qed.

(** X7: in a directory without a name that ends in [.wav], an empty one
    included, [process_directory] returns results without entries, leaves
    the state manager as it was, and its tracker has total 0 and count 0. *)
Theorem X7_no_wav_file_no_work
    schedule self directory state_manager names :
  listdir directory = Ok names →
  (∀ n, n ∈ names → endswith n ".wav" = false) →
  (0 < max_workers self)%Z →
  process_directory schedule self directory state_manager =
  {| returned := Ok (new_DirectoryAnalysisResults directory);
     state_after := state_manager;
     progress_after := Some (new_ProgressTracker 0 "Processing files") |}.
Proof.
  intros Hnames Hnone Hw.
  assert (eligible_files directory = Ok []) as Hfiles.
  { unfold eligible_files. rewrite Hnames. simpl. do 2 f_equal.
    clear Hnames. induction names as [|n names IH]; [done|].
    rewrite filter_cons_False.
    - apply IH. intros n' Hn'. by apply Hnone, list_elem_of_further.
    - rewrite (Hnone n); [simpl; tauto|apply list_elem_of_here]. }
  rewrite (process_directory_Ok _ _ _ _ []) by done. cbv zeta.
  by rewrite idle_steps.
Qed.

(** X10: with [force_reprocess] set, a file is loaded and processed whatever
    [is_processed] answers for it: when the state manager does not raise for
    the file, its entry is what [process] returned for the recording loaded
    from it, or only the error of the load when loading raised. *)
Theorem X10_force_reprocess_ignores_the_state
    schedule self directory state_manager files f :
  eligible_files directory = Ok files →
  (0 < max_workers self)%Z →
  f ∈ files →
  force_reprocess (processor self) = true →
  (∀ s, raises (is_processed s f) = false) →
  (∀ s, (mark_processed s f).2 = Ok ()) →
  ∃ d,
    returned (process_directory schedule self directory state_manager)
      = Ok d ∧
    (∀ audio_data,
       from_wav f = Ok audio_data →
       ∃ fr, process (processor self) audio_data false = Ok fr ∧
             file_results d !! f = Some fr) ∧
    (∀ e,
       from_wav f = Raise e →
       file_results d !! f = Some (add_error e (new_FileAnalysisResults f))).
Proof.
  intros Hfiles Hw Hf Hforce Hread Hwrite.
  rewrite (process_directory_Ok _ _ _ _ files) by done. cbv zeta.
  eexists. split; [done|].
  cut (file_results (results (join self (steps self schedule
         (submit_all files (new_DirectoryAnalysisResults directory)
            state_manager
            (new_ProgressTracker (length files) "Processing files")))))
         !! f = Some (dispatch_result (processor self) f)).
  { intros ->. unfold dispatch_result. split.
    - intros a ->. rewrite process_returns. eauto.
    - by intros e ->. }
  apply (file_outcome self f (fun _ => True)
           (fun d _ => file_results d !! f
                       = Some (dispatch_result (processor self) f))).
  - done.
  - intros s s' d p _ _. cbv zeta. rewrite handle_future_lookup_eq. f_equal.
    rewrite _process_file_cases. specialize (Hread s).
    destruct (is_processed s f) as [b|]; [|done].
    by rewrite Hforce, andb_false_r, Hwrite.
  - intros g future d s p Hne _ Hd. cbv zeta.
    by rewrite handle_future_lookup_ne.
  - split; [done|]. split; [intros ? Hin; by apply elem_of_nil in Hin|].
    by left.
Qed.
End EngineExtras.

(** ** The batch engine on the set of completed files *)

Section SetStoreExtras.
Context `{MetricLib} `{!FileSystem}.
Local Existing Instance SetStore.
Implicit Types (self : ProcessingEngine) (r : Run) (schedule : list Event).
Implicit Types (s : StateManager).

Lemma set_store_task_returns f processor s :
  ∃ fr, _process_file f processor s false = Ok fr.
Proof. rewrite set_store_task_Ok. destruct (_ && _); eauto. Qed.

Lemma snapshot_inv_start self files s0 k r :
  snapshot_inv self files s0 r → snapshot_inv self files s0 (start_task self k r).
Proof.
  intros (Hnd & Hout & Hst & Hfin & Hres & Hall).
  pose proof (entries_inv_start self files k r Hall) as Hall'.
  revert Hall'. task_at k r g Hk. intros Hall'.
  pose proof (delete_Permutation _ _ _ Hk) as Hperm.
  assert (∀ f, f ∈ queued r ↔ f = g ∨ f ∈ delete k (queued r)) as Hq.
  { intros f. by rewrite Hperm at 1; rewrite elem_of_cons. }
  rewrite Hperm in Hnd. simpl in Hnd. apply NoDup_cons in Hnd as [Hg Hnd].
  split; [|split; [|split; [|split; [|split]]]]; simpl; [| | | | |done].
  - rewrite fmap_app, app_assoc. simpl.
    apply NoDup_app. split; [done|]. split; [|apply NoDup_singleton].
    intros f Hf ->%list_elem_of_singleton. done.
  - intros f Hf. destruct (Hout f Hf) as [Hnq Hnf]. rewrite Hq in Hnq.
    rewrite fmap_app, elem_of_app. simpl. rewrite list_elem_of_singleton. tauto.
  - done.
  - intros f future Hin. apply elem_of_app in Hin as [Hin|Hin]; [auto|].
    apply list_elem_of_singleton in Hin as [= -> ->].
    rewrite !set_store_task_Ok.
    assert (bool_decide (g ∈ store r) = bool_decide (g ∈ s0)) as ->; [|done].
    apply bool_decide_ext. rewrite Hst. split; [|by left].
    intros [?|Hsome]; [done|]. destruct (Hout g Hsome) as [Hnq _].
    exfalso. apply Hnq, Hq. by left.
  - done.
Qed.

Lemma snapshot_inv_yield self files s0 k r :
  snapshot_inv self files s0 r → snapshot_inv self files s0 (yield_future k r).
Proof.
  intros (Hnd & Hout & Hst & Hfin & Hres & Hall).
  pose proof (entries_inv_yield files k r Hall) as Hall'.
  destruct (finished r !! k) as [[g future]|] eqn:Hk;
    [|by rewrite yield_future_idle].
  assert (future = _process_file g (processor self) s0 false) as Hfuture.
  { apply Hfin. by eapply list_elem_of_lookup_2. }
  destruct (set_store_task_returns g (processor self) s0) as [fr Hfr].
  rewrite Hfr in Hfuture. subst future.
  revert Hall'. rewrite (yield_future_finished _ _ g _ Hk).
  pose proof (handle_future_lookup_eq g (Ok fr) (results r) (store r)
                (tracker r)) as Heq.
  pose proof (fun f => handle_future_lookup_ne g (Ok fr) (results r) (store r)
                         (tracker r) f) as Hne.
  pose proof (fun f => handle_future_is_Some g (Ok fr) (results r) (store r)
                         (tracker r) f) as Hsome.
  pose proof (set_store_handle g (Ok fr) (results r) (store r) (tracker r))
    as Hstore.
  destruct (handle_future _ _ _ _ _) as [[d s] p].
  cbn [fst snd] in Heq, Hne, Hsome, Hstore. subst s. intros Hall'.
  pose proof (delete_Permutation _ _ _ Hk) as Hperm.
  assert (∀ f, f ∈ (finished r).*1 ↔ f = g ∨ f ∈ (delete k (finished r)).*1)
    as Hf1.
  { intros f. by rewrite Hperm at 1; rewrite fmap_cons, elem_of_cons. }
  rewrite Hperm, fmap_cons in Hnd. simpl in Hnd.
  rewrite <- Permutation_middle in Hnd. apply NoDup_cons in Hnd as [Hg Hnd].
  rewrite elem_of_app in Hg.
  split; [|split; [|split; [|split; [|split]]]];
    cbn [queued finished results store tracker]; [| | | | |done].
  - done.
  - intros f Hf. apply Hsome in Hf as [->|Hf]; [tauto|].
    destruct (Hout f Hf) as [Hnq Hnf]. rewrite Hf1 in Hnf. tauto.
  - intros f. rewrite elem_of_union, elem_of_singleton, Hst, Hsome. tauto.
  - intros f future' Hin. apply Hfin. by eapply list_elem_of_delete_inv.
  - intros f fr' Hf. destruct (decide (f = g)) as [->|Hfg].
    + rewrite Heq in Hf. simpl in Hf. by injection Hf as <-.
    + rewrite Hne in Hf by done. auto.
Qed.

(** What a batch of distinct files leaves, whatever the schedule. *)
Lemma snapshot_run schedule self directory s files :
  eligible_files directory = Ok files →
  NoDup files →
  (0 < max_workers self)%Z →
  ∃ d,
    process_directory schedule self directory s =
    {| returned := Ok d;
       state_after := s ∪ list_to_set files;
       progress_after :=
         Some {| total := length files; completed := length files;
                 description := "Processing files" |} |} ∧
    directory_path d = directory ∧
    (∀ f, f ∈ files →
       ∃ fr, _process_file f (processor self) s false = Ok fr ∧
             file_results d !! f = Some fr) ∧
    (∀ f, f ∉ files → file_results d !! f = None).
Proof.
  intros Hfiles Hnd Hw.
  rewrite (process_directory_Ok _ _ _ _ files) by done. cbv zeta.
  set (r0 := submit_all files (new_DirectoryAnalysisResults directory) s
               (new_ProgressTracker (length files) "Processing files")).
  assert (snapshot_inv self files s r0) as Hinit.
  { split; [|split; [|split; [|split; [|split]]]]; simpl.
    - by rewrite app_nil_r.
    - intros f Hf. rewrite lookup_empty in Hf. by destruct Hf.
    - intros f. rewrite lookup_empty. split; [by left|].
      intros [?|[? ?]]; done.
    - intros f future Hin. by apply elem_of_nil in Hin.
    - intros f fr Hin. by rewrite lookup_empty in Hin.
    - intros f. simpl. rewrite lookup_empty. split; [by left|].
      intros [?|[?%elem_of_nil|[? ?]]]; done. }
  pose proof (run_invariant self (snapshot_inv self files s) schedule r0
                (snapshot_inv_start self files s)
                (snapshot_inv_yield self files s) Hinit)
    as (_ & _ & Hst & _ & Hres & Hall).
  pose proof (run_invariant self (progress_inv (length files)) schedule r0
                (progress_inv_start self _) (progress_inv_yield _))
    as [Ht Hc]; [split; simpl; [done|lia]|].
  assert (description (tracker (join self (steps self schedule r0)))
          = "Processing files") as Hdesc.
  { apply (run_invariant self
             (fun r => description (tracker r) = "Processing files")); [..|done].
    - intros k r Hr. unfold start_task. by destruct (queued r !! k).
    - intros k r Hr. destruct (step_tracker self (Yield k) r) as [Hs|Hs];
        simpl in Hs; by rewrite Hs. }
  assert (directory_path (results (join self (steps self schedule r0)))
          = directory) as Hdir.
  { apply (run_invariant self
             (fun r => directory_path (results r) = directory)); [..|done].
    - intros k r Hr. unfold start_task. by destruct (queued r !! k).
    - intros k r Hr. future_at k r g future Hk.
      pose proof (handle_future_directory_path g future (results r) (store r)
                    (tracker r)) as Hd.
      destruct (handle_future _ _ _ _ _) as [[d s'] p]. simpl in *. congruence. }
  destruct (join_drained self (steps self schedule r0)) as [Hq Hf].
  rewrite Hq, Hf in Hc. simpl in Hc.
  assert (∀ f, f ∈ files ↔
            is_Some (file_results
              (results (join self (steps self schedule r0))) !! f)) as Hdom.
  { intros f. rewrite (Hall f), Hq, Hf. split; [|by right; right].
    by intros [?%elem_of_nil|[?%elem_of_nil|?]]. }
  exists (results (join self (steps self schedule r0))).
  split; [|split; [done|split]].
  - f_equal.
    + apply set_eq. intros f. rewrite Hst, elem_of_union, elem_of_list_to_set.
      by rewrite Hdom.
    + destruct (tracker (join self (steps self schedule r0))) as [t c dsc].
      simpl in *. do 2 f_equal; [done|lia|done].
  - intros f Hin. apply Hdom in Hin as [fr Hfr]. exists fr. auto.
  - intros f Hout. apply eq_None_not_Some. by rewrite <- Hdom.
Qed.

(** X11: in a batch of distinct files (the names [os.listdir] gives are
    distinct), the entry of every file is what [_process_file] returns for
    it on the state manager as it was before the run: a file's result does
    not depend on the other files of the batch, on what failed among them,
    or on the order in which the pool ran and yielded them. *)
Theorem X11_entry_is_the_task_on_the_initial_state
    schedule self directory s names files f :
  listdir directory = Ok names →
  NoDup names →
  eligible_files directory = Ok files →
  (0 < max_workers self)%Z →
  f ∈ files →
  ∃ d fr,
    returned (process_directory schedule self directory s) = Ok d ∧
    _process_file f (processor self) s false = Ok fr ∧
    file_results d !! f = Some fr.
Proof.
  intros Hnames Hnd Hfiles Hw Hf.
  destruct (snapshot_run schedule self directory s files)
    as (d & Hrun & _ & Hentries & _);
    [done|by eapply eligible_files_NoDup|done|].
  destruct (Hentries f Hf) as (fr & Htask & Hfr).
  exists d, fr. by rewrite Hrun.
Qed.

(** X12: when the names [os.listdir] gives are distinct, what
    [process_directory] returns, the files marked complete after it and the
    tracker it leaves are the same for every schedule: they do not depend on
    the order in which workers take the tasks or in which the futures
    complete. *)
Theorem X12_outcome_is_independent_of_the_schedule
    schedule1 schedule2 self directory s :
  (∀ names, listdir directory = Ok names → NoDup names) →
  process_directory schedule1 self directory s =
  process_directory schedule2 self directory s.
Proof.
  intros Hnd.
  destruct (listdir directory) as [names|e] eqn:Hnames;
    [|unfold process_directory, eligible_files; by rewrite Hnames].
  destruct (Z.leb_spec (max_workers self) 0) as [Hw|Hw].
  { unfold process_directory.
    destruct (eligible_files directory); [|done].
    by destruct (Z.leb_spec (max_workers self) 0); [|lia]. }
  destruct (eligible_files directory) as [files|] eqn:Hfiles;
    [|unfold eligible_files in Hfiles; by rewrite Hnames in Hfiles].
  assert (NoDup files) as Hfnd by (eapply eligible_files_NoDup; eauto).
  destruct (snapshot_run schedule1 self directory s files)
    as (d1 & -> & Hdir1 & Hin1 & Hout1); [done..|].
  destruct (snapshot_run schedule2 self directory s files)
    as (d2 & -> & Hdir2 & Hin2 & Hout2); [done..|].
  do 2 f_equal. destruct d1 as [p1 m1], d2 as [p2 m2]. simpl in *.
  f_equal; [congruence|]. apply map_eq. intros f.
  destruct (decide (f ∈ files)) as [Hf|Hf].
  - destruct (Hin1 f Hf) as (fr1 & Ht1 & ->).
    destruct (Hin2 f Hf) as (fr2 & Ht2 & ->). congruence.
  - by rewrite Hout1, Hout2.
Qed.

(** X9: a run never unmarks a file and marks no file but those it
    enumerated: the files marked complete after [process_directory] include
    those marked before it, and every other one of them is an eligible file
    of the directory. *)
Theorem X9_marks_are_kept_and_only_batch_files_added
    schedule self directory s files :
  eligible_files directory = Ok files →
  (0 < max_workers self)%Z →
  s ⊆ state_after (process_directory schedule self directory s) ∧
  ∀ f, f ∈ state_after (process_directory schedule self directory s) →
    f ∈ s ∨ f ∈ files.
Proof.
  intros Hfiles Hw.
  rewrite (process_directory_Ok _ _ _ _ files) by done. cbv zeta.
  set (r0 := submit_all files (new_DirectoryAnalysisResults directory) s
               (new_ProgressTracker (length files) "Processing files")).
  cut (s ⊆ store (join self (steps self schedule r0)) ∧
       (∀ f, f ∈ store (join self (steps self schedule r0)) →
             f ∈ s ∨ f ∈ files) ∧
       (∀ f, f ∈ queued (join self (steps self schedule r0)) ∨
             f ∈ (finished (join self (steps self schedule r0))).*1 →
             f ∈ files)).
  { intros (? & ? & _). done. }
  apply (run_invariant self
           (fun r => s ⊆ store r ∧
                     (∀ f, f ∈ store r → f ∈ s ∨ f ∈ files) ∧
                     (∀ f, f ∈ queued r ∨ f ∈ (finished r).*1 → f ∈ files))).
  - intros k r (Hsub & Hsup & Hfl). task_at k r g Hk.
    split; [done|]. split; [done|]. simpl. intros f [Hf|Hf].
    + apply Hfl. left. by eapply list_elem_of_delete_inv.
    + rewrite fmap_app, elem_of_app in Hf. simpl in Hf.
      destruct Hf as [Hf| ->%list_elem_of_singleton]; [auto|].
      apply Hfl. left. by eapply list_elem_of_lookup_2.
  - intros k r (Hsub & Hsup & Hfl). future_at k r g future Hk.
    pose proof (set_store_handle g future (results r) (store r) (tracker r))
      as Hstore.
    destruct (handle_future _ _ _ _ _) as [[d s'] p].
    cbn [fst snd] in Hstore. subst s'.
    assert (g ∈ files) as Hg.
    { apply Hfl. right. apply list_elem_of_fmap. exists (g, future).
      split; [done|]. by eapply list_elem_of_lookup_2. }
    cbn [queued finished results store tracker].
    split; [destruct future; set_solver|]. split.
    + intros f Hf. destruct future; [|auto].
      apply elem_of_union in Hf as [->%elem_of_singleton|Hf]; auto.
    + intros f [Hf|Hf]; apply Hfl; [by left|right].
      apply list_elem_of_fmap in Hf as (x & -> & Hx).
      apply list_elem_of_fmap. exists x. split; [done|].
      by eapply list_elem_of_delete_inv.
  - split; [done|]. split; [by left|]. simpl.
    intros f [Hf|Hf]; [done|by apply elem_of_nil in Hf].
Qed.
End SetStoreExtras.

Section BatchExtraRuns.
Import Demo Fixtures.
Local Existing Instance Demo.signals.
Local Existing Instance Demo.metrics.

Lemma X7_witness :
  @process_directory _ _ SetStore docs [Start 0; Yield 0] level_engine "docs"
    {["docs/old.wav"]} =
  {| returned := Ok (new_DirectoryAnalysisResults "docs");
     state_after := {["docs/old.wav"]};
     progress_after := Some (new_ProgressTracker 0 "Processing files") |}.
Proof.
  apply (@X7_no_wav_file_no_work _ _ SetStore docs [Start 0; Yield 0]
           level_engine "docs" {["docs/old.wav"]}
           ["readme.md"; "take.WAV"; "wav"]).
  - reflexivity.
  - intros n Hn.
    apply elem_of_cons in Hn as [->|Hn]; [reflexivity|].
    apply elem_of_cons in Hn as [->|Hn]; [reflexivity|].
    apply list_elem_of_singleton in Hn as ->. reflexivity.
  - reflexivity.
Defined.

Lemma X8_witness :
  ∃ d,
    returned (@process_directory _ _ SetStore Demo.files [Yield 0; Start 1]
                level_engine "rec" ∅) = Ok d ∧
    directory_path d = "rec" ∧
    ∀ p, is_Some (file_results d !! p) ↔
      ∃ n, n ∈ ["a.wav"; "notes.txt"; "bad.wav"; "b.wav"] ∧
           endswith n ".wav" = true ∧ p = path_join "rec" n.
Proof.
  apply (@X8_entries_are_the_wav_files _ _ SetStore Demo.files
           [Yield 0; Start 1] level_engine "rec" ∅
           ["a.wav"; "notes.txt"; "bad.wav"; "b.wav"]).
  - reflexivity.
  - reflexivity.
Defined.

Lemma X9_witness :
  {["rec/a.wav"; "rec/gone.wav"]} ⊆
    state_after (@process_directory _ _ SetStore Demo.files [Start 2]
                   level_engine "rec" {["rec/a.wav"; "rec/gone.wav"]}) ∧
  ∀ f,
    f ∈ state_after (@process_directory _ _ SetStore Demo.files [Start 2]
                       level_engine "rec" {["rec/a.wav"; "rec/gone.wav"]}) →
    f ∈@{gset string} {["rec/a.wav"; "rec/gone.wav"]} ∨ f ∈ rec_files.
Proof.
  apply (@X9_marks_are_kept_and_only_batch_files_added _ _ Demo.files
           [Start 2] level_engine "rec" {["rec/a.wav"; "rec/gone.wav"]}
           rec_files).
  - reflexivity.
  - reflexivity.
Defined.

Lemma X10_witness :
  ∃ d,
    returned (@process_directory _ _ SetStore Demo.files [Start 0]
                forced_engine "rec" {["rec/a.wav"]}) = Ok d ∧
    (∀ audio_data,
       from_wav "rec/a.wav" = Ok audio_data →
       ∃ fr, process (processor forced_engine) audio_data false = Ok fr ∧
             file_results d !! "rec/a.wav" = Some fr) ∧
    (∀ e,
       from_wav "rec/a.wav" = Raise e →
       file_results d !! "rec/a.wav" =
         Some (add_error e (new_FileAnalysisResults "rec/a.wav"))).
Proof.
  apply (@X10_force_reprocess_ignores_the_state _ _ SetStore Demo.files
           [Start 0] forced_engine "rec" {["rec/a.wav"]} rec_files "rec/a.wav").
  - reflexivity.
  - reflexivity.
  - apply list_elem_of_here.
  - reflexivity.
  - intros s. reflexivity.
  - intros s. reflexivity.
Defined.

Lemma X11_witness :
  ∃ d fr,
    returned (@process_directory _ _ SetStore Demo.files
                [Start 2; Start 0; Yield 1] level_engine "rec"
                {["rec/b.wav"]}) = Ok d ∧
    @_process_file _ _ SetStore "rec/b.wav"
      (processor level_engine) {["rec/b.wav"]} false = Ok fr ∧
    file_results d !! "rec/b.wav" = Some fr.
Proof.
  apply (@X11_entry_is_the_task_on_the_initial_state _ _ Demo.files
           [Start 2; Start 0; Yield 1] level_engine "rec" {["rec/b.wav"]}
           ["a.wav"; "notes.txt"; "bad.wav"; "b.wav"] rec_files "rec/b.wav").
  - reflexivity.
  - by compute_done.
  - reflexivity.
  - reflexivity.
  - by compute_done.
Defined.

Lemma X12_witness :
  @process_directory _ _ SetStore Demo.files [Start 2; Start 0; Yield 1]
    level_engine "rec" {["rec/b.wav"]} =
  @process_directory _ _ SetStore Demo.files [Start 0; Yield 0; Start 0; Yield 0]
    level_engine "rec" {["rec/b.wav"]}.
Proof.
  apply (@X12_outcome_is_independent_of_the_schedule _ _ Demo.files
           [Start 2; Start 0; Yield 1] [Start 0; Yield 0; Start 0; Yield 0]
           level_engine "rec" {["rec/b.wav"]}).
  intros names [= <-]. by compute_done.
Defined.
End BatchExtraRuns.

(** ** Survey data quality *)

Section SurveyFacts.
Import Fixtures.
Context {DataFrame : Type}.
Variable return_paqs : DataFrame → Exc (list (Z * list (option Qc))).
Implicit Types (row : list (option Qc)) (paqs : list (Z * list (option Qc))).

(** The rows flagged are appended in the order of the frame. *)
Lemma flag_rows_filter allow_na val_range paqs invalid_indices :
  flag_rows allow_na val_range paqs invalid_indices =
  invalid_indices ++
  (filter (fun ir => row_invalid allow_na val_range ir.2 = true) paqs).*1.
Proof.
  revert invalid_indices.
  induction paqs as [|[i row] paqs IH]; intros acc; simpl.
  - by rewrite app_nil_r.
  - rewrite IH. destruct (row_invalid allow_na val_range row) eqn:Hrow.
    + rewrite filter_cons_True by done. by rewrite <- app_assoc.
    + rewrite filter_cons_False by (simpl; congruence). done.
Qed.

Lemma likert_flagged df allow_na val_range paqs :
  return_paqs df = Ok paqs →
  ∃ res,
    likert_data_quality return_paqs df allow_na val_range = Ok res ∧
    default [] res =
      (filter (fun ir => row_invalid allow_na val_range ir.2 = true) paqs).*1 ∧
    res ≠ Some [].
Proof.
  intros Hpaqs. unfold likert_data_quality. rewrite Hpaqs. simpl.
  rewrite flag_rows_filter. simpl.
  destruct ((filter _ paqs).*1) as [|i l]; eauto.
Qed.

Lemma isna_any_true row : isna_any row = true ↔ None ∈ row.
Proof.
  unfold isna_any. rewrite existsb_exists. split.
  - intros (v & Hv & Hnone). apply bool_decide_eq_true in Hnone as ->.
    by apply list_elem_of_In.
  - intros Hin. exists None. split; [by apply list_elem_of_In|].
    by apply bool_decide_eq_true.
Qed.

Lemma notna_all_true row : notna_all row = true ↔ None ∉ row.
Proof.
  unfold notna_all. rewrite forallb_forall. split.
  - intros Hall Hin. apply list_elem_of_In, Hall in Hin.
    by apply bool_decide_eq_true in Hin.
  - intros Hnone v Hv. apply bool_decide_eq_true. intros ->.
    by apply Hnone, list_elem_of_In.
Qed.

(** X13: [likert_data_quality] never returns an empty list: it returns
    [None] when no row is flagged.  The indices it returns are index labels
    of the frame, in the order of the frame's rows, each row at most
    once. *)
Theorem X13_flagged_indices_follow_the_frame
    df allow_na val_range paqs :
  return_paqs df = Ok paqs →
  ∃ res,
    likert_data_quality return_paqs df allow_na val_range = Ok res ∧
    res ≠ Some [] ∧
    default [] res `sublist_of` paqs.*1.
Proof.
  intros Hpaqs.
  destruct (likert_flagged df allow_na val_range paqs Hpaqs)
    as (res & Hres & Hflag & Hne).
  exists res. split; [done|]. split; [done|].
  rewrite Hflag. apply fmap_sublist, sublist_filter.
Qed.

Lemma row_invalid_allow_na val_range row :
  row_invalid true val_range row = true →
  row_invalid false val_range row = true.
Proof.
  unfold row_invalid. simpl. destruct (isna_any row) eqn:Hna; [done|].
  done.
Qed.

Lemma filter_sublist_mono {A} (P Q : A → Prop)
    `{!∀ x, Decision (P x)} `{!∀ x, Decision (Q x)} (l : list A) :
  (∀ x, P x → Q x) → filter P l `sublist_of` filter Q l.
Proof.
  intros HPQ. induction l as [|x l IH]; [done|].
  destruct (decide (P x)) as [HP|HP].
  - rewrite !filter_cons_True by auto. by apply sublist_skip.
  - rewrite (filter_cons_False P) by done.
    destruct (decide (Q x)).
    + rewrite filter_cons_True by done. by apply sublist_cons.
    + by rewrite filter_cons_False.
Qed.

(** X14: allowing [NaN] only removes indices: what is flagged with
    [allow_na=True] is, in the same order, among what is flagged with
    [allow_na=False]. *)
Theorem X14_allow_na_flags_less df val_range paqs :
  return_paqs df = Ok paqs →
  ∃ lenient strict,
    likert_data_quality return_paqs df true val_range = Ok lenient ∧
    likert_data_quality return_paqs df false val_range = Ok strict ∧
    default [] lenient `sublist_of` default [] strict.
Proof.
  intros Hpaqs.
  destruct (likert_flagged df true val_range paqs Hpaqs)
    as (r1 & Hr1 & Hf1 & _).
  destruct (likert_flagged df false val_range paqs Hpaqs)
    as (r2 & Hr2 & Hf2 & _).
  exists r1, r2. split; [done|]. split; [done|].
  rewrite Hf1, Hf2. apply fmap_sublist, filter_sublist_mono.
  intros [i row]. apply row_invalid_allow_na.
Qed.

Lemma likert_elem df allow_na val_range paqs res i :
  return_paqs df = Ok paqs →
  likert_data_quality return_paqs df allow_na val_range = Ok res →
  i ∈ default [] res ↔
  ∃ row, (i, row) ∈ paqs ∧ row_invalid allow_na val_range row = true.
Proof.
  intros Hpaqs Hres.
  destruct (likert_flagged df allow_na val_range paqs Hpaqs)
    as (res' & Hres' & Hflag & _).
  rewrite Hres in Hres'. injection Hres' as <-.
  rewrite Hflag, list_elem_of_fmap. split.
  - intros ([i' row] & -> & Hin). apply list_elem_of_filter in Hin as [? ?].
    by exists row.
  - intros (row & Hin & Hrow). exists (i, row). split; [done|].
    by apply list_elem_of_filter.
Qed.

Lemma NoDup_fst_row paqs i row row' :
  NoDup paqs.*1 → (i, row) ∈ paqs → (i, row') ∈ paqs → row = row'.
Proof.
  intros Hnd Hin Hin'.
  induction paqs as [|[j r] paqs IH]; [by apply elem_of_nil in Hin|].
  rewrite fmap_cons in Hnd. apply NoDup_cons in Hnd as [Hj Hnd]. simpl in Hj.
  apply elem_of_cons in Hin as [[= -> ->]|Hin];
    apply elem_of_cons in Hin' as [[= ->]|Hin'].
  - done.
  - exfalso. apply Hj, list_elem_of_fmap. by exists (j, row').
  - subst. exfalso. apply Hj, list_elem_of_fmap. by exists (j, row).
  - by apply IH.
Qed.

(** X15: a row with a [NaN] is flagged exactly when [allow_na] is false.
    With [allow_na=True] such a row is never flagged, whatever its other
    values are: a row with a missing answer is not range-checked. *)
Theorem X15_rows_with_nan df allow_na val_range paqs res i row :
  return_paqs df = Ok paqs →
  NoDup paqs.*1 →
  (i, row) ∈ paqs →
  None ∈ row →
  likert_data_quality return_paqs df allow_na val_range = Ok res →
  i ∈ default [] res ↔ allow_na = false.
Proof.
  intros Hpaqs Hnd Hin Hnan Hres.
  rewrite (likert_elem df allow_na val_range paqs res i Hpaqs Hres).
  assert (row_invalid allow_na val_range row = negb allow_na) as Hrow.
  { unfold row_invalid. rewrite (proj2 (isna_any_true row) Hnan).
    destruct allow_na; simpl; [|done].
    destruct (notna_all row) eqn:Hall; [|done].
    by apply notna_all_true in Hall. }
  split.
  - intros (row' & Hin' & Hinv).
    rewrite (NoDup_fst_row paqs i row' row Hnd Hin' Hin), Hrow in Hinv.
    by destruct allow_na.
  - intros ->. exists row. by rewrite Hrow.
Qed.

Lemma dropna_complete (values : list Qc) : dropna (Some <$> values) = values.
Proof.
  unfold dropna. induction values as [|v values IH]; [done|].
  simpl. by f_equal.
Qed.

Lemma complete_no_nan (values : list Qc) : None ∉ Some <$> values.
Proof. intros Hin. by apply list_elem_of_fmap in Hin as (v & ? & _). Qed.

(** The minimum and the maximum of a row without [NaN] are values of the
    row that bound the others. *)
Lemma row_min_spec (values : list Qc) :
  match row_min (Some <$> values) with
  | None => values = []
  | Some m => m ∈ values ∧ ∀ v, v ∈ values → (m ≤ v)%Qc
  end.
Proof.
  unfold row_min. rewrite dropna_complete.
  induction values as [|v values IH]; simpl; [done|].
  destruct (foldr _ None values) as [m|].
  - destruct IH as [Hm Hmin]. destruct (decide (v ≤ m)%Qc) as [Hle|Hgt].
    + split; [apply list_elem_of_here|].
      intros w [->|Hw]%elem_of_cons; [apply Qcle_refl|].
      eapply Qcle_trans; [done|auto].
    + split; [by apply list_elem_of_further|].
      intros w [->|Hw]%elem_of_cons; [|auto].
      by apply Qclt_le_weak, Qcnot_le_lt.
  - subst values. split; [apply list_elem_of_here|].
    intros w ->%list_elem_of_singleton. apply Qcle_refl.
Qed.

Lemma row_max_spec (values : list Qc) :
  match row_max (Some <$> values) with
  | None => values = []
  | Some m => m ∈ values ∧ ∀ v, v ∈ values → (v ≤ m)%Qc
  end.
Proof.
  unfold row_max. rewrite dropna_complete.
  induction values as [|v values IH]; simpl; [done|].
  destruct (foldr _ None values) as [m|].
  - destruct IH as [Hm Hmax]. destruct (decide (m ≤ v)%Qc) as [Hle|Hgt].
    + split; [apply list_elem_of_here|].
      intros w [->|Hw]%elem_of_cons; [apply Qcle_refl|].
      eapply Qcle_trans; [|done]. auto.
    + split; [by apply list_elem_of_further|].
      intros w [->|Hw]%elem_of_cons; [|auto].
      by apply Qclt_le_weak, Qcnot_le_lt.
  - subst values. split; [apply list_elem_of_here|].
    intros w ->%list_elem_of_singleton. apply Qcle_refl.
Qed.

Lemma row_min_lt (values : list Qc) (x : Qc) :
  nan_lt (row_min (Some <$> values)) x = true ↔
  ∃ v, v ∈ values ∧ (v < x)%Qc.
Proof.
  pose proof (row_min_spec values) as Hspec.
  destruct (row_min (Some <$> values)) as [m|]; simpl.
  - destruct Hspec as [Hm Hmin]. rewrite bool_decide_eq_true. split; [eauto|].
    intros (v & Hv & Hlt). eapply Qcle_lt_trans; [|done]. auto.
  - subst values. split; [done|]. by intros (v & ?%elem_of_nil & _).
Qed.

Lemma row_max_gt (values : list Qc) (x : Qc) :
  nan_gt (row_max (Some <$> values)) x = true ↔
  ∃ v, v ∈ values ∧ (x < v)%Qc.
Proof.
  pose proof (row_max_spec values) as Hspec.
  destruct (row_max (Some <$> values)) as [m|]; simpl.
  - destruct Hspec as [Hm Hmax]. rewrite bool_decide_eq_true. split; [eauto|].
    intros (v & Hv & Hlt). eapply Qclt_le_trans; [done|]. auto.
  - subst values. split; [done|]. by intros (v & ?%elem_of_nil & _).
Qed.

(** One distinct value: the row is not empty and all its values are its
    first. *)
Lemma nunique_one (values : list Qc) :
  nunique (Some <$> values) = 1 ↔
  ∃ x, head values = Some x ∧ ∀ v, v ∈ values → v = x.
Proof.
  unfold nunique. rewrite dropna_complete. split.
  - intros Hlen.
    destruct (remove_dups values) as [|x [|y l]] eqn:Hdups; [done| |done].
    assert (∀ v, v ∈ values → v = x) as Hall.
    { intros v Hv. apply elem_of_remove_dups in Hv. rewrite Hdups in Hv.
      by apply list_elem_of_singleton in Hv. }
    exists x. split; [|done].
    destruct values as [|v values]; [done|]. simpl. f_equal.
    apply Hall, list_elem_of_here.
  - intros (x & Hhead & Hall).
    pose proof (NoDup_remove_dups values) as Hnd.
    assert (∀ v, v ∈ remove_dups values → v = x) as Hall'.
    { intros v Hv. by apply Hall, elem_of_remove_dups. }
    destruct (remove_dups values) as [|a [|b l]] eqn:Hdups; [|done|].
    + destruct values as [|v values]; [done|].
      assert (v ∈ remove_dups (v :: values)) as Hv
        by apply elem_of_remove_dups, list_elem_of_here.
      rewrite Hdups in Hv. by apply elem_of_nil in Hv.
    + apply NoDup_cons in Hnd as [Hab _]. exfalso. apply Hab.
      rewrite (Hall' a), (Hall' b);
        [apply list_elem_of_here
        |apply list_elem_of_further, list_elem_of_here
        |apply list_elem_of_here].
Qed.

Lemma row_invalid_complete allow_na val_range (values : list Qc) :
  row_invalid allow_na val_range (Some <$> values) = true ↔
  (∃ v, v ∈ values ∧
        ((v < Qc_of_Z (float64 (Z.min val_range.1 val_range.2)))%Qc ∨
         (Qc_of_Z (float64 (Z.max val_range.1 val_range.2)) < v)%Qc)) ∨
  (∃ x, head values = Some x ∧ (∀ v, v ∈ values → v = x) ∧
        x ≠ mean_range val_range).
Proof.
  unfold row_invalid.
  assert (isna_any (Some <$> values) = false) as ->.
  { apply not_true_is_false. rewrite isna_any_true. apply complete_no_nan. }
  rewrite andb_false_r.
  rewrite (proj2 (notna_all_true _) (complete_no_nan values)).
  destruct (nan_lt _ _ || nan_gt _ _) eqn:Hrange.
  - split; [intros _; left|done].
    apply orb_true_iff in Hrange as [Hlt|Hgt].
    + apply row_min_lt in Hlt as (v & Hv & Hlt). eauto.
    + apply row_max_gt in Hgt as (v & Hv & Hgt). eauto.
  - apply orb_false_iff in Hrange as [Hlt Hgt].
    rewrite andb_true_iff, Nat.eqb_eq, nunique_one, negb_true_iff,
      bool_decide_eq_false.
    split.
    + intros [(x & Hhead & Hall) Hmid]. right. exists x.
      split; [done|]. split; [done|]. intros ->. apply Hmid.
      destruct values; simpl in *; congruence.
    + intros [(v & Hv & [Hlo|Hhi])|(x & Hhead & Hall & Hmid)].
      * assert (nan_lt (row_min (Some <$> values))
                  (Qc_of_Z (float64 (Z.min val_range.1 val_range.2))) = true)
          by (apply row_min_lt; eauto). congruence.
      * assert (nan_gt (row_max (Some <$> values))
                  (Qc_of_Z (float64 (Z.max val_range.1 val_range.2))) = true)
          by (apply row_max_gt; eauto). congruence.
      * split; [eauto|]. intros Heq. apply Hmid.
        destruct values; simpl in *; congruence.
Qed.

(** An integer of absolute value at most [2^53] is a float64. *)
Lemma float64_exact (n : Z) : (Z.abs n ≤ 2 ^ 53)%Z → float64 n = n.
Proof.
  intros Hn. unfold float64.
  destruct (Z.leb_spec (Z.log2 (Z.abs n) - 52) 0) as [|He]; [done|].
  assert (Z.abs n = 2 ^ 53)%Z as Habs.
  { destruct (decide (Z.abs n < 2 ^ 53)%Z) as [Hlt|]; [|lia]. exfalso.
    destruct (decide (Z.abs n = 0%Z)) as [H0|].
    - rewrite H0 in He. simpl in He. lia.
    - apply Z.log2_lt_pow2 in Hlt; lia. }
  destruct (Z.abs_eq_or_opp n) as [Heq|Heq]; rewrite Heq in Habs.
  - by rewrite Habs.
  - assert (n = - 2 ^ 53)%Z as -> by lia. done.
Qed.

Lemma mean_range_exact (lo hi : Z) :
  (Z.abs lo ≤ 2 ^ 52)%Z → (Z.abs hi ≤ 2 ^ 52)%Z →
  mean_range (lo, hi) = ((Qc_of_Z lo + Qc_of_Z hi) / Qc_of_Z 2)%Qc.
Proof.
  intros Hlo Hhi. unfold mean_range. simpl.
  rewrite (float64_exact lo), (float64_exact hi) by lia.
  rewrite float64_exact by lia. by rewrite Z2Qc_inj_add.
Qed.

(** X16: for bounds of [val_range] of absolute value at most [2^52], where
    float64 arithmetic on them is exact, a row without [NaN] is flagged
    exactly when one of its values is below the smaller or above the larger
    bound, or all its values are the same and are not [(lo + hi) / 2];
    [allow_na] plays no part.  So a row that gives the midpoint to every
    question is accepted, and so is any in-range row with two different
    answers. *)
Theorem X16_complete_rows
    df allow_na (lo hi : Z) paqs res i (values : list Qc) :
  return_paqs df = Ok paqs →
  NoDup paqs.*1 →
  (i, Some <$> values) ∈ paqs →
  (Z.abs lo ≤ 2 ^ 52)%Z →
  (Z.abs hi ≤ 2 ^ 52)%Z →
  likert_data_quality return_paqs df allow_na (lo, hi) = Ok res →
  i ∈ default [] res ↔
  (∃ v, v ∈ values ∧
        ((v < Qc_of_Z (Z.min lo hi))%Qc ∨ (Qc_of_Z (Z.max lo hi) < v)%Qc)) ∨
  (∃ x, head values = Some x ∧ (∀ v, v ∈ values → v = x) ∧
        x ≠ ((Qc_of_Z lo + Qc_of_Z hi) / Qc_of_Z 2)%Qc).
Proof.
  intros Hpaqs Hnd Hin Hlo Hhi Hres.
  rewrite (likert_elem df allow_na (lo, hi) paqs res i Hpaqs Hres).
  pose proof (row_invalid_complete allow_na (lo, hi) values) as Hrow.
  cbn [fst snd] in Hrow.
  rewrite (mean_range_exact lo hi Hlo Hhi) in Hrow.
  rewrite (float64_exact (Z.min lo hi)) in Hrow by lia.
  rewrite (float64_exact (Z.max lo hi)) in Hrow by lia.
  rewrite <- Hrow. split.
  - intros (row' & Hin' & Hinv).
    by rewrite <- (NoDup_fst_row paqs i row' _ Hnd Hin' Hin).
  - intros Hinv. eauto.
Qed.

Lemma row_invalid_range_swap allow_na (lo hi : Z) row :
  row_invalid allow_na (lo, hi) row = row_invalid allow_na (hi, lo) row.
Proof.
  unfold row_invalid, mean_range. simpl.
  by rewrite (Z.min_comm lo hi), (Z.max_comm lo hi),
    (Z.add_comm (float64 lo)).
Qed.

(** X17: the order of the two bounds of [val_range] does not matter:
    [(1, 5)] and [(5, 1)] flag the same rows. *)
Theorem X17_val_range_is_unordered df allow_na (lo hi : Z) :
  likert_data_quality return_paqs df allow_na (lo, hi) =
  likert_data_quality return_paqs df allow_na (hi, lo).
Proof.
  unfold likert_data_quality. destruct (return_paqs df) as [paqs|e]; [|done].
  simpl. rewrite !flag_rows_filter. simpl.
  assert (filter (fun ir => row_invalid allow_na (lo, hi) ir.2 = true) paqs =
          filter (fun ir => row_invalid allow_na (hi, lo) ir.2 = true) paqs)
    as ->; [|done].
  induction paqs as [|[i row] paqs IH]; [done|].
  rewrite !filter_cons. simpl. rewrite IH, (row_invalid_range_swap _ lo hi).
  done.
Qed.

(** The example of the docstring. *)
Example likert_docstring :
  likert_data_quality Ok likert_example false (1, 5)%Z
    = Ok (Some [0; 1; 2]%Z) ∧
  likert_data_quality Ok likert_example true (1, 5)%Z = Ok (Some [1; 2]%Z).
Proof. split; by vm_compute. Qed.

(** Beyond [2^53] the mean is not the midpoint: [np.mean((1, 2**53))] is
    [2**52], so a row that answers [2**52] throughout is accepted. *)
Example likert_large_range :
  mean_range (1, 2 ^ 53)%Z = Qc_of_Z (2 ^ 52) ∧
  likert_data_quality Ok [(0%Z, replicate 8 (Some (Qc_of_Z (2 ^ 52))))]
    false (1, 2 ^ 53)%Z = Ok None.
Proof.
  split; [|by vm_compute].
  apply Qc_is_canon. by vm_compute.
Qed.
End SurveyFacts.

Section SurveyRuns.
Import Fixtures.

Lemma X13_witness :
  ∃ res,
    likert_data_quality Ok likert_example false (1, 5)%Z = Ok res ∧
    res ≠ Some [] ∧
    default [] res `sublist_of` likert_example.*1.
Proof.
  apply (X13_flagged_indices_follow_the_frame Ok likert_example false
           (1, 5)%Z likert_example).
  reflexivity.
Defined.

Lemma X14_witness :
  ∃ lenient strict,
    likert_data_quality Ok likert_example true (1, 5)%Z = Ok lenient ∧
    likert_data_quality Ok likert_example false (1, 5)%Z = Ok strict ∧
    default [] lenient `sublist_of` default [] strict.
Proof.
  apply (X14_allow_na_flags_less Ok likert_example (1, 5)%Z likert_example).
  reflexivity.
Defined.

Lemma X15_witness :
  0%Z ∈ default [] (Some [1; 2]%Z) ↔ true = false.
Proof.
  apply (X15_rows_with_nan Ok likert_example true (1, 5)%Z likert_example
           (Some [1; 2]%Z) 0%Z
           [None; z 3; z 2; z 1; z 5; z 3; z 4; z 2]).
  - reflexivity.
  - by compute_done.
  - apply list_elem_of_here.
  - apply list_elem_of_here.
  - by vm_compute.
Defined.

Lemma X16_witness :
  3%Z ∈ default [] (Some [0; 1; 2]%Z) ↔
  (∃ v, v ∈ replicate 8 (Qc_of_Z 3) ∧
        ((v < Qc_of_Z (Z.min 1 5))%Qc ∨ (Qc_of_Z (Z.max 1 5) < v)%Qc)) ∨
  (∃ x, head (replicate 8 (Qc_of_Z 3)) = Some x ∧
        (∀ v, v ∈ replicate 8 (Qc_of_Z 3) → v = x) ∧
        x ≠ ((Qc_of_Z 1 + Qc_of_Z 5) / Qc_of_Z 2)%Qc).
Proof.
  apply (X16_complete_rows Ok likert_example false 1%Z 5%Z likert_example
           (Some [0; 1; 2]%Z) 3%Z (replicate 8 (Qc_of_Z 3))).
  - reflexivity.
  - by compute_done.
  - do 3 apply list_elem_of_further. apply list_elem_of_here.
  - simpl. lia.
  - simpl. lia.
  - by vm_compute.
Defined.
End SurveyRuns.

(** ** The process pool *)

Section PoolFacts.
Context `{AnalysisLib}.

Lemma collect_completed order : ∀ futures results_df pbar,
  ∃ completed,
    completed ≡ₚ futures ∧
    collect order futures results_df pbar =
      (foldl absorb results_df completed, pbar + length futures).
Proof.
  induction order as [|k order IH]; intros futures results_df pbar; simpl.
  - by exists futures.
  - destruct (futures !! k) as [future|] eqn:Hk; [|by apply IH].
    destruct (IH (delete k futures) (absorb results_df future) (S pbar))
      as (completed & Hperm & ->).
    exists (future :: completed). split.
    + rewrite Hperm. symmetry. by apply delete_Permutation.
    + simpl. f_equal.
      rewrite (Permutation_length (delete_Permutation _ _ _ Hk)).
      simpl. lia.
Qed.

(** Every order of completion is the run of some [order]. *)
Lemma collect_any_order completed : ∀ futures,
  completed ≡ₚ futures →
  ∃ order, ∀ results_df pbar,
    collect order futures results_df pbar =
      (foldl absorb results_df completed, pbar + length futures).
Proof.
  induction completed as [|future completed IH]; intros futures Hperm.
  - apply Permutation_nil_l in Hperm as ->. by exists [].
  - assert (future ∈ futures) as Hin
      by (rewrite <- Hperm; apply list_elem_of_here).
    apply list_elem_of_lookup in Hin as [k Hk].
    pose proof (delete_Permutation _ _ _ Hk) as Hdel.
    destruct (IH (delete k futures)) as [order Horder].
    { apply (inj (cons future)). by rewrite Hperm. }
    exists (k :: order). intros results_df pbar. simpl. rewrite Hk.
    rewrite Horder. f_equal.
    rewrite (Permutation_length Hdel). simpl. lia.
Qed.

Lemma foldl_absorb_analysed wav_files levels analysis_settings verbose
    parallel_mosqito : ∀ results_df,
  foldl absorb results_df
    ((fun wav_file =>
        load_analyse_binaural wav_file levels analysis_settings verbose
          parallel_mosqito) <$> wav_files) =
  foldl add_or_keep results_df
    (analysed wav_files levels analysis_settings verbose parallel_mosqito).
Proof.
  unfold analysed.
  induction wav_files as [|wav_file wav_files IH]; intros results_df;
    [done|].
  simpl.
  destruct (load_analyse_binaural wav_file levels analysis_settings verbose
              parallel_mosqito); simpl; by rewrite IH.
Qed.

Lemma foldl_absorb_results (futures : list (Exc Frame)) : ∀ results_df,
  foldl absorb results_df futures =
  foldl add_or_keep results_df
    (omap (fun future =>
             match future with Ok r => Some r | Raise _ => None end)
       futures).
Proof.
  induction futures as [|[r|e] futures IH]; intros results_df; simpl;
    by rewrite ?IH.
Qed.

Lemma foldl_add_or_keep_Permutation (l1 l2 : list Frame) :
  (∀ results_df a b,
     add_or_keep (add_or_keep results_df a) b =
     add_or_keep (add_or_keep results_df b) a) →
  l1 ≡ₚ l2 →
  ∀ results_df, foldl add_or_keep results_df l1 =
                foldl add_or_keep results_df l2.
Proof.
  intros Hcomm Hperm.
  induction Hperm as [|x l1 l2 _ IH|x y l|l1 l2 l3 _ IH1 _ IH2];
    intros results_df; simpl.
  - done.
  - apply IH.
  - by rewrite Hcomm.
  - by rewrite IH1.
Qed.

Lemma parallel_process_run order wav_files results_df levels
    analysis_settings verbose max_workers parallel_mosqito :
  from_option (fun w => (0 < w)%Z) True max_workers →
  ∃ completed,
    completed ≡ₚ
      analysed wav_files levels analysis_settings verbose
        parallel_mosqito ∧
    parallel_process order wav_files results_df levels analysis_settings
      verbose max_workers parallel_mosqito =
    {| pool_returned := Ok (foldl add_or_keep results_df completed);
       pbar_count := Some (length wav_files) |}.
Proof.
  intros Hworkers. unfold parallel_process.
  replace (from_option (fun w => bool_decide (w ≤ 0)%Z) false max_workers)
    with false.
  2: { destruct max_workers as [w|]; simpl in *; [|done].
       symmetry. apply bool_decide_eq_false. lia. }
  set (futures := _ <$> wav_files).
  destruct (collect_completed order futures results_df 0)
    as (completed & Hperm & ->).
  exists (omap (fun future =>
                  match future with Ok r => Some r | Raise _ => None end)
            completed).
  split.
  - rewrite Hperm. unfold futures, analysed.
    clear. induction wav_files as [|wav_file wav_files IH]; [done|].
    simpl.
    destruct (load_analyse_binaural wav_file levels analysis_settings
                verbose parallel_mosqito); simpl; by rewrite IH.
  - rewrite foldl_absorb_results. unfold futures.
    by rewrite length_fmap.
Qed.

Lemma load_analyse_binaural_decibel wav_file levels analysis_settings
    verbose parallel_mosqito :
  load_analyse_binaural wav_file levels analysis_settings verbose
    parallel_mosqito =
  match binaural_from_wav wav_file with
  | Ok b =>
      match decibel levels (recording b) with
      | Some levels_of_b =>
          b ← calibrate_to b levels_of_b;
          process_all_metrics b analysis_settings parallel_mosqito verbose
      | None =>
          Raise (match levels !! recording b with
                 | None => repr (recording b)
                 | Some of_recording =>
                     match of_recording !! "Left" with
                     | None => repr "Left"
                     | Some _ => repr "Right"
                     end
                 end)
      end
  | Raise e => Raise e
  end.
Proof.
  unfold load_analyse_binaural, decibel, getitem_dict.
  destruct (binaural_from_wav wav_file) as [b|e]; simpl; [|done].
  destruct (levels !! recording b) as [of_recording|]; simpl; [|done].
  destruct (of_recording !! "Left") as [l|]; simpl; [|done].
  destruct (of_recording !! "Right") as [r|]; simpl; [|done].
  by destruct (calibrate_to b (l, r)) as [b'|e]; simpl;
    [destruct (process_all_metrics _ _ _ _)|].
Qed.

(** X18: with [max_workers] left to the default or positive,
    [parallel_process] returns a frame and updates the progress bar once
    for every file of [wav_files], in whatever order the tasks complete and
    whichever of them raise. *)
Theorem X18_pool_returns_and_counts_every_file order wav_files results_df
    levels analysis_settings verbose max_workers parallel_mosqito :
  from_option (fun w => (0 < w)%Z) True max_workers →
  let outcome :=
    parallel_process order wav_files results_df levels analysis_settings
      verbose max_workers parallel_mosqito in
  (∃ df, pool_returned outcome = Ok df) ∧
  pbar_count outcome = Some (length wav_files).
Proof.
  intros Hworkers outcome. subst outcome.
  destruct (parallel_process_run order wav_files results_df levels
              analysis_settings verbose max_workers parallel_mosqito
              Hworkers) as (completed & _ & ->).
  simpl. eauto.
Qed.

(** X19: the frame that [parallel_process] returns is the initial frame
    to which [add_results] added the result of every file that
    [load_analyse_binaural] analysed, each exactly once, in some order: it
    is [add_results(... add_results(results_df, r1) ..., rn)] for an
    arrangement [r1 .. rn] of these results, where a call of [add_results]
    that raises leaves the frame it was given.  A file whose analysis
    raised adds nothing. *)
Theorem X19_every_analysed_file_is_added_once order wav_files results_df
    levels analysis_settings verbose max_workers parallel_mosqito :
  from_option (fun w => (0 < w)%Z) True max_workers →
  ∃ completed,
    completed ≡ₚ
      omap (fun wav_file =>
              match load_analyse_binaural wav_file levels analysis_settings
                      verbose parallel_mosqito with
              | Ok result => Some result
              | Raise _ => None
              end) wav_files ∧
    pool_returned
      (parallel_process order wav_files results_df levels
         analysis_settings verbose max_workers parallel_mosqito) =
    Ok (foldl (fun df result =>
                 match add_results df result with
                 | Ok df' => df'
                 | Raise _ => df
                 end) results_df completed).
Proof.
  intros Hworkers.
  destruct (parallel_process_run order wav_files results_df levels
              analysis_settings verbose max_workers parallel_mosqito
              Hworkers) as (completed & Hperm & ->).
  by exists completed.
Qed.

(** X20: when adding two results to a frame gives the same frame in either
    order, what [parallel_process] returns does not depend on the order in
    which the tasks complete. *)
Theorem X20_commuting_results_make_the_order_irrelevant order1 order2
    wav_files results_df levels analysis_settings verbose max_workers
    parallel_mosqito :
  (∀ df a b,
     add_or_keep (add_or_keep df a) b = add_or_keep (add_or_keep df b) a) →
  parallel_process order1 wav_files results_df levels analysis_settings
    verbose max_workers parallel_mosqito =
  parallel_process order2 wav_files results_df levels analysis_settings
    verbose max_workers parallel_mosqito.
Proof.
  intros Hcomm.
  assert (from_option (fun w => (0 < w)%Z) True max_workers ∨
          ¬ from_option (fun w => (0 < w)%Z) True max_workers)
    as [Hworkers|Hworkers]
    by (destruct max_workers as [w|]; simpl; [lia|tauto]).
  - destruct (parallel_process_run order1 wav_files results_df levels
                analysis_settings verbose max_workers parallel_mosqito
                Hworkers) as (completed1 & Hperm1 & ->).
    destruct (parallel_process_run order2 wav_files results_df levels
                analysis_settings verbose max_workers parallel_mosqito
                Hworkers) as (completed2 & Hperm2 & ->).
    do 2 f_equal.
    apply foldl_add_or_keep_Permutation; [done|].
    by rewrite Hperm1, Hperm2.
  - unfold parallel_process.
    destruct max_workers as [w|]; simpl in *; [|tauto].
    by rewrite bool_decide_eq_true_2 by lia.
Qed.

(** X21: of [levels], [parallel_process] uses only the levels of the left
    and the right channel of the recordings that could be read: two calls
    whose [levels] agree on these have the same outcome, whichever other
    entries differ or are missing. *)
Theorem X21_only_the_levels_of_the_recordings_matter order wav_files
    results_df levels1 levels2 analysis_settings verbose max_workers
    parallel_mosqito :
  (∀ wav_file b,
     wav_file ∈ wav_files → binaural_from_wav wav_file = Ok b →
     decibel levels1 (recording b) = decibel levels2 (recording b)) →
  parallel_process order wav_files results_df levels1 analysis_settings
    verbose max_workers parallel_mosqito =
  parallel_process order wav_files results_df levels2 analysis_settings
    verbose max_workers parallel_mosqito.
Proof.
  intros Hlevels. unfold parallel_process.
  destruct (from_option _ _ _); [done|].
  set (futures1 := _ <$> wav_files).
  set (futures2 := _ <$> wav_files).
  assert (Forall2 (fun x y => ∀ df, absorb df x = absorb df y)
            futures1 futures2) as Hfutures.
  { unfold futures1, futures2. apply Forall2_fmap, Forall_Forall2_diag.
    apply Forall_forall. intros wav_file Hin df.
    rewrite !load_analyse_binaural_decibel.
    destruct (binaural_from_wav wav_file) as [b|e] eqn:Hb; [|done].
    rewrite <- (Hlevels wav_file b Hin Hb).
    by destruct (decibel levels1 (recording b)). }
  clearbody futures1 futures2. clear Hlevels.
  enough (∀ df pbar,
            collect order futures1 df pbar = collect order futures2 df pbar)
    as -> by done.
  revert futures1 futures2 Hfutures.
  induction order as [|k order IH]; intros futures1 futures2 Hfutures df
    pbar; simpl.
  - f_equal; [|by rewrite (Forall2_length _ _ _ Hfutures)].
    revert df. induction Hfutures as [|x y l1 l2 Hxy _ IH]; intros df;
      simpl; [done|].
    by rewrite Hxy, IH.
  - destruct (futures1 !! k) as [x|] eqn:Hk1.
    + destruct (Forall2_lookup_l _ _ _ _ _ Hfutures Hk1) as (y & -> & Hxy).
      rewrite Hxy. apply IH. by apply Forall2_delete.
    + assert (futures2 !! k = None) as ->; [|by apply IH].
      apply lookup_ge_None. rewrite <- (Forall2_length _ _ _ Hfutures).
      by apply lookup_ge_None.
Qed.
End PoolFacts.

Section PoolRuns.
Import Fixtures.
Local Existing Instance studio.

Lemma X18_witness :
  (∃ df,
     pool_returned
       (parallel_process [2; 0] studio_files (∅ : gset string)
          studio_levels () true (Some 2%Z) true) = Ok df) ∧
  pbar_count
    (parallel_process [2; 0] studio_files (∅ : gset string) studio_levels
       () true (Some 2%Z) true) = Some 4.
Proof.
  apply (@X18_pool_returns_and_counts_every_file studio [2; 0] studio_files
           (∅ : gset string) studio_levels () true (Some 2%Z) true).
  simpl. lia.
Defined.

(** The three recordings that can be read, in the order [c.wav], [a.wav],
    [b.wav] in which the run yields them. *)
Lemma X19_witness :
  ∃ completed,
    completed ≡ₚ
      omap (fun wav_file =>
              match load_analyse_binaural wav_file studio_levels_full ()
                      true true with
              | Ok result => Some result
              | Raise _ => None
              end) studio_files ∧
    pool_returned
      (parallel_process [3; 0] studio_files (∅ : gset string)
         studio_levels_full () true None true) =
    Ok (foldl (fun df result =>
                 match add_results df result with
                 | Ok df' => df'
                 | Raise _ => df
                 end) (∅ : gset string) completed).
Proof.
  apply (@X19_every_analysed_file_is_added_once studio [3; 0] studio_files
           (∅ : gset string) studio_levels_full () true None true).
  exact I.
Defined.

Example pool_adds_every_recording :
  pool_returned
    (parallel_process [3; 0] studio_files (∅ : gset string)
       studio_levels_full () true None true) =
  Ok ({[ "a.wav"; "b.wav"; "c.wav" ]} : gset string).
Proof. apply (f_equal Ok). apply set_eq. intros x. by vm_compute. Qed.

Lemma X20_witness :
  parallel_process [2; 0] studio_files (∅ : gset string)
    studio_levels_full () true None true =
  parallel_process [1; 1; 1] studio_files (∅ : gset string)
    studio_levels_full () true None true.
Proof.
  apply (@X20_commuting_results_make_the_order_irrelevant studio [2; 0]
           [1; 1; 1] studio_files (∅ : gset string) studio_levels_full ()
           true None true).
  intros df a b. unfold add_or_keep, absorb. cbn.
  by rewrite <- !(assoc_L (∪)), (comm_L (∪) a b).
Defined.

Lemma X21_witness :
  parallel_process [2; 0] studio_files (∅ : gset string) studio_levels ()
    true None true =
  parallel_process [2; 0] studio_files (∅ : gset string)
    studio_levels_other () true None true.
Proof.
  apply (@X21_only_the_levels_of_the_recordings_matter studio [2; 0]
           studio_files (∅ : gset string) studio_levels
           studio_levels_other () true None true).
  intros wav_file b Hin Hb. unfold studio_files in Hin.
  set_unfold in Hin.
  destruct Hin as [-> | [-> | [-> | [-> | []]]]]; vm_compute in Hb;
    try discriminate; injection Hb as <-; by vm_compute.
Defined.
End PoolRuns.
